(** * Miscraft: the write-behind persistence pipeline (db.c, ring.h)

    A shallow embedding of the database layer of Miscraft: the growable ring of
    tagged commands declared in [ring.h], the producer entry points and the
    background worker of [db.c], and the tables the SQL text of [db_init]
    creates and the prepared statements act on. *)

From Stdlib Require Import ZArith Lia.
From stdpp Require Import base option list strings.

Local Open Scope Z_scope.

(** ** Ring entries ([ring.h]) *)

Inductive RingEntryType :=
  | BLOCK
  | LIGHT
  | KEY
  | COMMIT
  | EXIT
  | BLOCK_DAMAGE
  | BLOCK_DAMAGE_TRIM.

#[global] Instance RingEntryType_eq_dec : EqDecision RingEntryType.
Proof. solve_decision. Defined.

Module RingEntry.
Record t := mk {
  type : RingEntryType;
  p : Z;
  q : Z;
  x : Z;
  y : Z;
  z : Z;
  w : Z;
  key : Z
}.
End RingEntry.
Abbreviation RingEntry := RingEntry.t.

#[global] Instance RingEntry_eq_dec : EqDecision RingEntry.
Proof. solve_decision. Defined.

Module Ring.
Record t := mk {
  capacity : Z;
  start : Z;
  end_ : Z;
  data : list RingEntry
}.
End Ring.
Abbreviation Ring := Ring.t.

(** ** The ring operations

    [ring.h] only declares them; their bodies are not part of the sources at
    hand, so they follow the Queue contract of the specification. *)

(** Modelled from the spec: the content of a freshly allocated slot (the body
    of [ring_alloc] is missing). A slot that was never written holds the zero
    entry; no operation below ever hands such a slot out. *)
Definition zero_entry : RingEntry :=
  RingEntry.mk BLOCK 0 0 0 0 0 0 0.

(** Modelled from the spec: [ring_alloc] (body missing), "allocated once at
    worker start with a default initial capacity": [capacity] slots, no pending
    entry. *)
Definition ring_alloc (capacity : Z) : Ring :=
  Ring.mk capacity 0 0 (replicate (Z.to_nat capacity) zero_entry).

(** Modelled from the spec: [ring_free] (body missing), "freed once at worker
    stop": the storage is released. *)
Definition ring_free (ring : Ring) : Ring :=
  Ring.mk (Ring.capacity ring) (Ring.start ring) (Ring.end_ ring) [].

(** Modelled from the spec: [ring_empty] (body missing), a pure query over
    [start] and [end]: nothing is pending when both indices meet. *)
Definition ring_empty (ring : Ring) : bool :=
  Ring.start ring =? Ring.end_ ring.

(** Modelled from the spec: [ring_full] (body missing), a pure query over
    [start], [end] and [capacity]. The indices live modulo [capacity] and
    [start = end] means empty, so the buffer is full when advancing [end] once
    more would meet [start]. *)
Definition ring_full (ring : Ring) : bool :=
  Ring.start ring =? (Ring.end_ ring + 1) mod Ring.capacity ring.

(** Modelled from the spec: [ring_size] (body missing),
    "size = (end - start) mod capacity". *)
Definition ring_size (ring : Ring) : Z :=
  (Ring.end_ ring - Ring.start ring) mod Ring.capacity ring.

(** The slot at index [i] of the storage. *)
Definition ring_slot (ring : Ring) (i : Z) : RingEntry :=
  default zero_entry (Ring.data ring !! Z.to_nat i).

(** Modelled from the spec: [ring_get] (body missing), "pop: returns and
    removes the oldest entry, or signals empty (not an error) if none
    pending". The C function returns 0 or 1 and writes the entry through its
    second argument; here [None] is the 0 result. *)
Definition ring_get (ring : Ring) : option (RingEntry * Ring) :=
  if ring_empty ring then None
  else Some (ring_slot ring (Ring.start ring),
             Ring.mk (Ring.capacity ring)
                     ((Ring.start ring + 1) mod Ring.capacity ring)
                     (Ring.end_ ring)
                     (Ring.data ring)).

(** The pending entries, oldest first: [size] slots read from [start] on,
    wrapping at [capacity]. *)
Definition ring_pending (ring : Ring) : list RingEntry :=
  (λ i : nat, ring_slot ring ((Ring.start ring + Z.of_nat i) mod Ring.capacity ring))
    <$> seq 0 (Z.to_nat (ring_size ring)).

(** Modelled from the spec: [ring_grow] (body missing), "doubles capacity,
    reallocates storage, and copies all pending entries starting at index 0
    (resets start=0, end=size)". *)
Definition ring_grow (ring : Ring) : Ring :=
  let pending := ring_pending ring in
  let capacity := 2 * Ring.capacity ring in
  Ring.mk capacity 0 (ring_size ring)
          (pending ++ replicate (Z.to_nat capacity - length pending)%nat zero_entry).

(** Modelled from the spec: [ring_put] (body missing), "push: if the buffer is
    full, doubles capacity ... before appending. Never fails; never silently
    drops an entry". *)
Definition ring_put (ring : Ring) (entry : RingEntry) : Ring :=
  let ring := if ring_full ring then ring_grow ring else ring in
  Ring.mk (Ring.capacity ring)
          (Ring.start ring)
          ((Ring.end_ ring + 1) mod Ring.capacity ring)
          (<[Z.to_nat (Ring.end_ ring) := entry]> (Ring.data ring)).

(** Modelled from the spec: the [ring_put_*] constructors (bodies missing).
    Each builds the tagged Command of its kind and pushes it; "payload fields
    used only by the relevant kinds", the others are left at zero. *)
Definition ring_put_block (ring : Ring) (p q x y z w : Z) : Ring :=
  ring_put ring (RingEntry.mk BLOCK p q x y z w 0).

Definition ring_put_light (ring : Ring) (p q x y z w : Z) : Ring :=
  ring_put ring (RingEntry.mk LIGHT p q x y z w 0).

Definition ring_put_block_damage (ring : Ring) (p q x y z damage : Z) : Ring :=
  ring_put ring (RingEntry.mk BLOCK_DAMAGE p q x y z damage 0).

Definition ring_put_block_damage_trim (ring : Ring) (p q : Z) : Ring :=
  ring_put ring (RingEntry.mk BLOCK_DAMAGE_TRIM p q 0 0 0 0 0).

Definition ring_put_key (ring : Ring) (p q key : Z) : Ring :=
  ring_put ring (RingEntry.mk KEY p q 0 0 0 0 key).

Definition ring_put_commit (ring : Ring) : Ring :=
  ring_put ring (RingEntry.mk COMMIT 0 0 0 0 0 0 0).

Definition ring_put_exit (ring : Ring) : Ring :=
  ring_put ring (RingEntry.mk EXIT 0 0 0 0 0 0 0).

(** A full drain: pop until the ring reports empty. A ring never holds more
    than [capacity] entries, which bounds the number of pops. *)
Fixpoint ring_drain_n (fuel : nat) (ring : Ring) : list RingEntry :=
  match fuel with
  | O => []
  | S fuel =>
      match ring_get ring with
      | None => []
      | Some (entry, ring) => entry :: ring_drain_n fuel ring
      end
  end.

Definition ring_drain (ring : Ring) : list RingEntry :=
  ring_drain_n (Z.to_nat (Ring.capacity ring)) ring.

(** The representation invariant of a ring: a positive capacity, both indices
    inside it, and [capacity] slots of storage. *)
Record ring_wf (ring : Ring) : Prop := {
  ring_wf_capacity : 0 < Ring.capacity ring;
  ring_wf_start : 0 ≤ Ring.start ring < Ring.capacity ring;
  ring_wf_end : 0 ≤ Ring.end_ ring < Ring.capacity ring;
  ring_wf_data : length (Ring.data ring) = Z.to_nat (Ring.capacity ring)
}.

(** ** The backing store

    [db.c] talks to SQLite. The store is kept as the tables that
    [create_query] declares, each a list of rows in insertion order, and every
    statement acts on them as its SQL text in [db_init] (or in the function
    that prepares it) says. *)

(** A C [float], kept as its IEEE-754 binary32 bit pattern: [db.c] only moves
    these values in and out of the store. *)
Definition float := Z.

(** SQLite stores a NaN as NULL, which matters for the [not null] columns of
    the [state] table. *)
Definition float_is_nan (f : float) : bool :=
  (Z.land (Z.shiftr f 23) 255 =? 255) && negb (Z.land f 8388607 =? 0).
Arguments float_is_nan : simpl never.

(** Negative zero, 0x80000000. *)
Definition negative_zero : float := 2147483648.

(** What a column of type [float] gives back for a float bound with
    [sqlite3_bind_double] and read with [sqlite3_column_double]: SQLite keeps
    a real without fractional part as an integer, so negative zero is kept as
    the integer 0 and comes back as positive zero; every other value that is
    not a NaN comes back as it was. *)
Definition real_column (f : float) : float :=
  if f =? negative_zero then 0 else f.

(** A row of [block], [light] or [block_damage]: (p, q, x, y, z, w). *)
Module BlockRow.
Record t := mk { p : Z; q : Z; x : Z; y : Z; z : Z; w : Z }.
Definition pqxyz (r : t) : Z * Z * Z * Z * Z := (p r, q r, x r, y r, z r).
Definition pq (r : t) : Z * Z := (p r, q r).
Definition xyzw (r : t) : Z * Z * Z * Z := (x r, y r, z r, w r).
End BlockRow.
Abbreviation BlockRow := BlockRow.t.

(** A row of [key]: (p, q, key). *)
Module KeyRow.
Record t := mk { p : Z; q : Z; key : Z }.
Definition pq (r : t) : Z * Z := (p r, q r).
End KeyRow.
Abbreviation KeyRow := KeyRow.t.

(** A row of [sign]: (p, q, x, y, z, face, text). *)
Module SignRow.
Record t := mk { p : Z; q : Z; x : Z; y : Z; z : Z; face : Z; text : string }.
Definition pq (r : t) : Z * Z := (p r, q r).
Definition xyz (r : t) : Z * Z * Z := (x r, y r, z r).
Definition xyzface (r : t) : Z * Z * Z * Z := (x r, y r, z r, face r).
End SignRow.
Abbreviation SignRow := SignRow.t.

(** A row of [state]: (x, y, z, rx, ry, flying). *)
Module StateRow.
Record t := mk { x : float; y : float; z : float; rx : float; ry : float; flying : Z }.
End StateRow.
Abbreviation StateRow := StateRow.t.

(** A row of [auth.identity_token]: (username, token, selected). *)
Module TokenRow.
Record t := mk { username : string; token : string; selected : Z }.
End TokenRow.
Abbreviation TokenRow := TokenRow.t.

#[global] Instance BlockRow_eq_dec : EqDecision BlockRow.
Proof. solve_decision. Defined.
#[global] Instance KeyRow_eq_dec : EqDecision KeyRow.
Proof. solve_decision. Defined.
#[global] Instance SignRow_eq_dec : EqDecision SignRow.
Proof. solve_decision. Defined.
#[global] Instance StateRow_eq_dec : EqDecision StateRow.
Proof. unfold float. solve_decision. Defined.
#[global] Instance TokenRow_eq_dec : EqDecision TokenRow.
Proof. solve_decision. Defined.

(** The connection [db]: the tables, the row count of the last completed
    insert, update or delete ([sqlite3_changes]), and whether the store is
    failing. A failing store (an unopened or closed handle, a disk error)
    answers every step and every execution of a statement with an error code
    and changes nothing. What the library answers to the calls of [db_init]
    (the opening, the schema script, the preparations) is its own affair:
    [init_rc] lists the result codes it will give to the next such calls, in
    the order they are made, and it gives SQLITE_OK where the list has
    ended. *)
Module Sqlite.
Record t := mk {
  identity_token : list TokenRow;
  state : list StateRow;
  block : list BlockRow;
  light : list BlockRow;
  key : list KeyRow;
  sign : list SignRow;
  block_damage : list BlockRow;
  changes : Z;
  failing : bool;
  init_rc : list Z
}.

Definition empty : t := mk [] [] [] [] [] [] [] 0 false [].

Definition set_identity_token (v : list TokenRow) (d : t) : t :=
  mk v (state d) (block d) (light d) (key d) (sign d) (block_damage d)
     (changes d) (failing d) (init_rc d).
Definition set_state (v : list StateRow) (d : t) : t :=
  mk (identity_token d) v (block d) (light d) (key d) (sign d) (block_damage d)
     (changes d) (failing d) (init_rc d).
Definition set_block (v : list BlockRow) (d : t) : t :=
  mk (identity_token d) (state d) v (light d) (key d) (sign d) (block_damage d)
     (changes d) (failing d) (init_rc d).
Definition set_light (v : list BlockRow) (d : t) : t :=
  mk (identity_token d) (state d) (block d) v (key d) (sign d) (block_damage d)
     (changes d) (failing d) (init_rc d).
Definition set_key (v : list KeyRow) (d : t) : t :=
  mk (identity_token d) (state d) (block d) (light d) v (sign d) (block_damage d)
     (changes d) (failing d) (init_rc d).
Definition set_sign (v : list SignRow) (d : t) : t :=
  mk (identity_token d) (state d) (block d) (light d) (key d) v (block_damage d)
     (changes d) (failing d) (init_rc d).
Definition set_block_damage (v : list BlockRow) (d : t) : t :=
  mk (identity_token d) (state d) (block d) (light d) (key d) (sign d) v
     (changes d) (failing d) (init_rc d).
Definition set_changes (v : Z) (d : t) : t :=
  mk (identity_token d) (state d) (block d) (light d) (key d) (sign d)
     (block_damage d) v (failing d) (init_rc d).
Definition set_init_rc (v : list Z) (d : t) : t :=
  mk (identity_token d) (state d) (block d) (light d) (key d) (sign d)
     (block_damage d) (changes d) (failing d) v.
End Sqlite.
Abbreviation sqlite3 := Sqlite.t.

(** Result codes. *)
Definition SQLITE_OK : Z := 0.
Definition SQLITE_ERROR : Z := 1.
Definition SQLITE_CONSTRAINT : Z := 19.
Definition SQLITE_ROW : Z := 100.
Definition SQLITE_DONE : Z := 101.

(** What one [sqlite3_step] of a query reports: a row, the end of the rows, or
    an error. *)
Inductive Step (A : Type) :=
  | StepRow (row : A)
  | StepDone
  | StepError (rc : Z).
Arguments StepRow {A} row.
Arguments StepDone {A}.
Arguments StepError {A} rc.

(** *** The statements, by their SQL text *)

(** A write statement: an error and no change on a failing store, otherwise
    the new tables with the number of rows changed. *)
Definition write_stmt (db : sqlite3) (run : sqlite3 → sqlite3 * Z) : Z * sqlite3 :=
  if Sqlite.failing db then (SQLITE_ERROR, db)
  else let '(db', n) := run db in (SQLITE_DONE, Sqlite.set_changes n db').

(** The first [sqlite3_step] of a query whose result rows are [rows]. *)
Definition first_step {A} (db : sqlite3) (rows : list A) : Step A :=
  if Sqlite.failing db then StepError SQLITE_ERROR
  else match rows with
       | row :: _ => StepRow row
       | [] => StepDone
       end.

(** The rows that a [while (sqlite3_step(stmt) == SQLITE_ROW)] loop visits. *)
Definition stepped_rows {A} (db : sqlite3) (rows : list A) : list A :=
  if Sqlite.failing db then [] else rows.

(** "insert or replace into T (p, q, x, y, z, w) values (?, ?, ?, ?, ?, ?);"
    under the unique index on (p, q, x, y, z): a row with the same five
    coordinates is deleted, the new row is added. *)
Definition replace_block_row (rows : list BlockRow) (row : BlockRow) : list BlockRow :=
  filter (λ r, BlockRow.pqxyz r ≠ BlockRow.pqxyz row) rows ++ [row].

(** "select x, y, z, w from T where p = ? and q = ?;" The statement has no
    [order by]: the order in which the store yields the rows is its own (it
    walks the unique index). They are listed here in the order of the table;
    what is stated of a load is stated up to the order of the rows, or
    between two loads. *)
Definition select_block_rows (rows : list BlockRow) (p q : Z) : list (Z * Z * Z * Z) :=
  BlockRow.xyzw <$> filter (λ r, BlockRow.pq r = (p, q)) rows.

(** [insert_block_query] *)
Definition insert_block_run (p q x y z w : Z) (db : sqlite3) : sqlite3 * Z :=
  (Sqlite.set_block (replace_block_row (Sqlite.block db) (BlockRow.mk p q x y z w)) db, 1).

(** [insert_light_query] *)
Definition insert_light_run (p q x y z w : Z) (db : sqlite3) : sqlite3 * Z :=
  (Sqlite.set_light (replace_block_row (Sqlite.light db) (BlockRow.mk p q x y z w)) db, 1).

(** [insert_block_damage_query] *)
Definition insert_block_damage_run (p q x y z w : Z) (db : sqlite3) : sqlite3 * Z :=
  (Sqlite.set_block_damage
     (replace_block_row (Sqlite.block_damage db) (BlockRow.mk p q x y z w)) db, 1).

(** [trim_block_damage_query]:
    "delete from block_damage where w=0 and p=? and q=?;" *)
Definition trim_block_damage_run (p q : Z) (db : sqlite3) : sqlite3 * Z :=
  let keep := filter (λ r, ¬ (BlockRow.w r = 0 ∧ BlockRow.p r = p ∧ BlockRow.q r = q))
                     (Sqlite.block_damage db) in
  (Sqlite.set_block_damage keep db,
   Z.of_nat (length (Sqlite.block_damage db)) - Z.of_nat (length keep)).

(** [set_key_query]: "insert or replace into key (p, q, key) values (?, ?, ?);"
    under the unique index on (p, q). *)
Definition set_key_run (p q key : Z) (db : sqlite3) : sqlite3 * Z :=
  (Sqlite.set_key
     (filter (λ r, KeyRow.pq r ≠ (p, q)) (Sqlite.key db) ++ [KeyRow.mk p q key]) db, 1).

(** [get_key_query]: "select key from key where p = ? and q = ?;" *)
Definition get_key_rows (p q : Z) (db : sqlite3) : list Z :=
  KeyRow.key <$> filter (λ r, KeyRow.pq r = (p, q)) (Sqlite.key db).

(** [insert_sign_query]: "insert or replace into sign (p, q, x, y, z, face,
    text) values (?, ?, ?, ?, ?, ?, ?);" under the unique index on
    (x, y, z, face). *)
Definition insert_sign_run (p q x y z face : Z) (text : string) (db : sqlite3)
  : sqlite3 * Z :=
  (Sqlite.set_sign
     (filter (λ r, SignRow.xyzface r ≠ (x, y, z, face)) (Sqlite.sign db)
      ++ [SignRow.mk p q x y z face text]) db, 1).

(** [delete_sign_query]:
    "delete from sign where x = ? and y = ? and z = ? and face = ?;" *)
Definition delete_sign_run (x y z face : Z) (db : sqlite3) : sqlite3 * Z :=
  let keep := filter (λ r, SignRow.xyzface r ≠ (x, y, z, face)) (Sqlite.sign db) in
  (Sqlite.set_sign keep db,
   Z.of_nat (length (Sqlite.sign db)) - Z.of_nat (length keep)).

(** [delete_signs_query]: "delete from sign where x = ? and y = ? and z = ?;" *)
Definition delete_signs_run (x y z : Z) (db : sqlite3) : sqlite3 * Z :=
  let keep := filter (λ r, SignRow.xyz r ≠ (x, y, z)) (Sqlite.sign db) in
  (Sqlite.set_sign keep db,
   Z.of_nat (length (Sqlite.sign db)) - Z.of_nat (length keep)).

(** "delete from sign;" *)
Definition delete_all_signs_run (db : sqlite3) : sqlite3 * Z :=
  (Sqlite.set_sign [] db, Z.of_nat (length (Sqlite.sign db))).

(** [load_signs_query]:
    "select x, y, z, face, text from sign where p = ? and q = ?;" *)
Definition load_signs_rows (p q : Z) (db : sqlite3) : list (Z * Z * Z * Z * string) :=
  (λ r, (SignRow.x r, SignRow.y r, SignRow.z r, SignRow.face r, SignRow.text r))
    <$> filter (λ r, SignRow.pq r = (p, q)) (Sqlite.sign db).

(** "delete from state;" *)
Definition delete_state_run (db : sqlite3) : sqlite3 * Z :=
  (Sqlite.set_state [] db, Z.of_nat (length (Sqlite.state db))).

(** "insert into state (x, y, z, rx, ry, flying) values (?, ?, ?, ?, ?, ?);"
    The five float columns are [not null], and a NaN is bound as NULL: such a
    row is refused with a constraint error. The row holds the floats as the
    columns give them back. *)
Definition insert_state_stmt (x y z rx ry : float) (flying : Z) (db : sqlite3)
  : Z * sqlite3 :=
  if Sqlite.failing db then (SQLITE_ERROR, db)
  else if existsb float_is_nan [x; y; z; rx; ry] then (SQLITE_CONSTRAINT, db)
  else (SQLITE_DONE,
        Sqlite.set_changes 1
          (Sqlite.set_state
             (Sqlite.state db ++
              [StateRow.mk (real_column x) (real_column y) (real_column z)
                           (real_column rx) (real_column ry) flying]) db)).

(** "insert or replace into auth.identity_token (username, token, selected)
    values (?, ?, ?);" under the unique index on (username). *)
Definition auth_set_run (username token : string) (selected : Z) (db : sqlite3)
  : sqlite3 * Z :=
  (Sqlite.set_identity_token
     (filter (λ r, TokenRow.username r ≠ username) (Sqlite.identity_token db)
      ++ [TokenRow.mk username token selected]) db, 1).

(** "update auth.identity_token set selected = 1 where username = ?;" *)
Definition auth_select_run (username : string) (db : sqlite3) : sqlite3 * Z :=
  (Sqlite.set_identity_token
     ((λ r, if decide (TokenRow.username r = username)
            then TokenRow.mk (TokenRow.username r) (TokenRow.token r) 1
            else r) <$> Sqlite.identity_token db) db,
   Z.of_nat (length (filter (λ r, TokenRow.username r = username)
                            (Sqlite.identity_token db)))).

(** "update auth.identity_token set selected = 0;" *)
Definition auth_select_none_run (db : sqlite3) : sqlite3 * Z :=
  (Sqlite.set_identity_token
     ((λ r, TokenRow.mk (TokenRow.username r) (TokenRow.token r) 0)
        <$> Sqlite.identity_token db) db,
   Z.of_nat (length (Sqlite.identity_token db))).

(** "select token from auth.identity_token where username = ?;" *)
Definition auth_get_rows (username : string) (db : sqlite3) : list string :=
  TokenRow.token <$> filter (λ r, TokenRow.username r = username)
                            (Sqlite.identity_token db).

(** "select username, token from auth.identity_token where selected = 1;" *)
Definition auth_get_selected_rows (db : sqlite3) : list (string * string) :=
  (λ r, (TokenRow.username r, TokenRow.token r))
    <$> filter (λ r, TokenRow.selected r = 1) (Sqlite.identity_token db).

(** ** The state of the module and its calls

    The file-scope variables of [db.c]: the enable flag, the connection, the
    ring, and the worker thread. Calls made to the synchronisation primitives
    and to the store are logged in order. *)

Inductive Mutex := mtx | load_mtx.

#[global] Instance Mutex_eq_dec : EqDecision Mutex.
Proof. solve_decision. Defined.

(** The prepared statements. *)
Inductive Stmt :=
  | insert_block_stmt
  | insert_light_stmt
  | insert_sign_stmt
  | delete_sign_stmt
  | delete_signs_stmt
  | load_blocks_stmt
  | load_lights_stmt
  | load_signs_stmt
  | get_key_stmt
  | set_key_stmt
  | load_block_damage_stmt
  | insert_block_damage_stmt
  | trim_block_damage_stmt.

#[global] Instance Stmt_eq_dec : EqDecision Stmt.
Proof. solve_decision. Defined.

(** A bound parameter. *)
Inductive Value :=
  | Int (n : Z)
  | Double (f : float)
  | Text (s : string).

(** One logged call: a lock, unlock, signal or wait; the reset and binds of a
    prepared statement; one [sqlite3_step] of it; an [sqlite3_exec] of SQL
    text; the prepare, binds, step and finalize of a statement local to a
    function; or the opening and closing of the connection and of its prepared
    statements. *)
Inductive Event :=
  | EvLock (m : Mutex)
  | EvUnlock (m : Mutex)
  | EvSignal
  | EvWait
  | EvStmt (stmt : Stmt) (args : list Value)
  | EvStep (stmt : Stmt)
  | EvExec (sql : string)
  | EvLocalStmt (sql : string) (args : list Value)
  | EvOpen (path : string)
  | EvPrepare (stmt : Stmt)
  | EvFinalize (stmt : Stmt)
  | EvClose.

Definition is_store_call (e : Event) : bool :=
  match e with
  | EvLock _ | EvUnlock _ | EvSignal | EvWait => false
  | _ => true
  end.

(** Where the worker thread is in [db_worker_run]: not created yet, at the
    [ring_get] loop, at the [switch] with a popped entry, or returned. *)
Inductive Worker :=
  | NOT_STARTED
  | WAITING
  | DRAINING (e : RingEntry)
  | STOPPED.

Module World.
Record t := mk {
  db_enabled : bool;
  db : sqlite3;
  ring : Ring;
  thrd : Worker;
  log : list Event
}.
End World.
Abbreviation World := World.t.

(** Calls thread the state. *)
Definition M (A : Type) : Type := World → A * World.

Definition ret {A} (a : A) : M A := λ w, (a, w).

Definition bind {A B} (m : M A) (k : A → M B) : M B := λ w,
  let '(a, w') := m w in k a w'.

Declare Scope M_scope.
Delimit Scope M_scope with M.
Bind Scope M_scope with M.
Notation "x ← m ; k" := (bind m (λ x, k))
  (at level 20, m at level 100, k at level 200, only parsing) : M_scope.
Notation "m ;; k" := (bind m (λ _, k))
  (at level 100, k at level 200, only parsing, right associativity) : M_scope.
Local Open Scope M_scope.

Definition emit (e : Event) : M unit := λ w,
  ((), World.mk (World.db_enabled w) (World.db w) (World.ring w) (World.thrd w)
                (World.log w ++ [e])).

Definition on_db {A} (f : sqlite3 → A * sqlite3) : M A := λ w,
  let '(a, db) := f (World.db w) in
  (a, World.mk (World.db_enabled w) db (World.ring w) (World.thrd w) (World.log w)).

Definition read_db {A} (f : sqlite3 → A) : M A := λ w, (f (World.db w), w).

Definition on_ring (f : Ring → Ring) : M unit := λ w,
  ((), World.mk (World.db_enabled w) (World.db w) (f (World.ring w)) (World.thrd w)
                (World.log w)).

Definition read_ring {A} (f : Ring → A) : M A := λ w, (f (World.ring w), w).

Definition set_thrd (t : Worker) : M unit := λ w,
  ((), World.mk (World.db_enabled w) (World.db w) (World.ring w) t (World.log w)).

Definition get_thrd : M Worker := λ w, (World.thrd w, w).

Definition mtx_lock (m : Mutex) : M unit := emit (EvLock m).
Definition mtx_unlock (m : Mutex) : M unit := emit (EvUnlock m).
Definition cnd_signal : M unit := emit EvSignal.
Definition cnd_wait : M unit := emit EvWait.

(** Reset, bind and step a prepared write statement. *)
Definition step_stmt (stmt : Stmt) (args : list Value) (run : sqlite3 → sqlite3 * Z)
  : M Z :=
  emit (EvStmt stmt args);;
  emit (EvStep stmt);;
  on_db (λ db, write_stmt db run).

(** [while (sqlite3_step(stmt) == SQLITE_ROW) { body }] over the rows the
    statement yields: one step per row, and the step that ends the loop. *)
Fixpoint while_step {A Row} (stmt : Stmt) (rows : list Row) (body : A → Row → A)
         (acc : A) : M A :=
  match rows with
  | [] => emit (EvStep stmt);; ret acc
  | row :: rows => emit (EvStep stmt);; while_step stmt rows body (body acc row)
  end.

(** [sqlite3_exec] of a write. *)
Definition sqlite3_exec (sql : string) (run : sqlite3 → sqlite3 * Z) : M Z :=
  emit (EvExec sql);; on_db (λ db, write_stmt db run).

(** [sqlite3_exec] of a transaction boundary ("begin;", "commit;",
    "commit; begin;"): the tables as the connection sees them stay as they
    are. *)
Definition sqlite3_exec_txn (sql : string) : M Z :=
  emit (EvExec sql);;
  read_db (λ db, if Sqlite.failing db then SQLITE_ERROR else SQLITE_OK).

(** ** [db.c] *)

Definition db_enable : M unit := λ w,
  ((), World.mk true (World.db w) (World.ring w) (World.thrd w) (World.log w)).

Definition db_disable : M unit := λ w,
  ((), World.mk false (World.db w) (World.ring w) (World.thrd w) (World.log w)).

Definition get_db_enabled : M bool := λ w, (World.db_enabled w, w).

(** [if (!db_enabled) { return r; }] in front of a body. *)
Definition if_enabled {A} (r : A) (body : M A) : M A :=
  enabled ← get_db_enabled;
  if enabled then body else ret r.

Definition db_commit : M unit :=
  if_enabled () (
    mtx_lock mtx;;
    on_ring ring_put_commit;;
    cnd_signal;;
    mtx_unlock mtx).

Definition _db_commit : M unit :=
  sqlite3_exec_txn "commit; begin;";; ret ().

Definition db_auth_select_none : M unit :=
  if_enabled () (
    sqlite3_exec "update auth.identity_token set selected = 0;" auth_select_none_run;;
    ret ()).

Definition db_auth_select (username : string) : M Z :=
  if_enabled 0 (
    db_auth_select_none;;
    emit (EvLocalStmt "update auth.identity_token set selected = 1 where username = ?;"
                      [Text username]);;
    on_db (λ db, write_stmt db (auth_select_run username));;
    read_db Sqlite.changes).

Definition db_auth_set (username identity_token : string) : M unit :=
  if_enabled () (
    emit (EvLocalStmt
            "insert or replace into auth.identity_token (username, token, selected) values (?, ?, ?);"
            [Text username; Text identity_token; Int 1]);;
    on_db (λ db, write_stmt db (auth_set_run username identity_token 1));;
    db_auth_select username;;
    ret ()).

(** [strncpy(dst, src, n - 1); dst[n - 1] = 0] on a buffer [dst] of [n]
    bytes: the string left in [dst]. With [n] not positive the count [n - 1]
    is negative and, taken as a [size_t], larger than any buffer: the copy
    runs past [dst], and there is no result. *)
Definition strncpy_terminated (src : string) (n : Z) : option string :=
  if decide (1 ≤ n) then Some (String.substring 0 (Z.to_nat (n - 1)) src) else None.

(** The token is written through [identity_token]; here it is returned next to
    the result, [None] next to 0 when the buffer is left alone. [None] next
    to 1 stands for the copy that runs past the buffer: the behaviour of the
    C function is then undefined. *)
Definition db_auth_get (username : string) (identity_token_length : Z)
  : M (Z * option string) :=
  if_enabled (0, None) (
    emit (EvLocalStmt "select token from auth.identity_token where username = ?;"
                      [Text username]);;
    step ← read_db (λ db, first_step db (auth_get_rows username db));
    match step with
    | StepRow a => ret (1, strncpy_terminated a identity_token_length)
    | _ => ret (0, None)
    end).

Definition db_auth_get_selected (username_length identity_token_length : Z)
  : M (Z * option (string * string)) :=
  if_enabled (0, None) (
    emit (EvLocalStmt
            "select username, token from auth.identity_token where selected = 1;" []);;
    step ← read_db (λ db, first_step db (auth_get_selected_rows db));
    match step with
    | StepRow (a, b) =>
        ret (1, match strncpy_terminated a username_length,
                      strncpy_terminated b identity_token_length with
                | Some username, Some identity_token => Some (username, identity_token)
                | _, _ => None
                end)
    | _ => ret (0, None)
    end).

Definition db_save_state (x y z rx ry : float) (flying : Z) : M unit :=
  if_enabled () (
    sqlite3_exec "delete from state;" delete_state_run;;
    emit (EvLocalStmt
            "insert into state (x, y, z, rx, ry, flying) values (?, ?, ?, ?, ?, ?);"
            [Double x; Double y; Double z; Double rx; Double ry; Int flying]);;
    on_db (insert_state_stmt x y z rx ry flying);;
    ret ()).

(** The six values are written through the pointers; here they are returned
    next to the result, [None] when the pointers are left alone. *)
Definition db_load_state : M (Z * option StateRow) :=
  if_enabled (0, None) (
    emit (EvLocalStmt "select x, y, z, rx, ry, flying from state;" []);;
    step ← read_db (λ db, first_step db (Sqlite.state db));
    match step with
    | StepRow row => ret (1, Some row)
    | _ => ret (0, None)
    end).

Definition db_insert_block (p q x y z w : Z) : M unit :=
  if_enabled () (
    mtx_lock mtx;;
    on_ring (λ ring, ring_put_block ring p q x y z w);;
    cnd_signal;;
    mtx_unlock mtx).

Definition _db_insert_block (p q x y z w : Z) : M unit :=
  step_stmt insert_block_stmt [Int p; Int q; Int x; Int y; Int z; Int w]
            (insert_block_run p q x y z w);;
  ret ().

Definition db_insert_block_damage (p q x y z damage : Z) : M unit :=
  if_enabled () (
    mtx_lock mtx;;
    on_ring (λ ring, ring_put_block_damage ring p q x y z damage);;
    cnd_signal;;
    mtx_unlock mtx).

Definition _db_insert_block_damage (p q x y z w : Z) : M unit :=
  step_stmt insert_block_damage_stmt [Int p; Int q; Int x; Int y; Int z; Int w]
            (insert_block_damage_run p q x y z w);;
  ret ().

Definition db_trim_block_damage (p q : Z) : M unit :=
  if_enabled () (
    mtx_lock mtx;;
    on_ring (λ ring, ring_put_block_damage_trim ring p q);;
    cnd_signal;;
    mtx_unlock mtx).

Definition _db_block_damage_trim (p q : Z) : M unit :=
  step_stmt trim_block_damage_stmt [Int p; Int q] (trim_block_damage_run p q);;
  ret ().

Definition db_insert_light (p q x y z w : Z) : M unit :=
  if_enabled () (
    mtx_lock mtx;;
    on_ring (λ ring, ring_put_light ring p q x y z w);;
    cnd_signal;;
    mtx_unlock mtx).

Definition _db_insert_light (p q x y z w : Z) : M unit :=
  step_stmt insert_light_stmt [Int p; Int q; Int x; Int y; Int z; Int w]
            (insert_light_run p q x y z w);;
  ret ().

Definition db_insert_sign (p q x y z face : Z) (text : string) : M unit :=
  if_enabled () (
    step_stmt insert_sign_stmt
              [Int p; Int q; Int x; Int y; Int z; Int face; Text text]
              (insert_sign_run p q x y z face text);;
    ret ()).

Definition db_delete_sign (x y z face : Z) : M unit :=
  if_enabled () (
    step_stmt delete_sign_stmt [Int x; Int y; Int z; Int face]
              (delete_sign_run x y z face);;
    ret ()).

Definition db_delete_signs (x y z : Z) : M unit :=
  if_enabled () (
    step_stmt delete_signs_stmt [Int x; Int y; Int z] (delete_signs_run x y z);;
    ret ()).

Definition db_delete_all_signs : M unit :=
  if_enabled () (
    sqlite3_exec "delete from sign;" delete_all_signs_run;;
    ret ()).

(** The loads write into a [Map] or a [SignList] of the caller. [map_set] and
    [sign_list_add] belong to the map and sign modules, whose sources are not
    at hand: they are parameters here. The container a load has filled is
    returned. *)
Section loads.

Context {Map SignList : Type}.
Variable map_set : Map → Z → Z → Z → Z → Map.
Variable sign_list_add : SignList → Z → Z → Z → Z → string → SignList.

Definition db_load_blocks (map : Map) (p q : Z) : M Map :=
  if_enabled map (
    mtx_lock load_mtx;;
    emit (EvStmt load_blocks_stmt [Int p; Int q]);;
    rows ← read_db (λ db, stepped_rows db (select_block_rows (Sqlite.block db) p q));
    map ← while_step load_blocks_stmt rows
            (λ map '(x, y, z, w), map_set map x y z w) map;
    mtx_unlock load_mtx;;
    ret map).

(** One turn of the loop of [db_load_damage]. *)
Definition load_damage_row (map : Map) (row : Z * Z * Z * Z) : Map :=
  let '(x, y, z, d) := row in
  if d =? 0 then map  (* if (!d) { continue; } *)
  else map_set map x y z d.

Definition db_load_damage (map : Map) (p q : Z) : M Map :=
  if_enabled map (
    mtx_lock load_mtx;;
    emit (EvStmt load_block_damage_stmt [Int p; Int q]);;
    rows ← read_db (λ db, stepped_rows db
                             (select_block_rows (Sqlite.block_damage db) p q));
    map ← while_step load_block_damage_stmt rows load_damage_row map;
    mtx_unlock load_mtx;;
    ret map).

Definition db_load_lights (map : Map) (p q : Z) : M Map :=
  if_enabled map (
    mtx_lock load_mtx;;
    emit (EvStmt load_lights_stmt [Int p; Int q]);;
    rows ← read_db (λ db, stepped_rows db (select_block_rows (Sqlite.light db) p q));
    map ← while_step load_lights_stmt rows
            (λ map '(x, y, z, w), map_set map x y z w) map;
    mtx_unlock load_mtx;;
    ret map).

Definition db_load_signs (list : SignList) (p q : Z) : M SignList :=
  if_enabled list (
    emit (EvStmt load_signs_stmt [Int p; Int q]);;
    rows ← read_db (λ db, stepped_rows db (load_signs_rows p q db));
    while_step load_signs_stmt rows
      (λ list '(x, y, z, face, text), sign_list_add list x y z face text) list).

End loads.

Definition db_get_key (p q : Z) : M Z :=
  if_enabled 0 (
    emit (EvStmt get_key_stmt [Int p; Int q]);;
    emit (EvStep get_key_stmt);;
    step ← read_db (λ db, first_step db (get_key_rows p q db));
    match step with
    | StepRow key => ret key
    | _ => ret 0
    end).

Definition db_set_key (p q key : Z) : M unit :=
  if_enabled () (
    mtx_lock mtx;;
    on_ring (λ ring, ring_put_key ring p q key);;
    cnd_signal;;
    mtx_unlock mtx).

Definition _db_set_key (p q key : Z) : M unit :=
  step_stmt set_key_stmt [Int p; Int q; Int key] (set_key_run p q key);;
  ret ().

(** [thrd_create] puts the worker at the top of [db_worker_run]. *)
Definition db_worker_start : M unit :=
  if_enabled () (
    on_ring (λ _, ring_alloc 1024);;
    set_thrd WAITING).

(** The [switch] of [db_worker_run]; the result is the new value of
    [running]. *)
Definition db_worker_switch (e : RingEntry) : M bool :=
  match RingEntry.type e with
  | BLOCK =>
      _db_insert_block (RingEntry.p e) (RingEntry.q e) (RingEntry.x e)
                       (RingEntry.y e) (RingEntry.z e) (RingEntry.w e);;
      _db_insert_block_damage (RingEntry.p e) (RingEntry.q e) (RingEntry.x e)
                              (RingEntry.y e) (RingEntry.z e) 0;;
      ret true
  | LIGHT =>
      _db_insert_light (RingEntry.p e) (RingEntry.q e) (RingEntry.x e)
                       (RingEntry.y e) (RingEntry.z e) (RingEntry.w e);;
      ret true
  | KEY =>
      _db_set_key (RingEntry.p e) (RingEntry.q e) (RingEntry.key e);;
      ret true
  | COMMIT =>
      _db_commit;;
      ret true
  | EXIT =>
      ret false
  | BLOCK_DAMAGE =>
      _db_insert_block_damage (RingEntry.p e) (RingEntry.q e) (RingEntry.x e)
                              (RingEntry.y e) (RingEntry.z e) (RingEntry.w e);;
      ret true
  | BLOCK_DAMAGE_TRIM =>
      _db_block_damage_trim (RingEntry.p e) (RingEntry.q e);;
      ret true
  end.

(** One quantum of the worker thread. At the top of the loop it takes the
    mutex and tries [ring_get]: on an empty ring it waits on the condition
    (which gives the mutex back) and will retry; with an entry it releases the
    mutex and moves to the [switch]. At the [switch] it processes the entry
    and goes back to the top, or returns after EXIT. The result is the entry
    whose processing this quantum completed. *)
Definition db_worker_run_step : M (option RingEntry) :=
  t ← get_thrd;
  match t with
  | WAITING =>
      mtx_lock mtx;;
      got ← read_ring ring_get;
      match got with
      | None => cnd_wait;; ret None
      | Some (e, ring) =>
          on_ring (λ _, ring);;
          mtx_unlock mtx;;
          set_thrd (DRAINING e);;
          ret None
      end
  | DRAINING e =>
      running ← db_worker_switch e;
      set_thrd (if running then WAITING else STOPPED);;
      ret (Some e)
  | NOT_STARTED | STOPPED => ret None
  end.

(** [db_worker_run] on its own, quantum by quantum, until it returns; [fuel]
    bounds the number of quanta. The C function returns 0; the result here
    lists the entries it processed. *)
Fixpoint db_worker_run (fuel : nat) : M (list RingEntry) :=
  match fuel with
  | O => ret []
  | S fuel =>
      t ← get_thrd;
      match t with
      | STOPPED => ret []
      | _ =>
          e ← db_worker_run_step;
          rest ← db_worker_run fuel;
          ret (option_list e ++ rest)
      end
  end.

(** [thrd_join]: the caller sleeps while the worker runs to its return. With
    an EXIT in the queue, twice the number of entries in front of it, plus
    two, is fuel enough. *)
Definition thrd_join (fuel : nat) : M (list RingEntry) := db_worker_run fuel.

(** The first half of [db_worker_stop], up to [mtx_unlock]. *)
Definition db_worker_stop_enqueue : M unit :=
  mtx_lock mtx;;
  on_ring ring_put_exit;;
  cnd_signal;;
  mtx_unlock mtx.

(** [fuel] is the fuel of the join. *)
Definition db_worker_stop (fuel : nat) : M unit :=
  if_enabled () (
    db_worker_stop_enqueue;;
    thrd_join fuel;;
    on_ring ring_free).

(** [sqlite3_open], [sqlite3_prepare_v2] and the execution of the schema
    script ([create_query], logged by its name) return what the library
    answers, the next code of [Sqlite.init_rc]: any of them can be refused,
    with any code. The tables of [create_query] are there from the start (an
    absent table is an empty one). *)
Definition store_rc : M Z :=
  on_db (λ db, match Sqlite.init_rc db with
               | [] => (SQLITE_OK, db)
               | rc :: rest => (rc, Sqlite.set_init_rc rest db)
               end).

Definition sqlite3_open (path : string) : M Z := emit (EvOpen path);; store_rc.
Definition sqlite3_exec_script (sql : string) : M Z := emit (EvExec sql);; store_rc.
Definition sqlite3_prepare_v2 (stmt : Stmt) : M Z := emit (EvPrepare stmt);; store_rc.
Definition sqlite3_finalize (stmt : Stmt) : M unit := emit (EvFinalize stmt).
Definition sqlite3_close : M unit := emit EvClose.

(** [bail] prints the error and hands the code back. *)
Definition bail (rc : Z) : M Z := ret rc.

(** [rc = call; if (rc) { return bail(rc); }] in front of the rest. *)
Definition or_bail (call : M Z) (rest : M Z) : M Z :=
  rc ← call;
  if rc =? 0 then rest else bail rc.

Definition db_init (path : string) : M Z :=
  if_enabled 0 (
    or_bail (sqlite3_open path) (
    or_bail (sqlite3_exec_script "create_query") (
    or_bail (sqlite3_prepare_v2 insert_block_stmt) (
    or_bail (sqlite3_prepare_v2 insert_light_stmt) (
    or_bail (sqlite3_prepare_v2 insert_sign_stmt) (
    or_bail (sqlite3_prepare_v2 delete_sign_stmt) (
    or_bail (sqlite3_prepare_v2 delete_signs_stmt) (
    or_bail (sqlite3_prepare_v2 load_blocks_stmt) (
    or_bail (sqlite3_prepare_v2 load_lights_stmt) (
    or_bail (sqlite3_prepare_v2 load_signs_stmt) (
    or_bail (sqlite3_prepare_v2 get_key_stmt) (
    or_bail (sqlite3_prepare_v2 set_key_stmt) (
    or_bail (sqlite3_prepare_v2 load_block_damage_stmt) (
    or_bail (sqlite3_prepare_v2 insert_block_damage_stmt) (
    or_bail (sqlite3_prepare_v2 trim_block_damage_stmt) (
      sqlite3_exec_txn "begin;";;
      db_worker_start;;
      ret 0)))))))))))))))).

(** [fuel] is the fuel of the join in [db_worker_stop]. *)
Definition db_close (fuel : nat) : M unit :=
  if_enabled () (
    db_worker_stop fuel;;
    sqlite3_exec_txn "commit;";;
    sqlite3_finalize insert_block_stmt;;
    sqlite3_finalize insert_light_stmt;;
    sqlite3_finalize insert_sign_stmt;;
    sqlite3_finalize delete_sign_stmt;;
    sqlite3_finalize delete_signs_stmt;;
    sqlite3_finalize load_blocks_stmt;;
    sqlite3_finalize load_lights_stmt;;
    sqlite3_finalize load_signs_stmt;;
    sqlite3_finalize get_key_stmt;;
    sqlite3_finalize set_key_stmt;;
    sqlite3_finalize insert_block_damage_stmt;;
    sqlite3_finalize load_block_damage_stmt;;
    sqlite3_finalize trim_block_damage_stmt;;
    sqlite3_close).

(** ** Producers and the worker, interleaved

    The enqueue entry points hold [mtx] around their push and the worker holds
    it around its pop, so a run of the system is a sequence of these critical
    sections and of the worker's [switch] turns, in some order. *)

(** A call of an enqueue entry point. *)
Inductive Call :=
  | InsertBlock (p q x y z w : Z)
  | InsertLight (p q x y z w : Z)
  | InsertBlockDamage (p q x y z damage : Z)
  | TrimBlockDamage (p q : Z)
  | SetKey (p q key : Z)
  | Commit
  | WorkerStop.

Definition call_run (c : Call) : M unit :=
  match c with
  | InsertBlock p q x y z w => db_insert_block p q x y z w
  | InsertLight p q x y z w => db_insert_light p q x y z w
  | InsertBlockDamage p q x y z damage => db_insert_block_damage p q x y z damage
  | TrimBlockDamage p q => db_trim_block_damage p q
  | SetKey p q key => db_set_key p q key
  | Commit => db_commit
  | WorkerStop => if_enabled () db_worker_stop_enqueue
  end.

(** The Command a call pushes. *)
Definition call_entry (c : Call) : RingEntry :=
  match c with
  | InsertBlock p q x y z w => RingEntry.mk BLOCK p q x y z w 0
  | InsertLight p q x y z w => RingEntry.mk LIGHT p q x y z w 0
  | InsertBlockDamage p q x y z damage => RingEntry.mk BLOCK_DAMAGE p q x y z damage 0
  | TrimBlockDamage p q => RingEntry.mk BLOCK_DAMAGE_TRIM p q 0 0 0 0 0
  | SetKey p q key => RingEntry.mk KEY p q 0 0 0 0 key
  | Commit => RingEntry.mk COMMIT 0 0 0 0 0 0 0
  | WorkerStop => RingEntry.mk EXIT 0 0 0 0 0 0 0
  end.

(** One step of a run: a producer completes a call, or the worker gets a
    quantum. *)
Inductive Action :=
  | Produce (c : Call)
  | Work.

(** Runs a schedule; the result lists the entries the worker processed, in
    the order it processed them. *)
Fixpoint run (sched : list Action) : M (list RingEntry) :=
  match sched with
  | [] => ret []
  | Produce c :: sched => call_run c;; run sched
  | Work :: sched =>
      e ← db_worker_run_step;
      rest ← run sched;
      ret (option_list e ++ rest)
  end.

(** The calls of a schedule, in the order they complete. *)
Definition calls (sched : list Action) : list Call :=
  omap (λ a, match a with Produce c => Some c | Work => None end) sched.

(** The entry the worker has popped and not processed yet. *)
Definition held (t : Worker) : list RingEntry :=
  match t with
  | DRAINING e => [e]
  | _ => []
  end.

(** What [db_worker_switch] does to the connection. *)
Definition switch_db (e : RingEntry) (db : sqlite3) : sqlite3 :=
  match RingEntry.type e with
  | BLOCK =>
      (write_stmt
         (write_stmt db (insert_block_run (RingEntry.p e) (RingEntry.q e) (RingEntry.x e)
                           (RingEntry.y e) (RingEntry.z e) (RingEntry.w e))).2
         (insert_block_damage_run (RingEntry.p e) (RingEntry.q e) (RingEntry.x e)
            (RingEntry.y e) (RingEntry.z e) 0)).2
  | LIGHT =>
      (write_stmt db (insert_light_run (RingEntry.p e) (RingEntry.q e) (RingEntry.x e)
                        (RingEntry.y e) (RingEntry.z e) (RingEntry.w e))).2
  | KEY =>
      (write_stmt db (set_key_run (RingEntry.p e) (RingEntry.q e) (RingEntry.key e))).2
  | COMMIT | EXIT => db
  | BLOCK_DAMAGE =>
      (write_stmt db (insert_block_damage_run (RingEntry.p e) (RingEntry.q e)
                        (RingEntry.x e) (RingEntry.y e) (RingEntry.z e)
                        (RingEntry.w e))).2
  | BLOCK_DAMAGE_TRIM =>
      (write_stmt db (trim_block_damage_run (RingEntry.p e) (RingEntry.q e))).2
  end.

(** The store calls [db_worker_switch] makes. *)
Definition switch_calls (e : RingEntry) : list Event :=
  match RingEntry.type e with
  | BLOCK =>
      [EvStmt insert_block_stmt
              [Int (RingEntry.p e); Int (RingEntry.q e); Int (RingEntry.x e);
               Int (RingEntry.y e); Int (RingEntry.z e); Int (RingEntry.w e)];
       EvStep insert_block_stmt;
       EvStmt insert_block_damage_stmt
              [Int (RingEntry.p e); Int (RingEntry.q e); Int (RingEntry.x e);
               Int (RingEntry.y e); Int (RingEntry.z e); Int 0];
       EvStep insert_block_damage_stmt]
  | LIGHT =>
      [EvStmt insert_light_stmt
              [Int (RingEntry.p e); Int (RingEntry.q e); Int (RingEntry.x e);
               Int (RingEntry.y e); Int (RingEntry.z e); Int (RingEntry.w e)];
       EvStep insert_light_stmt]
  | KEY =>
      [EvStmt set_key_stmt
              [Int (RingEntry.p e); Int (RingEntry.q e); Int (RingEntry.key e)];
       EvStep set_key_stmt]
  | COMMIT => [EvExec "commit; begin;"]
  | EXIT => []
  | BLOCK_DAMAGE =>
      [EvStmt insert_block_damage_stmt
              [Int (RingEntry.p e); Int (RingEntry.q e); Int (RingEntry.x e);
               Int (RingEntry.y e); Int (RingEntry.z e); Int (RingEntry.w e)];
       EvStep insert_block_damage_stmt]
  | BLOCK_DAMAGE_TRIM =>
      [EvStmt trim_block_damage_stmt [Int (RingEntry.p e); Int (RingEntry.q e)];
       EvStep trim_block_damage_stmt]
  end.

(** The events a call adds to the log of [w]. *)
Definition emitted {A} (m : M A) (w : World) : list Event :=
  drop (length (World.log w)) (World.log (m w).2).








(** The state after [db_enable] and [db_worker_start] on a working store with
    tables [db]. *)
Definition started (db : sqlite3) : World :=
  World.mk true db (ring_alloc 1024) WAITING [].

(** The entries still to be processed: the one the worker holds, then the
    pending ones. *)
Definition queue (w : World) : list RingEntry :=
  held (World.thrd w) ++ ring_pending (World.ring w).

(** The store calls logged so far. *)
Definition store_calls (w : World) : list Event :=
  List.filter is_store_call (World.log w).

(** The worker thread exists and has not returned. *)
Definition alive (t : Worker) : bool :=
  match t with
  | WAITING | DRAINING _ => true
  | NOT_STARTED | STOPPED => false
  end.

(** A system with a ring of two slots, where the second push already grows
    the ring, and a schedule on it. *)
Definition small_world (db : sqlite3) : World :=
  World.mk true db (ring_alloc 2) WAITING [].

Definition scenario : list Action :=
  [Produce (InsertBlock 0 0 1 2 3 55);
   Produce (InsertLight 0 0 1 2 3 9);
   Work;
   Produce (InsertBlockDamage 0 0 4 5 6 7);
   Produce (TrimBlockDamage 0 0);
   Produce (SetKey 0 0 99);
   Work;
   Produce Commit;
   Work;
   Work].

(** A worker at its [switch] with entry [e], and a store with some damage
    rows, for examples. *)
Definition draining (e : RingEntry) (db : sqlite3) : World :=
  World.mk true db (ring_alloc 2) (DRAINING e) [].

Definition block_entry : RingEntry := RingEntry.mk BLOCK 0 0 1 2 3 55 0.

Definition trim_entry : RingEntry := RingEntry.mk BLOCK_DAMAGE_TRIM 0 0 0 0 0 0 0.

Definition damaged_db : sqlite3 :=
  Sqlite.set_block_damage
    [BlockRow.mk 0 0 1 2 3 0; BlockRow.mk 0 0 4 5 6 7;
     BlockRow.mk 0 1 1 2 3 0; BlockRow.mk 0 0 7 8 9 0]
    Sqlite.empty.

(** A system with persistence disabled, and one with it enabled on a store
    that holds damage rows, a key and a sign. *)
Definition disabled_world : World :=
  World.mk false damaged_db (ring_alloc 2) NOT_STARTED [].

Definition stocked_db : sqlite3 :=
  Sqlite.set_key [KeyRow.mk 0 0 7]
    (Sqlite.set_sign [SignRow.mk 0 0 1 2 3 4 "hello"] damaged_db).

(** A map that only records the calls of [map_set], latest first. *)
Definition call_log : Type := list (Z * Z * Z * Z).

Definition call_log_set (log : call_log) (x y z w : Z) : call_log :=
  (x, y, z, w) :: log.

(** A full ring: two slots, one entry pending. *)
Definition full_ring : Ring :=
  ring_put (ring_alloc 2) (RingEntry.mk KEY 1 2 0 0 0 0 3).

(** ** The unique indexes

    [create_query] puts a unique index on (p, q, x, y, z) of [block], [light]
    and [block_damage], on (p, q) of [key], on (x, y, z, face) of [sign] and on
    (username) of [auth.identity_token]: no two rows of the table agree on
    these columns. *)
Definition unique_on {A K} (key : A → K) (rows : list A) : Prop :=
  NoDup (key <$> rows).

Definition indexes_unique (db : sqlite3) : Prop :=
  unique_on BlockRow.pqxyz (Sqlite.block db) ∧
  unique_on BlockRow.pqxyz (Sqlite.light db) ∧
  unique_on BlockRow.pqxyz (Sqlite.block_damage db) ∧
  unique_on KeyRow.pq (Sqlite.key db) ∧
  unique_on SignRow.xyzface (Sqlite.sign db) ∧
  unique_on TokenRow.username (Sqlite.identity_token db).

(** Whether [m] is held after a trace, and whether no store call of the trace
    happens while it is held; [locked] tells whether it is held at the
    start. Waiting on the condition gives [mtx] back. *)
Fixpoint mutex_after (m : Mutex) (locked : bool) (trace : list Event) : bool :=
  match trace with
  | [] => locked
  | EvLock m' :: trace => mutex_after m (if decide (m' = m) then true else locked) trace
  | EvUnlock m' :: trace => mutex_after m (if decide (m' = m) then false else locked) trace
  | EvWait :: trace => mutex_after m (if decide (m = mtx) then false else locked) trace
  | _ :: trace => mutex_after m locked trace
  end.

Fixpoint outside_mutex (m : Mutex) (locked : bool) (trace : list Event) : bool :=
  match trace with
  | [] => true
  | EvLock m' :: trace => outside_mutex m (if decide (m' = m) then true else locked) trace
  | EvUnlock m' :: trace => outside_mutex m (if decide (m' = m) then false else locked) trace
  | EvWait :: trace => outside_mutex m (if decide (m = mtx) then false else locked) trace
  | e :: trace =>
      (if is_store_call e then negb locked else true) && outside_mutex m locked trace
  end.

(** A store with two credentials, the second one selected. *)
Definition token_db : sqlite3 :=
  Sqlite.set_identity_token
    [TokenRow.mk "ann" "t-ann" 0; TokenRow.mk "bob" "t-bob" 1] stocked_db.

(** The stocked store, not answering. *)
Definition broken_db : sqlite3 :=
  Sqlite.mk (Sqlite.identity_token stocked_db) (Sqlite.state stocked_db)
            (Sqlite.block stocked_db) (Sqlite.light stocked_db)
            (Sqlite.key stocked_db) (Sqlite.sign stocked_db)
            (Sqlite.block_damage stocked_db) 0 true [].

(** The entries of a queue that a worker gets to: those up to and including
    the first EXIT, after which it returns. *)
Fixpoint up_to_exit (entries : list RingEntry) : list RingEntry :=
  match entries with
  | [] => []
  | e :: entries =>
      e :: (if bool_decide (RingEntry.type e ≠ EXIT) then up_to_exit entries else [])
  end.

(** The calls [db_init] makes before it begins the transaction and starts
    the worker, in order. *)
Definition init_calls (path : string) : list Event :=
  [EvOpen path; EvExec "create_query";
   EvPrepare insert_block_stmt; EvPrepare insert_light_stmt;
   EvPrepare insert_sign_stmt; EvPrepare delete_sign_stmt;
   EvPrepare delete_signs_stmt; EvPrepare load_blocks_stmt;
   EvPrepare load_lights_stmt; EvPrepare load_signs_stmt;
   EvPrepare get_key_stmt; EvPrepare set_key_stmt;
   EvPrepare load_block_damage_stmt; EvPrepare insert_block_damage_stmt;
   EvPrepare trim_block_damage_stmt].

(** A store whose library refuses the second preparation of [db_init], with
    SQLITE_CANTOPEN. *)
Definition refusing_db : sqlite3 :=
  Sqlite.set_init_rc [0; 0; 0; 14] stocked_db.

(** A system with two writes queued that the worker has not seen yet. *)
Definition backlog : World :=
  (run [Produce (InsertBlock 0 0 1 2 3 55); Produce (SetKey 0 0 99)]
       (small_world stocked_db)).2.

(** ** Facts about the ring *)

Lemma mod_wrap (a c : Z) :
  0 < c → - c ≤ a < 2 * c →
  (a < 0 ∧ a mod c = a + c) ∨
  (0 ≤ a < c ∧ a mod c = a) ∨
  (c ≤ a ∧ a mod c = a - c).
Proof.
  intros Hc Ha.
  destruct (Z_lt_le_dec a 0); [|destruct (Z_lt_le_dec a c)].
  - left. split; [done|]. symmetry. apply (Z.mod_unique_pos a c (-1)); lia.
  - right. left. split; [lia|]. apply Z.mod_small; lia.
  - right. right. split; [done|]. symmetry. apply (Z.mod_unique_pos a c 1); lia.
Qed.

Lemma ring_size_range (ring : Ring) :
  ring_wf ring → 0 ≤ ring_size ring < Ring.capacity ring.
Proof.
  intros [Hc _ _ _]. unfold ring_size. apply Z.mod_pos_bound. done.
Qed.

Lemma ring_pending_length (ring : Ring) :
  length (ring_pending ring) = Z.to_nat (ring_size ring).
Proof. unfold ring_pending. by rewrite length_fmap, length_seq. Qed.

Lemma ring_alloc_wf (capacity : Z) :
  0 < capacity → ring_wf (ring_alloc capacity).
Proof.
  intros Hc. split; simpl; try lia. by rewrite length_replicate.
Qed.

Lemma ring_alloc_pending (capacity : Z) :
  ring_pending (ring_alloc capacity) = [].
Proof.
  unfold ring_pending, ring_size. simpl Ring.start. simpl Ring.end_.
  by rewrite Z.sub_diag, Zmod_0_l.
Qed.

Lemma fmap_lookup_seq {A} (d : A) (l : list A) :
  (λ i : nat, default d (l !! i)) <$> seq 0 (length l) = l.
Proof.
  induction l as [|a l IH] using rev_ind; [done|].
  rewrite length_app, Nat.add_1_r, seq_S, fmap_app. simpl. f_equal.
  - rewrite <- IH at 2. apply list_fmap_ext. intros i j Hj.
    apply lookup_seq in Hj as [-> Hlt]. by rewrite lookup_app_l.
  - by rewrite list_lookup_middle.
Qed.

(** Popping: the oldest pending entry comes out and the rest stays. *)
Lemma ring_get_pending (ring : Ring) :
  ring_wf ring →
  match ring_get ring with
  | None => ring_pending ring = []
  | Some (entry, ring') =>
      ring_pending ring = entry :: ring_pending ring' ∧ ring_wf ring'
  end.
Proof.
  intros Hwf. pose proof (ring_size_range ring Hwf) as Hsz.
  destruct Hwf as [Hc Hs He Hd].
  unfold ring_get, ring_empty.
  destruct (Z.eqb_spec (Ring.start ring) (Ring.end_ ring)) as [Heq|Hne].
  - unfold ring_pending, ring_size. by rewrite Heq, Z.sub_diag, Zmod_0_l.
  - assert (Hstart' : 0 ≤ (Ring.start ring + 1) mod Ring.capacity ring
                      < Ring.capacity ring) by (apply Z.mod_pos_bound; lia).
    split; [|split; simpl; done].
    unfold ring_pending, ring_size, ring_slot in *. simpl.
    assert (Hn : Z.to_nat ((Ring.end_ ring - Ring.start ring) mod Ring.capacity ring)
                 = S (Z.to_nat ((Ring.end_ ring - (Ring.start ring + 1) mod Ring.capacity ring)
                                  mod Ring.capacity ring))).
    { pose proof (mod_wrap (Ring.start ring + 1) _ Hc ltac:(lia)).
      pose proof (mod_wrap (Ring.end_ ring - Ring.start ring) _ Hc ltac:(lia)).
      pose proof (mod_wrap (Ring.end_ ring
                            - (Ring.start ring + 1) mod Ring.capacity ring)
                           _ Hc ltac:(lia)).
      lia. }
    rewrite Hn. simpl. f_equal.
    + by rewrite Z.add_0_r, Z.mod_small by lia.
    + rewrite <- fmap_S_seq, <- list_fmap_compose.
      apply list_fmap_ext. intros i j _. simpl. do 3 f_equal.
      rewrite Zplus_mod_idemp_l. f_equal. lia.
Qed.

(** Growth: capacity doubles, the pending entries move to the front in
    order, and the grown ring has room. *)
Lemma ring_grow_pending (ring : Ring) :
  ring_wf ring →
  ring_wf (ring_grow ring) ∧
  ring_pending (ring_grow ring) = ring_pending ring ∧
  ring_size (ring_grow ring) = ring_size ring ∧
  ring_full (ring_grow ring) = false.
Proof.
  intros Hwf. pose proof (ring_size_range ring Hwf) as Hsz.
  pose proof (ring_pending_length ring) as Hlen.
  destruct Hwf as [Hc Hs He Hd].
  assert (Hsize : ring_size (ring_grow ring) = ring_size ring).
  { unfold ring_size at 1. simpl. rewrite Z.sub_0_r. apply Z.mod_small. lia. }
  split; [|split; [|split]]; [| |done|].
  - split; simpl; try lia. rewrite length_app, length_replicate. lia.
  - unfold ring_pending at 1. rewrite Hsize, <- Hlen.
    etrans; [|apply (fmap_lookup_seq zero_entry)].
    apply list_fmap_ext. intros i j Hj. apply lookup_seq in Hj as [-> Hlt].
    unfold ring_slot, ring_grow. simpl. rewrite Z.add_0_l, Z.mod_small, Nat2Z.id by lia.
    by rewrite lookup_app_l.
  - unfold ring_full, ring_grow. cbn [Ring.start Ring.end_ Ring.capacity].
    rewrite Z.mod_small by lia. apply Z.eqb_neq. lia.
Qed.

(** Appending behind the last pending entry of a ring that has room. *)
Lemma ring_append_pending (ring : Ring) (entry : RingEntry) :
  ring_wf ring → ring_full ring = false →
  let ring' :=
    Ring.mk (Ring.capacity ring) (Ring.start ring)
            ((Ring.end_ ring + 1) mod Ring.capacity ring)
            (<[Z.to_nat (Ring.end_ ring) := entry]> (Ring.data ring)) in
  ring_wf ring' ∧ ring_pending ring' = ring_pending ring ++ [entry].
Proof.
  intros Hwf Hfull ring'. pose proof (ring_size_range ring Hwf) as Hsz.
  destruct Hwf as [Hc Hs He Hd].
  unfold ring_full in Hfull. apply Z.eqb_neq in Hfull.
  assert (Hend' : 0 ≤ (Ring.end_ ring + 1) mod Ring.capacity ring
                  < Ring.capacity ring) by (apply Z.mod_pos_bound; lia).
  split.
  { split; simpl; try done. by rewrite length_insert. }
  unfold ring_size in Hsz. unfold ring_pending, ring_size, ring_slot, ring'. simpl.
  pose proof (mod_wrap (Ring.end_ ring + 1) _ Hc ltac:(lia)) as Hwrap_end.
  pose proof (mod_wrap (Ring.end_ ring - Ring.start ring) _ Hc ltac:(lia)) as Hwrap_size.
  pose proof (mod_wrap ((Ring.end_ ring + 1) mod Ring.capacity ring - Ring.start ring)
                       _ Hc ltac:(lia)) as Hwrap_size'.
  assert (Hn : Z.to_nat (((Ring.end_ ring + 1) mod Ring.capacity ring - Ring.start ring)
                           mod Ring.capacity ring)
               = S (Z.to_nat ((Ring.end_ ring - Ring.start ring) mod Ring.capacity ring)))
    by lia.
  rewrite Hn, seq_S, fmap_app. simpl. f_equal.
  - apply list_fmap_ext. intros i j Hj. apply lookup_seq in Hj as [-> Hlt].
    simpl. rewrite list_lookup_insert_ne; [done|].
    intros Heq. apply Z2Nat.inj in Heq; [|lia|apply Z.mod_pos_bound; lia].
    pose proof (mod_wrap (Ring.start ring + Z.of_nat i) _ Hc ltac:(lia)).
    lia.
  - f_equal. rewrite Z2Nat.id by lia. rewrite Zplus_mod_idemp_r.
    replace (Ring.start ring + (Ring.end_ ring - Ring.start ring))
      with (Ring.end_ ring) by lia.
    rewrite Z.mod_small by lia.
    rewrite list_lookup_insert_eq; [done|]. lia.
Qed.

(** Pushing: the entry goes behind everything pending, grown or not. *)
Lemma ring_put_pending (ring : Ring) (entry : RingEntry) :
  ring_wf ring →
  ring_wf (ring_put ring entry) ∧
  ring_pending (ring_put ring entry) = ring_pending ring ++ [entry].
Proof.
  intros Hwf. unfold ring_put.
  destruct (ring_full ring) eqn:Hfull.
  - destruct (ring_grow_pending ring Hwf) as (Hwf' & Hpend & _ & Hroom).
    rewrite <- Hpend. by apply ring_append_pending.
  - by apply ring_append_pending.
Qed.

Lemma ring_drain_n_pending (fuel : nat) (ring : Ring) :
  ring_wf ring → (length (ring_pending ring) ≤ fuel)%nat →
  ring_drain_n fuel ring = ring_pending ring.
Proof.
  revert ring. induction fuel as [|fuel IH]; intros ring Hwf Hlen.
  - simpl. by destruct (ring_pending ring); [|simpl in Hlen; lia].
  - simpl. pose proof (ring_get_pending ring Hwf) as Hget.
    destruct (ring_get ring) as [[entry ring']|]; [|done].
    destruct Hget as [Hpend Hwf']. rewrite Hpend in *. simpl in Hlen.
    f_equal. apply IH; [done|lia].
Qed.

Lemma ring_drain_pending (ring : Ring) :
  ring_wf ring → ring_drain ring = ring_pending ring.
Proof.
  intros Hwf. apply ring_drain_n_pending; [done|].
  rewrite ring_pending_length. pose proof (ring_size_range ring Hwf). lia.
Qed.

(** ** What the calls do, step by step *)

Lemma db_worker_switch_eq (e : RingEntry) (w : World) :
  db_worker_switch e w =
  (bool_decide (RingEntry.type e ≠ EXIT),
   World.mk (World.db_enabled w) (switch_db e (World.db w)) (World.ring w)
            (World.thrd w) (World.log w ++ switch_calls e)).
Proof.
  destruct w as [enabled db ring t log], e as [ty p q x y z v key].
  unfold db_worker_switch, switch_db, switch_calls.
  destruct ty; simpl;
    unfold _db_insert_block, _db_insert_block_damage, _db_insert_light,
      _db_set_key, _db_commit, _db_block_damage_trim, step_stmt, sqlite3_exec_txn,
      read_db, on_db, emit, bind, ret, write_stmt; simpl;
    try destruct (Sqlite.failing db) eqn:Hf; simpl; try rewrite Hf; simpl;
    rewrite <- ?app_assoc, ?app_nil_r; reflexivity.
Qed.

Lemma call_run_eq (c : Call) (w : World) :
  call_run c w =
  ((), if World.db_enabled w
       then World.mk true (World.db w) (ring_put (World.ring w) (call_entry c))
                     (World.thrd w)
                     (World.log w ++ [EvLock mtx; EvSignal; EvUnlock mtx])
       else w).
Proof.
  destruct w as [enabled db ring t log].
  destruct c; unfold call_run, db_insert_block, db_insert_light,
    db_insert_block_damage, db_trim_block_damage, db_set_key, db_commit,
    db_worker_stop_enqueue, if_enabled, get_db_enabled, mtx_lock, mtx_unlock,
    cnd_signal, on_ring, emit, bind, ret; simpl;
    destruct enabled; simpl; rewrite <- ?app_assoc; reflexivity.
Qed.

Lemma db_worker_run_step_eq (w : World) :
  db_worker_run_step w =
  match World.thrd w with
  | WAITING =>
      match ring_get (World.ring w) with
      | None =>
          (None, World.mk (World.db_enabled w) (World.db w) (World.ring w) WAITING
                          (World.log w ++ [EvLock mtx; EvWait]))
      | Some (e, ring) =>
          (None, World.mk (World.db_enabled w) (World.db w) ring (DRAINING e)
                          (World.log w ++ [EvLock mtx; EvUnlock mtx]))
      end
  | DRAINING e =>
      (Some e,
       World.mk (World.db_enabled w) (switch_db e (World.db w)) (World.ring w)
                (if bool_decide (RingEntry.type e ≠ EXIT) then WAITING else STOPPED)
                (World.log w ++ switch_calls e))
  | _ => (None, w)
  end.
Proof.
  destruct w as [enabled db ring t log].
  unfold db_worker_run_step, get_thrd, bind at 1. simpl.
  destruct t as [| |e|]; try reflexivity.
  - unfold bind, mtx_lock, mtx_unlock, cnd_wait, on_ring, read_ring, set_thrd, emit,
      ret. simpl.
    destruct (ring_get ring) as [[e ring']|]; simpl;
      rewrite <- ?app_assoc; reflexivity.
  - unfold bind at 1. rewrite db_worker_switch_eq. reflexivity.
Qed.

Lemma switch_calls_store (e : RingEntry) :
  List.filter is_store_call (switch_calls e) = switch_calls e.
Proof. unfold switch_calls. by destruct (RingEntry.type e). Qed.

Lemma call_run_queue (c : Call) (w : World) :
  ring_wf (World.ring w) →
  ring_wf (World.ring (call_run c w).2) ∧
  queue (call_run c w).2
    = queue w ++ (if World.db_enabled w then [call_entry c] else []) ∧
  World.db (call_run c w).2 = World.db w ∧
  store_calls (call_run c w).2 = store_calls w ∧
  World.db_enabled (call_run c w).2 = World.db_enabled w.
Proof.
  intros Hwf. rewrite call_run_eq. simpl. unfold queue, store_calls.
  destruct (World.db_enabled w) eqn:Hen; simpl.
  - destruct (ring_put_pending (World.ring w) (call_entry c) Hwf) as [Hwf' Hpend].
    rewrite Hpend, List.filter_app, app_assoc. simpl. by rewrite app_nil_r.
  - by rewrite app_nil_r.
Qed.

Lemma db_worker_run_step_queue (w : World) :
  ring_wf (World.ring w) →
  let '(o, w') := db_worker_run_step w in
  ring_wf (World.ring w') ∧
  queue w = option_list o ++ queue w' ∧
  World.db w' = foldl (λ db e, switch_db e db) (World.db w) (option_list o) ∧
  store_calls w' = store_calls w ++ concat (switch_calls <$> option_list o) ∧
  World.db_enabled w' = World.db_enabled w.
Proof.
  intros Hwf. rewrite db_worker_run_step_eq. unfold queue, store_calls.
  destruct (World.thrd w) as [| |e|] eqn:Ht; simpl; rewrite ?Ht, ?app_nil_r; try done.
  - pose proof (ring_get_pending _ Hwf) as Hget.
    destruct (ring_get (World.ring w)) as [[e ring']|]; simpl.
    + destruct Hget as [Hpend Hwf']. rewrite List.filter_app. simpl.
      by rewrite app_nil_r.
    + rewrite List.filter_app. simpl. by rewrite app_nil_r.
  - rewrite List.filter_app, switch_calls_store.
    by destruct (bool_decide _).
Qed.

(** The calls of a schedule reach the worker in the order they completed. *)
Lemma run_queue (sched : list Action) (w : World) :
  ring_wf (World.ring w) →
  let '(applied, w') := run sched w in
  ring_wf (World.ring w') ∧
  queue w ++ (if World.db_enabled w then call_entry <$> calls sched else [])
    = applied ++ queue w' ∧
  World.db w' = foldl (λ db e, switch_db e db) (World.db w) applied ∧
  store_calls w' = store_calls w ++ concat (switch_calls <$> applied) ∧
  World.db_enabled w' = World.db_enabled w.
Proof.
  revert w. induction sched as [|[c|] sched IH]; intros w Hwf.
  - simpl. unfold ret. destruct (World.db_enabled w); by rewrite !app_nil_r.
  - simpl. unfold bind.
    pose proof (call_run_queue c w Hwf) as (Hwf1 & Hq1 & Hdb1 & Hlog1 & Hen1).
    destruct (call_run c w) as [[] w1]. simpl in *.
    specialize (IH w1 Hwf1). destruct (run sched w1) as [applied w'].
    destruct IH as (Hwf' & Hq & Hdb & Hlog & Hen).
    rewrite Hq1, Hen1 in Hq. rewrite Hdb1 in Hdb. rewrite Hlog1 in Hlog.
    split_and!; try done; [|congruence].
    rewrite <- Hq. destruct (World.db_enabled w); simpl; by rewrite <- ?app_assoc.
  - simpl. unfold bind.
    pose proof (db_worker_run_step_queue w Hwf) as Hstep.
    destruct (db_worker_run_step w) as [o w1].
    destruct Hstep as (Hwf1 & Hq1 & Hdb1 & Hlog1 & Hen1).
    specialize (IH w1 Hwf1). destruct (run sched w1) as [applied w'].
    destruct IH as (Hwf' & Hq & Hdb & Hlog & Hen). unfold ret.
    split_and!; try done.
    + rewrite Hq1, <- !app_assoc. f_equal. by rewrite <- Hq, Hen1.
    + by rewrite foldl_app, <- Hdb1.
    + by rewrite Hlog, Hlog1, fmap_app, concat_app, app_assoc.
    + congruence.
Qed.

Lemma db_worker_run_step_alive (w : World) :
  alive (World.thrd w) = true →
  Forall (λ e, RingEntry.type e ≠ EXIT) (held (World.thrd w)) →
  alive (World.thrd (db_worker_run_step w).2) = true.
Proof.
  intros Halive Hheld. rewrite db_worker_run_step_eq.
  destruct (World.thrd w) as [| |e|]; try done.
  - by destruct (ring_get (World.ring w)) as [[e ring']|].
  - simpl in *. apply Forall_cons in Hheld as [He _].
    by rewrite bool_decide_eq_true_2.
Qed.

Lemma run_alive (sched : list Action) (w : World) :
  ring_wf (World.ring w) →
  alive (World.thrd w) = true →
  Forall (λ e, RingEntry.type e ≠ EXIT) (queue w) →
  Forall (λ c, c ≠ WorkerStop) (calls sched) →
  alive (World.thrd (run sched w).2) = true.
Proof.
  revert w. induction sched as [|[c|] sched IH]; intros w Hwf Halive Hq Hcalls.
  - done.
  - simpl in *. unfold bind.
    destruct (call_run_queue c w Hwf) as (Hwf1 & Hq1 & _ & _ & _).
    assert (Ht : World.thrd (call_run c w).2 = World.thrd w).
    { rewrite call_run_eq. simpl. by destruct (World.db_enabled w). }
    destruct (call_run c w) as [[] w1]. simpl in *.
    apply Forall_cons in Hcalls as [Hc Hcalls].
    apply IH; [done|by rewrite Ht| |done].
    rewrite Hq1. apply Forall_app. split; [done|].
    destruct (World.db_enabled w); [|done].
    apply Forall_singleton. by destruct c.
  - simpl in *. unfold bind.
    pose proof (db_worker_run_step_queue w Hwf) as Hstep.
    pose proof (db_worker_run_step_alive w Halive) as Halive1.
    destruct (db_worker_run_step w) as [o w1].
    destruct Hstep as (Hwf1 & Hq1 & _). simpl in *.
    assert (Hheld : Forall (λ e, RingEntry.type e ≠ EXIT) (held (World.thrd w))).
    { unfold queue in Hq. by apply Forall_app in Hq as [? _]. }
    rewrite Hq1 in Hq. apply Forall_app in Hq as [_ Hq].
    specialize (IH w1 Hwf1 (Halive1 Hheld) Hq Hcalls).
    by destruct (run sched w1).
Qed.

Lemma thrd_join_stopped (fuel : nat) (w : World) :
  World.thrd w = STOPPED → thrd_join fuel w = ([], w).
Proof.
  intros Ht. unfold thrd_join. destruct fuel; [done|]. simpl.
  unfold bind, get_thrd. by rewrite Ht.
Qed.

(** Left alone with a queue whose first EXIT is [x], the worker processes
    everything in front of [x], then [x], and returns. *)
Lemma thrd_join_exit (fuel : nat) (w : World) (pre post : list RingEntry)
      (x : RingEntry) :
  ring_wf (World.ring w) →
  alive (World.thrd w) = true →
  queue w = pre ++ x :: post →
  Forall (λ e, RingEntry.type e ≠ EXIT) pre →
  RingEntry.type x = EXIT →
  (2 * length pre + 2 ≤ fuel + length (held (World.thrd w)))%nat →
  let '(applied, w') := thrd_join fuel w in
  applied = pre ++ [x] ∧
  World.thrd w' = STOPPED ∧
  ring_pending (World.ring w') = post ∧
  ring_wf (World.ring w') ∧
  World.db w' = foldl (λ db e, switch_db e db) (World.db w) (pre ++ [x]) ∧
  store_calls w' = store_calls w ++ concat (switch_calls <$> (pre ++ [x])) ∧
  World.db_enabled w' = World.db_enabled w.
Proof.
  revert w pre. induction fuel as [|fuel IH]; intros w pre Hwf Halive Hq Hpre Hx Hfuel.
  { destruct (World.thrd w); simpl in Hfuel; lia. }
  unfold thrd_join in *. simpl. unfold bind at 1. unfold get_thrd.
  pose proof (db_worker_run_step_eq w) as Hstep.
  unfold queue in Hq.
  destruct (World.thrd w) as [| |e|] eqn:Ht; try done; unfold bind at 1.
  - (* at the top of the loop: pop *)
    pose proof (ring_get_pending _ Hwf) as Hget. simpl in Hq, Hfuel.
    destruct (ring_get (World.ring w)) as [[e ring']|].
    2:{ rewrite Hget in Hq. by destruct pre. }
    destruct Hget as [Hpend Hwf']. rewrite Hstep. unfold bind, ret.
    set (w1 := World.mk _ _ ring' (DRAINING e) _).
    specialize (IH w1 pre Hwf' eq_refl).
    destruct (db_worker_run fuel w1) as [applied w'].
    destruct IH as (? & ? & ? & ? & ? & Hlog & ?); try done.
    { unfold queue. simpl. by rewrite <- Hpend. }
    { simpl. lia. }
    split_and!; try done.
    rewrite Hlog. unfold store_calls, w1. simpl.
    rewrite List.filter_app. simpl. by rewrite app_nil_r.
  - (* at the switch: process *)
    rewrite Hstep. unfold bind, ret. simpl in Hq, Hfuel.
    destruct pre as [|e' pre]; simpl in Hq; injection Hq as -> Hpend.
    + rewrite bool_decide_eq_false_2 by (intros Hne; by apply Hne).
      fold (thrd_join fuel). rewrite thrd_join_stopped by done. simpl.
      split_and!; try done.
      unfold store_calls. simpl.
      by rewrite List.filter_app, switch_calls_store, app_nil_r.
    + apply Forall_cons in Hpre as [He' Hpre].
      rewrite bool_decide_eq_true_2 by done.
      set (w1 := World.mk _ _ _ WAITING _).
      specialize (IH w1 pre Hwf eq_refl).
      destruct (db_worker_run fuel w1) as [applied w'].
      destruct IH as (-> & ? & ? & ? & Hdb & Hlog & ?); try done.
      { simpl in *. lia. }
      split_and!; try done.
      rewrite Hlog. unfold store_calls, w1. simpl.
      by rewrite List.filter_app, switch_calls_store, app_assoc.
Qed.

Lemma run_app (sched1 sched2 : list Action) (w : World) :
  run (sched1 ++ sched2) w =
  ((run sched1 w).1 ++ (run sched2 (run sched1 w).2).1,
   (run sched2 (run sched1 w).2).2).
Proof.
  revert w. induction sched1 as [|[c|] sched1 IH]; intros w.
  - simpl. unfold ret. simpl. by destruct (run sched2 w).
  - simpl. unfold bind. destruct (call_run c w) as [[] w1]. apply IH.
  - simpl. unfold bind. destruct (db_worker_run_step w) as [o w1].
    rewrite IH. destruct (run sched1 w1) as [a1 w2]. simpl.
    destruct (run sched2 w2) as [a2 w3]. unfold ret. simpl. by rewrite app_assoc.
Qed.

(** Once the worker has returned, nothing is processed any more. *)
Lemma run_stopped (sched : list Action) (w : World) :
  World.thrd w = STOPPED →
  (run sched w).1 = [] ∧ World.thrd (run sched w).2 = STOPPED.
Proof.
  revert w. induction sched as [|[c|] sched IH]; intros w Ht.
  - done.
  - simpl. unfold bind. rewrite call_run_eq. apply IH.
    by destruct (World.db_enabled w).
  - simpl. unfold bind. rewrite db_worker_run_step_eq, Ht.
    destruct (IH w Ht) as [Happlied Hthrd].
    destruct (run sched w) as [applied w']. unfold ret. simpl in *. by subst.
Qed.

Lemma up_to_exit_app (pre entries : list RingEntry) :
  Forall (λ e, RingEntry.type e ≠ EXIT) pre →
  up_to_exit (pre ++ entries) = pre ++ up_to_exit entries.
Proof.
  induction 1 as [|e pre He _ IH]; [done|].
  simpl. by rewrite bool_decide_eq_true_2, IH.
Qed.

Lemma up_to_exit_app_exit (pre entries : list RingEntry) (x : RingEntry) :
  Forall (λ e, RingEntry.type e ≠ EXIT) pre →
  RingEntry.type x = EXIT →
  up_to_exit (pre ++ x :: entries) = pre ++ [x].
Proof.
  intros Hpre Hx. rewrite up_to_exit_app by done. simpl.
  by rewrite bool_decide_eq_false_2 by (intros Hne; by apply Hne).
Qed.

(** Left alone for two quanta per queued entry, a live worker processes its
    queue up to and including the first EXIT. *)
Lemma run_work_up_to_exit (n : nat) (w : World) :
  ring_wf (World.ring w) →
  alive (World.thrd w) = true →
  (2 * length (queue w) ≤ n + length (held (World.thrd w)))%nat →
  (run (replicate n Work) w).1 = up_to_exit (queue w).
Proof.
  revert w. induction n as [|n IH]; intros w Hwf Halive Hn.
  - unfold queue in *. rewrite length_app in Hn.
    destruct (World.thrd w) eqn:Ht; try done; simpl in *; [|lia].
    destruct (ring_pending (World.ring w)); simpl in *; [done|lia].
  - simpl. unfold bind. pose proof (db_worker_run_step_eq w) as Hstep.
    unfold queue in Hn |- *.
    destruct (World.thrd w) as [| |e|] eqn:Ht; try done;
      cbn [held app length] in Hn |- *.
    + pose proof (ring_get_pending _ Hwf) as Hget.
      destruct (ring_get (World.ring w)) as [[e ring']|].
      * destruct Hget as [Hpend Hwf']. rewrite Hstep.
        set (w1 := World.mk _ _ ring' (DRAINING e) _).
        assert (Happlied : (run (replicate n Work) w1).1 = up_to_exit (queue w1)).
        { apply IH; [done|done|]. unfold queue, w1.
          cbn [World.thrd World.ring held app length].
          rewrite Hpend in Hn. cbn [length] in Hn. lia. }
        destruct (run (replicate n Work) w1) as [a w']. unfold ret.
        cbn [fst option_list app] in Happlied |- *. rewrite Happlied.
        unfold queue, w1. cbn [World.thrd World.ring held app]. by rewrite Hpend.
      * rewrite Hstep. set (w1 := World.mk _ _ _ WAITING _).
        assert (Happlied : (run (replicate n Work) w1).1 = up_to_exit (queue w1)).
        { apply IH; [done|done|]. unfold queue, w1.
          cbn [World.thrd World.ring held app length]. rewrite Hget. simpl. lia. }
        destruct (run (replicate n Work) w1) as [a w']. unfold ret.
        cbn [fst option_list app] in Happlied |- *. rewrite Happlied.
        unfold queue, w1. by cbn [World.thrd World.ring held app].
    + rewrite Hstep. cbn [up_to_exit].
      destruct (bool_decide (RingEntry.type e ≠ EXIT)) eqn:He.
      * set (w1 := World.mk _ _ _ WAITING _).
        assert (Happlied : (run (replicate n Work) w1).1 = up_to_exit (queue w1)).
        { apply IH; [done|done|]. unfold queue, w1.
          cbn [World.thrd World.ring held app length]. lia. }
        destruct (run (replicate n Work) w1) as [a w']. unfold ret.
        cbn [fst option_list app] in Happlied |- *. rewrite Happlied.
        unfold queue, w1. by cbn [World.thrd World.ring held app].
      * set (w1 := World.mk _ _ _ STOPPED _).
        destruct (run_stopped (replicate n Work) w1 eq_refl) as [Happlied _].
        destruct (run (replicate n Work) w1) as [a w']. unfold ret.
        cbn [fst option_list app] in Happlied |- *. by subst a.
Qed.

(** After a schedule a worker that was alive is still alive and has processed
    no EXIT, or has returned and the last entry it processed is the one EXIT
    it processed. *)
Lemma run_exit_last (sched : list Action) (w : World) :
  alive (World.thrd w) = true →
  (alive (World.thrd (run sched w).2) = true ∧
   Forall (λ e, RingEntry.type e ≠ EXIT) (run sched w).1) ∨
  (World.thrd (run sched w).2 = STOPPED ∧
   ∃ pre x, (run sched w).1 = pre ++ [x] ∧
            Forall (λ e, RingEntry.type e ≠ EXIT) pre ∧ RingEntry.type x = EXIT).
Proof.
  revert w. induction sched as [|[c|] sched IH]; intros w Halive.
  - left. by split.
  - simpl. unfold bind. rewrite call_run_eq. apply IH.
    by destruct (World.db_enabled w).
  - simpl. unfold bind. rewrite db_worker_run_step_eq.
    destruct (World.thrd w) as [| |e|] eqn:Ht; try done.
    + destruct (ring_get (World.ring w)) as [[e ring']|].
      * set (w1 := World.mk _ _ ring' (DRAINING e) _).
        specialize (IH w1 eq_refl). by destruct (run sched w1).
      * set (w1 := World.mk _ _ _ WAITING _).
        specialize (IH w1 eq_refl). by destruct (run sched w1).
    + destruct (bool_decide (RingEntry.type e ≠ EXIT)) eqn:He.
      * apply bool_decide_eq_true in He.
        set (w1 := World.mk _ _ _ WAITING _).
        specialize (IH w1 eq_refl). destruct (run sched w1) as [applied w'].
        unfold ret. simpl in *.
        destruct IH as [[? ?]|(? & pre & x & -> & ? & ?)].
        -- left. split; [done|]. by apply Forall_cons.
        -- right. split; [done|]. exists (e :: pre), x.
           split_and!; try done. by apply Forall_cons.
      * apply bool_decide_eq_false in He.
        set (w1 := World.mk _ _ _ STOPPED _).
        destruct (run_stopped sched w1 eq_refl) as [Happlied Hthrd].
        destruct (run sched w1) as [applied w']. unfold ret. simpl in *. subst.
        right. split; [done|]. exists [], e. split_and!; try done.
        destruct (decide (RingEntry.type e = EXIT)); [done|]. by destruct He.
Qed.

(** Whatever the schedule, two further quanta per entry are enough for a live
    worker to have processed every entry up to and including the first EXIT:
    the entries queued at the start and then the pushed ones, in the order
    the calls completed. *)
Lemma run_catches_up_to_exit (sched : list Action) (n : nat) (w : World) :
  ring_wf (World.ring w) →
  alive (World.thrd w) = true →
  let entries :=
    queue w ++ (if World.db_enabled w then call_entry <$> calls sched else []) in
  (2 * length entries ≤ n)%nat →
  (run (sched ++ replicate n Work) w).1 = up_to_exit entries ∧
  World.db (run (sched ++ replicate n Work) w).2
  = foldl (λ db e, switch_db e db) (World.db w) (up_to_exit entries) ∧
  store_calls (run (sched ++ replicate n Work) w).2
  = store_calls w ++ concat (switch_calls <$> up_to_exit entries).
Proof.
  intros Hwf Halive entries Hn.
  assert (Happlied : (run (sched ++ replicate n Work) w).1 = up_to_exit entries).
  { rewrite run_app. cbn [fst].
    pose proof (run_queue sched w Hwf) as Hsched.
    pose proof (run_exit_last sched w Halive) as Hlast.
    destruct (run sched w) as [applied1 w1]. cbn [fst snd] in *.
    destruct Hsched as (Hwf1 & Hq1 & _). fold entries in Hq1.
    destruct Hlast as [[Halive1 Hnoexit]|(Hthrd & pre & x & -> & Hpre & Hx)].
    - rewrite run_work_up_to_exit; [|done|done|].
      + by rewrite Hq1, up_to_exit_app.
      + apply (f_equal length) in Hq1. rewrite length_app in Hq1. lia.
    - destruct (run_stopped (replicate n Work) w1 Hthrd) as [-> _].
      rewrite app_nil_r, Hq1, <- app_assoc. cbn [app].
      by rewrite up_to_exit_app_exit. }
  pose proof (run_queue (sched ++ replicate n Work) w Hwf) as Hall.
  destruct (run (sched ++ replicate n Work) w) as [applied w']. cbn [fst snd] in *.
  destruct Hall as (_ & _ & Hdb & Hlog & _). by subst applied.
Qed.

(** ** The queue and the worker *)

(** C1. Whatever the schedule of enqueue calls and worker quanta, and whatever
    the capacity of the ring (so also across growth), the entries the worker
    has processed, followed by the one it holds and the pending ones, are the
    entries that were queued at the start followed by the pushed ones in the
    order the calls completed. The connection is the one obtained by applying
    the processed entries in that order, and the store calls made are theirs,
    in that order. From an empty queue the processed entries are a prefix of
    the pushed ones. And the worker does get to them: when it is alive, two
    further quanta per entry are enough for it to have popped and applied
    every entry up to and including the first EXIT, in that order, whatever
    the schedule was. *)
Theorem worker_applies_in_push_order (sched : list Action) (w : World) :
  ring_wf (World.ring w) →
  let pushed := if World.db_enabled w then call_entry <$> calls sched else [] in
  (let '(applied, w') := run sched w in
   applied ++ queue w' = queue w ++ pushed ∧
   (queue w = [] → applied `prefix_of` pushed) ∧
   World.db w' = foldl (λ db e, switch_db e db) (World.db w) applied ∧
   store_calls w' = store_calls w ++ concat (switch_calls <$> applied)) ∧
  (alive (World.thrd w) = true →
   ∀ n, (2 * length (queue w ++ pushed) ≤ n)%nat →
   let '(applied, w') := run (sched ++ replicate n Work) w in
   applied = up_to_exit (queue w ++ pushed) ∧
   World.db w'
   = foldl (λ db e, switch_db e db) (World.db w) (up_to_exit (queue w ++ pushed)) ∧
   store_calls w'
   = store_calls w ++ concat (switch_calls <$> up_to_exit (queue w ++ pushed))).
Proof.
  intros Hwf pushed. split.
  - pose proof (run_queue sched w Hwf) as Hrun.
    destruct (run sched w) as [applied w'].
    destruct Hrun as (_ & Hq & Hdb & Hlog & _).
    split_and!; try done.
    intros Hempty. exists (queue w'). subst pushed. by rewrite <- Hq, Hempty.
  - intros Halive n Hn.
    pose proof (run_catches_up_to_exit sched n w Hwf Halive Hn) as Hrun.
    by destruct (run (sched ++ replicate n Work) w) as [applied w'].
Qed.

Lemma worker_applies_in_push_order_witness :
  ring_wf (World.ring (small_world Sqlite.empty)) ∧
  let sched := scenario in
  let w := small_world Sqlite.empty in
  let pushed := if World.db_enabled w then call_entry <$> calls sched else [] in
  (let '(applied, w') := run sched w in
   applied ++ queue w' = queue w ++ pushed ∧
   (queue w = [] → applied `prefix_of` pushed) ∧
   World.db w' = foldl (λ db e, switch_db e db) (World.db w) applied ∧
   store_calls w' = store_calls w ++ concat (switch_calls <$> applied)) ∧
  (alive (World.thrd w) = true →
   ∀ n, (2 * length (queue w ++ pushed) ≤ n)%nat →
   let '(applied, w') := run (sched ++ replicate n Work) w in
   applied = up_to_exit (queue w ++ pushed) ∧
   World.db w'
   = foldl (λ db e, switch_db e db) (World.db w) (up_to_exit (queue w ++ pushed)) ∧
   store_calls w'
   = store_calls w ++ concat (switch_calls <$> up_to_exit (queue w ++ pushed))).
Proof.
  assert (Hwf : ring_wf (World.ring (small_world Sqlite.empty))).
  { apply ring_alloc_wf. lia. }
  split; [exact Hwf|].
  exact (worker_applies_in_push_order scenario (small_world Sqlite.empty) Hwf).
Defined.

Example scenario_caught_up :
  alive (World.thrd (small_world Sqlite.empty)) = true ∧
  (run (scenario ++ replicate 12 Work) (small_world Sqlite.empty)).1
  = [RingEntry.mk BLOCK 0 0 1 2 3 55 0; RingEntry.mk LIGHT 0 0 1 2 3 9 0;
     RingEntry.mk BLOCK_DAMAGE 0 0 4 5 6 7 0; RingEntry.mk BLOCK_DAMAGE_TRIM 0 0 0 0 0 0 0;
     RingEntry.mk KEY 0 0 0 0 0 0 99; RingEntry.mk COMMIT 0 0 0 0 0 0 0] ∧
  (run ([Produce (SetKey 0 0 1); Produce WorkerStop; Produce (SetKey 0 0 2)]
        ++ replicate 6 Work) (small_world Sqlite.empty)).1
  = [RingEntry.mk KEY 0 0 0 0 0 0 1; RingEntry.mk EXIT 0 0 0 0 0 0 0].
Proof. vm_compute. done. Qed.

Example scenario_run :
  (run scenario (small_world Sqlite.empty)).1
  = [RingEntry.mk BLOCK 0 0 1 2 3 55 0; RingEntry.mk LIGHT 0 0 1 2 3 9 0] ∧
  queue (run scenario (small_world Sqlite.empty)).2
  = [RingEntry.mk BLOCK_DAMAGE 0 0 4 5 6 7 0; RingEntry.mk BLOCK_DAMAGE_TRIM 0 0 0 0 0 0 0;
     RingEntry.mk KEY 0 0 0 0 0 0 99; RingEntry.mk COMMIT 0 0 0 0 0 0 0] ∧
  Ring.capacity (World.ring (run scenario (small_world Sqlite.empty)).2) = 8.
Proof. vm_compute. done. Qed.

(** C3. A push on a full ring is a growth followed by the append. Growth
    doubles the capacity, puts the pending entries at index 0 and on
    ([start = 0], [end = size]) in their order, and keeps the size; a full
    drain of the grown ring gives the entries a full drain gave before, and
    after the push it gives them followed by the new entry. *)
Theorem ring_put_full_grows (ring : Ring) (entry : RingEntry) :
  ring_wf ring →
  ring_full ring = true →
  let grown := ring_grow ring in
  Ring.capacity grown = 2 * Ring.capacity ring ∧
  Ring.start grown = 0 ∧
  Ring.end_ grown = ring_size ring ∧
  take (Z.to_nat (ring_size ring)) (Ring.data grown) = ring_pending ring ∧
  ring_size grown = ring_size ring ∧
  ring_drain grown = ring_drain ring ∧
  ring_put ring entry =
    Ring.mk (2 * Ring.capacity ring) 0 (ring_size ring + 1)
            (<[Z.to_nat (ring_size ring) := entry]> (Ring.data grown)) ∧
  ring_size (ring_put ring entry) = ring_size ring + 1 ∧
  ring_drain (ring_put ring entry) = ring_drain ring ++ [entry].
Proof.
  intros Hwf Hfull grown.
  destruct (ring_grow_pending ring Hwf) as (Hwf' & Hpend & Hsize & Hroom).
  destruct (ring_put_pending ring entry Hwf) as [Hwfp Hpendp].
  pose proof (ring_size_range ring Hwf) as Hrange.
  assert (Hput : ring_put ring entry =
                 Ring.mk (2 * Ring.capacity ring) 0 (ring_size ring + 1)
                         (<[Z.to_nat (ring_size ring) := entry]> (Ring.data grown))).
  { unfold ring_put. rewrite Hfull. unfold grown, ring_grow.
    cbn [Ring.capacity Ring.start Ring.end_ Ring.data]. cbv zeta.
    f_equal. apply Z.mod_small. lia. }
  subst grown. split_and!; try done.
  - unfold ring_grow. simpl.
    rewrite <- ring_pending_length. by rewrite take_app_length.
  - by rewrite !ring_drain_pending, Hpend.
  - rewrite Hput. unfold ring_size at 1. simpl.
    rewrite Z.sub_0_r. apply Z.mod_small. lia.
  - by rewrite !ring_drain_pending, Hpendp.
Qed.

Lemma ring_put_full_grows_witness :
  ring_wf full_ring ∧
  ring_full full_ring = true ∧
  let ring := full_ring in
  let entry := block_entry in
  let grown := ring_grow ring in
  Ring.capacity grown = 2 * Ring.capacity ring ∧
  Ring.start grown = 0 ∧
  Ring.end_ grown = ring_size ring ∧
  take (Z.to_nat (ring_size ring)) (Ring.data grown) = ring_pending ring ∧
  ring_size grown = ring_size ring ∧
  ring_drain grown = ring_drain ring ∧
  ring_put ring entry =
    Ring.mk (2 * Ring.capacity ring) 0 (ring_size ring + 1)
            (<[Z.to_nat (ring_size ring) := entry]> (Ring.data grown)) ∧
  ring_size (ring_put ring entry) = ring_size ring + 1 ∧
  ring_drain (ring_put ring entry) = ring_drain ring ++ [entry].
Proof.
  assert (Hwf : ring_wf full_ring).
  { apply ring_put_pending, ring_alloc_wf. lia. }
  split; [exact Hwf|]. split; [reflexivity|].
  exact (ring_put_full_grows full_ring block_entry Hwf eq_refl).
Defined.

Example full_ring_put :
  ring_put full_ring block_entry
  = Ring.mk 4 0 2 [RingEntry.mk KEY 1 2 0 0 0 0 3; block_entry; zero_entry; zero_entry].
Proof. vm_compute. done. Qed.

(** C4. Start with a live worker and a queue without EXIT. After any schedule
    of enqueue calls other than the stop, interleaved with worker quanta,
    [db_worker_stop] pushes EXIT and joins: the worker returns, and what it
    processed in all, before and during the join, is exactly the queued
    entries, then the pushed ones in order, then EXIT. The connection is the
    one obtained by applying them in that order. *)
Theorem exit_after_all_earlier (sched : list Action) (w : World) (fuel : nat) :
  World.db_enabled w = true →
  ring_wf (World.ring w) →
  alive (World.thrd w) = true →
  Forall (λ e, RingEntry.type e ≠ EXIT) (queue w) →
  Forall (λ c, c ≠ WorkerStop) (calls sched) →
  (2 * (length (queue w) + length (calls sched)) + 2 ≤ fuel)%nat →
  let earlier := queue w ++ (call_entry <$> calls sched) in
  let '(applied, w1) := run sched w in
  let '(joined, w2) := thrd_join fuel (db_worker_stop_enqueue w1).2 in
  applied ++ joined = earlier ++ [call_entry WorkerStop] ∧
  World.thrd w2 = STOPPED ∧
  ring_pending (World.ring w2) = [] ∧
  World.db w2
    = foldl (λ db e, switch_db e db) (World.db w) (earlier ++ [call_entry WorkerStop]) ∧
  store_calls w2 = store_calls w ++ concat (switch_calls <$> earlier) ∧
  db_worker_stop fuel w1
    = ((), World.mk true (World.db w2) (ring_free (World.ring w2)) STOPPED (World.log w2)).
Proof.
  intros Hen Hwf Halive Hq Hcalls Hfuel earlier.
  pose proof (run_queue sched w Hwf) as Hrun.
  pose proof (run_alive sched w Hwf Halive Hq Hcalls) as Halive1.
  destruct (run sched w) as [applied w1].
  destruct Hrun as (Hwf1 & Hq1 & Hdb1 & Hlog1 & Hen1). simpl in Halive1.
  rewrite Hen in Hq1, Hen1. fold earlier in Hq1.
  assert (Hearlier : Forall (λ e, RingEntry.type e ≠ EXIT) earlier).
  { apply Forall_app. split; [done|]. apply Forall_fmap.
    eapply Forall_impl; [exact Hcalls|]. intros c Hc. by destruct c. }
  assert (Hstop : db_worker_stop_enqueue w1 = (call_run WorkerStop w1)).
  { unfold call_run, if_enabled, get_db_enabled, bind at 1. by rewrite Hen1. }
  destruct (call_run_queue WorkerStop w1 Hwf1) as (Hwf1' & Hq1' & Hdb1' & Hlog1' & Hen1').
  assert (Ht1' : World.thrd (call_run WorkerStop w1).2 = World.thrd w1).
  { rewrite call_run_eq. simpl. by rewrite Hen1. }
  rewrite Hen1 in Hq1'.
  pose proof (thrd_join_exit fuel (call_run WorkerStop w1).2 (queue w1) []
                             (call_entry WorkerStop) Hwf1') as Hjoin.
  assert (Hstop_eq : db_worker_stop fuel w1 =
                     let '(_, w2) := thrd_join fuel (call_run WorkerStop w1).2 in
                     on_ring ring_free w2).
  { unfold db_worker_stop, if_enabled, get_db_enabled, bind. rewrite Hen1, Hstop.
    by destruct (call_run WorkerStop w1) as [[] w1']. }
  rewrite Hstop_eq, Hstop.
  destruct (thrd_join fuel (call_run WorkerStop w1).2) as [joined w2].
  destruct Hjoin as (-> & Ht2 & Hpend2 & Hwf2 & Hdb2 & Hlog2 & Hen2); try done.
  { by rewrite Ht1'. }
  { rewrite Hq1 in Hearlier. by apply Forall_app in Hearlier as [_ ?]. }
  { assert (length (applied ++ queue w1) = length earlier) by by rewrite <- Hq1.
    unfold earlier in *. rewrite !length_app, length_fmap in *. lia. }
  split_and!; try done.
  - by rewrite app_assoc, <- Hq1.
  - by rewrite Hdb2, Hdb1', Hdb1, <- foldl_app, app_assoc, <- Hq1.
  - rewrite Hlog2, Hlog1', Hlog1, Hq1, !fmap_app, !concat_app. simpl.
    by rewrite !app_nil_r, !app_assoc.
  - unfold on_ring. rewrite Ht2. do 3 f_equal. congruence.
Qed.

Lemma exit_after_all_earlier_witness :
  World.db_enabled (small_world Sqlite.empty) = true ∧
  ring_wf (World.ring (small_world Sqlite.empty)) ∧
  alive (World.thrd (small_world Sqlite.empty)) = true ∧
  Forall (λ e, RingEntry.type e ≠ EXIT) (queue (small_world Sqlite.empty)) ∧
  Forall (λ c, c ≠ WorkerStop) (calls scenario) ∧
  (2 * (length (queue (small_world Sqlite.empty)) + length (calls scenario)) + 2 ≤ 14)%nat ∧
  let earlier := queue (small_world Sqlite.empty) ++ (call_entry <$> calls scenario) in
  let '(applied, w1) := run scenario (small_world Sqlite.empty) in
  let '(joined, w2) := thrd_join 14 (db_worker_stop_enqueue w1).2 in
  applied ++ joined = earlier ++ [call_entry WorkerStop] ∧
  World.thrd w2 = STOPPED ∧
  ring_pending (World.ring w2) = [] ∧
  World.db w2
    = foldl (λ db e, switch_db e db) (World.db (small_world Sqlite.empty))
            (earlier ++ [call_entry WorkerStop]) ∧
  store_calls w2 = store_calls (small_world Sqlite.empty)
                   ++ concat (switch_calls <$> earlier) ∧
  db_worker_stop 14 w1
    = ((), World.mk true (World.db w2) (ring_free (World.ring w2)) STOPPED (World.log w2)).
Proof.
  assert (Hwf : ring_wf (World.ring (small_world Sqlite.empty))).
  { apply ring_alloc_wf. lia. }
  assert (Hq : Forall (λ e, RingEntry.type e ≠ EXIT) (queue (small_world Sqlite.empty))).
  { vm_compute. constructor. }
  assert (Hcalls : Forall (λ c, c ≠ WorkerStop) (calls scenario)).
  { simpl. repeat constructor; discriminate. }
  assert (Hfuel : (2 * (length (queue (small_world Sqlite.empty))
                        + length (calls scenario)) + 2 ≤ 14)%nat).
  { vm_compute. lia. }
  refine (conj eq_refl (conj Hwf (conj eq_refl (conj Hq (conj Hcalls (conj Hfuel _)))))).
  exact (exit_after_all_earlier scenario (small_world Sqlite.empty) 14
           eq_refl Hwf eq_refl Hq Hcalls Hfuel).
Defined.

Example block_light_commit_exit :
  let w := (db_worker_stop 8
              (run [Produce (InsertBlock 0 0 1 2 3 55); Produce (InsertLight 0 0 1 2 3 9);
                    Produce Commit]
                   (started Sqlite.empty)).2).2 in
  World.thrd w = STOPPED ∧
  select_block_rows (Sqlite.block (World.db w)) 0 0 = [(1, 2, 3, 55)] ∧
  select_block_rows (Sqlite.light (World.db w)) 0 0 = [(1, 2, 3, 9)] ∧
  select_block_rows (Sqlite.block_damage (World.db w)) 0 0 = [(1, 2, 3, 0)].
Proof. vm_compute. done. Qed.

Example scenario_stop :
  let w := (db_worker_stop 14 (run scenario (small_world Sqlite.empty)).2).2 in
  World.thrd w = STOPPED ∧
  Sqlite.block (World.db w) = [BlockRow.mk 0 0 1 2 3 55] ∧
  Sqlite.light (World.db w) = [BlockRow.mk 0 0 1 2 3 9] ∧
  Sqlite.block_damage (World.db w) = [BlockRow.mk 0 0 4 5 6 7] ∧
  Sqlite.key (World.db w) = [KeyRow.mk 0 0 99].
Proof. vm_compute. done. Qed.

(** ** The store *)

Lemma filter_excluded {A} (P : A → Prop) `{!∀ a, Decision (P a)} (l : list A) :
  filter P (filter (λ a, ¬ P a) l) = [].
Proof.
  induction l as [|a l IH]; [done|].
  rewrite (filter_cons (λ a, ¬ P a)). destruct (decide (¬ P a)) as [Hn|Hn]; [|done].
  rewrite filter_cons. by destruct (decide (P a)).
Qed.

Lemma replace_block_row_same (rows : list BlockRow) (row : BlockRow) :
  filter (λ r, BlockRow.pqxyz r = BlockRow.pqxyz row) (replace_block_row rows row)
  = [row].
Proof.
  unfold replace_block_row. rewrite filter_app.
  rewrite (filter_excluded (λ r, BlockRow.pqxyz r = BlockRow.pqxyz row)).
  rewrite filter_cons. by rewrite decide_True.
Qed.

Lemma emitted_app {A} (m : M A) (w : World) (events : list Event) :
  World.log (m w).2 = World.log w ++ events → emitted m w = events.
Proof. intros Hlog. unfold emitted. by rewrite Hlog, drop_app_length. Qed.

(** C2. When the worker processes a popped BLOCK entry (p, q, x, y, z, w), it
    binds and steps exactly two statements, the block write and then a
    block-damage write of 0 at the same coordinates, and goes back to wait. On a working
    store the block table then has the one row (p, q, x, y, z, w) and the
    block_damage table the one row (p, q, x, y, z, 0) at these coordinates. *)
Theorem write_block_clears_damage (e : RingEntry) (w : World) :
  RingEntry.type e = BLOCK →
  World.thrd w = DRAINING e →
  let coords := (RingEntry.p e, RingEntry.q e, RingEntry.x e, RingEntry.y e,
                 RingEntry.z e) in
  let '(processed, w') := db_worker_run_step w in
  processed = Some e ∧
  World.thrd w' = WAITING ∧
  World.log w' = World.log w ++
    [EvStmt insert_block_stmt
            [Int (RingEntry.p e); Int (RingEntry.q e); Int (RingEntry.x e);
             Int (RingEntry.y e); Int (RingEntry.z e); Int (RingEntry.w e)];
     EvStep insert_block_stmt;
     EvStmt insert_block_damage_stmt
            [Int (RingEntry.p e); Int (RingEntry.q e); Int (RingEntry.x e);
             Int (RingEntry.y e); Int (RingEntry.z e); Int 0];
     EvStep insert_block_damage_stmt] ∧
  (Sqlite.failing (World.db w) = false →
   filter (λ r, BlockRow.pqxyz r = coords) (Sqlite.block (World.db w'))
   = [BlockRow.mk (RingEntry.p e) (RingEntry.q e) (RingEntry.x e) (RingEntry.y e)
                  (RingEntry.z e) (RingEntry.w e)] ∧
   filter (λ r, BlockRow.pqxyz r = coords) (Sqlite.block_damage (World.db w'))
   = [BlockRow.mk (RingEntry.p e) (RingEntry.q e) (RingEntry.x e) (RingEntry.y e)
                  (RingEntry.z e) 0]).
Proof.
  intros Hty Ht coords. rewrite db_worker_run_step_eq, Ht.
  unfold switch_db, switch_calls. rewrite Hty. simpl.
  split_and!; try done.
  intros Hf. unfold write_stmt. rewrite Hf. simpl. rewrite Hf. simpl.
  split.
  - apply (replace_block_row_same _ (BlockRow.mk _ _ _ _ _ _)).
  - apply (replace_block_row_same _ (BlockRow.mk _ _ _ _ _ 0)).
Qed.

Lemma write_block_clears_damage_witness :
  RingEntry.type block_entry = BLOCK ∧
  World.thrd (draining block_entry damaged_db) = DRAINING block_entry ∧
  let e := block_entry in
  let w := draining block_entry damaged_db in
  let coords := (RingEntry.p e, RingEntry.q e, RingEntry.x e, RingEntry.y e,
                 RingEntry.z e) in
  let '(processed, w') := db_worker_run_step w in
  processed = Some e ∧
  World.thrd w' = WAITING ∧
  World.log w' = World.log w ++
    [EvStmt insert_block_stmt
            [Int (RingEntry.p e); Int (RingEntry.q e); Int (RingEntry.x e);
             Int (RingEntry.y e); Int (RingEntry.z e); Int (RingEntry.w e)];
     EvStep insert_block_stmt;
     EvStmt insert_block_damage_stmt
            [Int (RingEntry.p e); Int (RingEntry.q e); Int (RingEntry.x e);
             Int (RingEntry.y e); Int (RingEntry.z e); Int 0];
     EvStep insert_block_damage_stmt] ∧
  (Sqlite.failing (World.db w) = false →
   filter (λ r, BlockRow.pqxyz r = coords) (Sqlite.block (World.db w'))
   = [BlockRow.mk (RingEntry.p e) (RingEntry.q e) (RingEntry.x e) (RingEntry.y e)
                  (RingEntry.z e) (RingEntry.w e)] ∧
   filter (λ r, BlockRow.pqxyz r = coords) (Sqlite.block_damage (World.db w'))
   = [BlockRow.mk (RingEntry.p e) (RingEntry.q e) (RingEntry.x e) (RingEntry.y e)
                  (RingEntry.z e) 0]).
Proof.
  split; [reflexivity|]. split; [reflexivity|].
  exact (write_block_clears_damage block_entry (draining block_entry damaged_db)
           eq_refl eq_refl).
Defined.

Example write_block_run :
  Sqlite.block_damage (World.db (db_worker_run_step (draining block_entry damaged_db)).2)
  = [BlockRow.mk 0 0 4 5 6 7; BlockRow.mk 0 1 1 2 3 0; BlockRow.mk 0 0 7 8 9 0;
     BlockRow.mk 0 0 1 2 3 0].
Proof. vm_compute. done. Qed.

(** C5. When the worker processes a BLOCK_DAMAGE_TRIM entry for chunk (p, q)
    on a working store, the rows left in block_damage are the former rows, in
    their order, without those of chunk (p, q) whose damage is 0: a row is
    there afterwards exactly when it was there before and is not such a row.
    Every other table is as before. *)
Theorem trim_removes_only_zero_rows (e : RingEntry) (w : World) :
  RingEntry.type e = BLOCK_DAMAGE_TRIM →
  World.thrd w = DRAINING e →
  Sqlite.failing (World.db w) = false →
  let db := World.db w in
  let db' := World.db (db_worker_run_step w).2 in
  (∀ r, r ∈ Sqlite.block_damage db' ↔
        r ∈ Sqlite.block_damage db ∧
        ¬ (BlockRow.w r = 0 ∧ BlockRow.p r = RingEntry.p e ∧ BlockRow.q r = RingEntry.q e)) ∧
  Sqlite.block_damage db' `sublist_of` Sqlite.block_damage db ∧
  (∀ r, BlockRow.w r ≠ 0 ∨ BlockRow.pq r ≠ (RingEntry.p e, RingEntry.q e) →
        filter (λ r', r' = r) (Sqlite.block_damage db')
        = filter (λ r', r' = r) (Sqlite.block_damage db)) ∧
  Sqlite.block db' = Sqlite.block db ∧
  Sqlite.light db' = Sqlite.light db ∧
  Sqlite.key db' = Sqlite.key db ∧
  Sqlite.sign db' = Sqlite.sign db ∧
  Sqlite.state db' = Sqlite.state db ∧
  Sqlite.identity_token db' = Sqlite.identity_token db.
Proof.
  intros Hty Ht Hf db db'. subst db db'. rewrite db_worker_run_step_eq, Ht.
  unfold switch_db. rewrite Hty. unfold write_stmt. rewrite Hf. simpl.
  split_and!; try done.
  - intros r. rewrite list_elem_of_filter. tauto.
  - apply sublist_filter.
  - intros r Hr. rewrite list_filter_filter. apply list_filter_iff.
    intros r'. split; [tauto|]. intros ->. split; [done|].
    unfold BlockRow.pq in Hr. intros (? & ? & ?). destruct Hr; congruence.
Qed.

Lemma trim_removes_only_zero_rows_witness :
  RingEntry.type trim_entry = BLOCK_DAMAGE_TRIM ∧
  World.thrd (draining trim_entry damaged_db) = DRAINING trim_entry ∧
  Sqlite.failing (World.db (draining trim_entry damaged_db)) = false ∧
  let e := trim_entry in
  let db := World.db (draining trim_entry damaged_db) in
  let db' := World.db (db_worker_run_step (draining trim_entry damaged_db)).2 in
  (∀ r, r ∈ Sqlite.block_damage db' ↔
        r ∈ Sqlite.block_damage db ∧
        ¬ (BlockRow.w r = 0 ∧ BlockRow.p r = RingEntry.p e ∧ BlockRow.q r = RingEntry.q e)) ∧
  Sqlite.block_damage db' `sublist_of` Sqlite.block_damage db ∧
  (∀ r, BlockRow.w r ≠ 0 ∨ BlockRow.pq r ≠ (RingEntry.p e, RingEntry.q e) →
        filter (λ r', r' = r) (Sqlite.block_damage db')
        = filter (λ r', r' = r) (Sqlite.block_damage db)) ∧
  Sqlite.block db' = Sqlite.block db ∧
  Sqlite.light db' = Sqlite.light db ∧
  Sqlite.key db' = Sqlite.key db ∧
  Sqlite.sign db' = Sqlite.sign db ∧
  Sqlite.state db' = Sqlite.state db ∧
  Sqlite.identity_token db' = Sqlite.identity_token db.
Proof.
  split; [reflexivity|]. split; [reflexivity|]. split; [reflexivity|].
  exact (trim_removes_only_zero_rows trim_entry (draining trim_entry damaged_db)
           eq_refl eq_refl eq_refl).
Defined.

Example trim_run :
  Sqlite.block_damage (World.db (db_worker_run_step (draining trim_entry damaged_db)).2)
  = [BlockRow.mk 0 0 4 5 6 7; BlockRow.mk 0 1 1 2 3 0].
Proof. vm_compute. done. Qed.

(** ** Immediate calls *)

Lemma while_step_eq {A Row} (stmt : Stmt) (rows : list Row) (body : A → Row → A)
      (acc : A) (w : World) :
  while_step stmt rows body acc w =
  (foldl body acc rows,
   World.mk (World.db_enabled w) (World.db w) (World.ring w) (World.thrd w)
            (World.log w ++ replicate (S (length rows)) (EvStep stmt))).
Proof.
  revert acc w. induction rows as [|row rows IH]; intros acc w.
  - reflexivity.
  - simpl. unfold bind, emit. rewrite IH. simpl. by rewrite <- app_assoc.
Qed.

Lemma if_enabled_disabled {A} (r : A) (body : M A) (w : World) :
  World.db_enabled w = false → if_enabled r body w = (r, w).
Proof. intros Hen. unfold if_enabled, get_db_enabled, bind, ret. by rewrite Hen. Qed.

Lemma if_enabled_enabled {A} (r : A) (body : M A) (w : World) :
  World.db_enabled w = true → if_enabled r body w = body w.
Proof. intros Hen. unfold if_enabled, get_db_enabled, bind, ret. by rewrite Hen. Qed.

Lemma db_get_key_eq (p q : Z) (w : World) :
  db_get_key p q w =
  if World.db_enabled w
  then (match first_step (World.db w) (get_key_rows p q (World.db w)) with
        | StepRow key => key
        | _ => 0
        end,
        World.mk true (World.db w) (World.ring w) (World.thrd w)
                 (World.log w ++ [EvStmt get_key_stmt [Int p; Int q];
                                  EvStep get_key_stmt]))
  else (0, w).
Proof.
  destruct (World.db_enabled w) eqn:Hen.
  - unfold db_get_key. rewrite if_enabled_enabled by done.
    unfold bind, emit, read_db, ret. simpl. rewrite Hen, <- app_assoc.
    by destruct (first_step _ _).
  - by apply if_enabled_disabled.
Qed.

(** C7. [db_get_key] returns 0 when the key table has no row for (p, q) and
    also when the store fails: the two cannot be told apart. What it returns
    is the key of the row the step of the point query yields, and 0 in every
    other case; a result other than 0 is the key of a stored row of (p, q).
    The tables are left as they are. *)
Theorem db_get_key_zero_on_miss_or_error (p q : Z) (w : World) :
  let key := (db_get_key p q w).1 in
  let step := first_step (World.db w) (get_key_rows p q (World.db w)) in
  ((∀ r, r ∈ Sqlite.key (World.db w) → KeyRow.pq r ≠ (p, q)) → key = 0) ∧
  (Sqlite.failing (World.db w) = true → key = 0) ∧
  (World.db_enabled w = false → key = 0) ∧
  (World.db_enabled w = true →
   key = match step with StepRow k => k | StepDone | StepError _ => 0 end) ∧
  (key ≠ 0 →
   World.db_enabled w = true ∧ Sqlite.failing (World.db w) = false ∧
   step = StepRow key ∧ KeyRow.mk p q key ∈ Sqlite.key (World.db w)) ∧
  World.db (db_get_key p q w).2 = World.db w.
Proof.
  intros key step. subst key step. rewrite db_get_key_eq.
  unfold first_step, get_key_rows.
  destruct (World.db_enabled w); simpl; [|done].
  destruct (Sqlite.failing (World.db w)); simpl; [done|].
  destruct (filter _ _) as [|r rows] eqn:Hrows; simpl.
  - done.
  - assert (Hr : r ∈ filter (λ r, KeyRow.pq r = (p, q)) (Sqlite.key (World.db w))).
    { rewrite Hrows. left. }
    apply list_elem_of_filter in Hr as [Hpq Hr].
    split_and!; try done.
    + intros Hnone. by destruct (Hnone r Hr).
    + intros _. split_and!; try done.
      destruct r as [p' q' key]. unfold KeyRow.pq in Hpq. simpl in *. congruence.
Qed.

Example db_get_key_run :
  let db := Sqlite.set_key [KeyRow.mk 0 0 7; KeyRow.mk 0 1 9] Sqlite.empty in
  let broken := Sqlite.mk [] [] [] [] [KeyRow.mk 0 0 7; KeyRow.mk 0 1 9] [] [] 0 true [] in
  (db_get_key 0 1 (started db)).1 = 9 ∧
  (db_get_key 5 5 (started db)).1 = 0 ∧
  (db_get_key 0 1 (started broken)).1 = 0.
Proof. vm_compute. done. Qed.

(** C6. With persistence disabled every entry point returns at once: the
    enqueue calls, the commit, the sign, state and credential calls, the
    loads, the key read, and the start, stop, opening and closing. The result
    is the zero or empty one, and the state is the one before the call: the
    ring has not grown, the log has no new store call, the tables and the
    worker are untouched. *)
Theorem disabled_is_noop (w : World) :
  World.db_enabled w = false →
  (∀ p q x y z v, db_insert_block p q x y z v w = ((), w)) ∧
  (∀ p q x y z v, db_insert_light p q x y z v w = ((), w)) ∧
  (∀ p q x y z damage, db_insert_block_damage p q x y z damage w = ((), w)) ∧
  (∀ p q, db_trim_block_damage p q w = ((), w)) ∧
  (∀ p q key, db_set_key p q key w = ((), w)) ∧
  db_commit w = ((), w) ∧
  (∀ p q x y z face text, db_insert_sign p q x y z face text w = ((), w)) ∧
  (∀ x y z face, db_delete_sign x y z face w = ((), w)) ∧
  (∀ x y z, db_delete_signs x y z w = ((), w)) ∧
  db_delete_all_signs w = ((), w) ∧
  (∀ x y z rx ry flying, db_save_state x y z rx ry flying w = ((), w)) ∧
  db_load_state w = ((0, None), w) ∧
  (∀ username token, db_auth_set username token w = ((), w)) ∧
  (∀ username, db_auth_select username w = (0, w)) ∧
  db_auth_select_none w = ((), w) ∧
  (∀ username n, db_auth_get username n w = ((0, None), w)) ∧
  (∀ n m, db_auth_get_selected n m w = ((0, None), w)) ∧
  (∀ Map (map_set : Map → Z → Z → Z → Z → Map) map p q,
     db_load_blocks map_set map p q w = (map, w)) ∧
  (∀ Map (map_set : Map → Z → Z → Z → Z → Map) map p q,
     db_load_lights map_set map p q w = (map, w)) ∧
  (∀ Map (map_set : Map → Z → Z → Z → Z → Map) map p q,
     db_load_damage map_set map p q w = (map, w)) ∧
  (∀ SignList (sign_list_add : SignList → Z → Z → Z → Z → string → SignList) list p q,
     db_load_signs sign_list_add list p q w = (list, w)) ∧
  (∀ p q, db_get_key p q w = (0, w)) ∧
  db_worker_start w = ((), w) ∧
  (∀ fuel, db_worker_stop fuel w = ((), w)) ∧
  (∀ path, db_init path w = (0, w)) ∧
  (∀ fuel, db_close fuel w = ((), w)).
Proof.
  intros Hen. split_and!; intros; by apply if_enabled_disabled.
Qed.

Lemma disabled_is_noop_witness :
  World.db_enabled disabled_world = false ∧
  let w := disabled_world in
  (∀ p q x y z v, db_insert_block p q x y z v w = ((), w)) ∧
  (∀ p q x y z v, db_insert_light p q x y z v w = ((), w)) ∧
  (∀ p q x y z damage, db_insert_block_damage p q x y z damage w = ((), w)) ∧
  (∀ p q, db_trim_block_damage p q w = ((), w)) ∧
  (∀ p q key, db_set_key p q key w = ((), w)) ∧
  db_commit w = ((), w) ∧
  (∀ p q x y z face text, db_insert_sign p q x y z face text w = ((), w)) ∧
  (∀ x y z face, db_delete_sign x y z face w = ((), w)) ∧
  (∀ x y z, db_delete_signs x y z w = ((), w)) ∧
  db_delete_all_signs w = ((), w) ∧
  (∀ x y z rx ry flying, db_save_state x y z rx ry flying w = ((), w)) ∧
  db_load_state w = ((0, None), w) ∧
  (∀ username token, db_auth_set username token w = ((), w)) ∧
  (∀ username, db_auth_select username w = (0, w)) ∧
  db_auth_select_none w = ((), w) ∧
  (∀ username n, db_auth_get username n w = ((0, None), w)) ∧
  (∀ n m, db_auth_get_selected n m w = ((0, None), w)) ∧
  (∀ Map (map_set : Map → Z → Z → Z → Z → Map) map p q,
     db_load_blocks map_set map p q w = (map, w)) ∧
  (∀ Map (map_set : Map → Z → Z → Z → Z → Map) map p q,
     db_load_lights map_set map p q w = (map, w)) ∧
  (∀ Map (map_set : Map → Z → Z → Z → Z → Map) map p q,
     db_load_damage map_set map p q w = (map, w)) ∧
  (∀ SignList (sign_list_add : SignList → Z → Z → Z → Z → string → SignList) list p q,
     db_load_signs sign_list_add list p q w = (list, w)) ∧
  (∀ p q, db_get_key p q w = (0, w)) ∧
  db_worker_start w = ((), w) ∧
  (∀ fuel, db_worker_stop fuel w = ((), w)) ∧
  (∀ path, db_init path w = (0, w)) ∧
  (∀ fuel, db_close fuel w = ((), w)).
Proof.
  split; [reflexivity|]. exact (disabled_is_noop disabled_world eq_refl).
Defined.

Lemma foldl_load_damage_row {Map} (map_set : Map → Z → Z → Z → Z → Map)
      (rows : list (Z * Z * Z * Z)) (map : Map) :
  foldl (load_damage_row map_set) map rows
  = foldl (λ m '(x, y, z, d), map_set m x y z d) map (filter (λ row, row.2 ≠ 0) rows).
Proof.
  revert map. induction rows as [|[[[x y] z] d] rows IH]; intros map; [done|].
  rewrite filter_cons. simpl. destruct (Z.eqb_spec d 0) as [->|Hd].
  - by rewrite decide_False by (intros Hn; by apply Hn).
  - by rewrite decide_True.
Qed.

Lemma db_load_damage_eq {Map} (map_set : Map → Z → Z → Z → Z → Map) (map : Map)
      (p q : Z) (w : World) :
  let rows := stepped_rows (World.db w)
                (select_block_rows (Sqlite.block_damage (World.db w)) p q) in
  db_load_damage map_set map p q w =
  if World.db_enabled w
  then (foldl (load_damage_row map_set) map rows,
        World.mk true (World.db w) (World.ring w) (World.thrd w)
                 (World.log w ++
                  EvLock load_mtx :: EvStmt load_block_damage_stmt [Int p; Int q]
                  :: replicate (S (length rows)) (EvStep load_block_damage_stmt)
                  ++ [EvUnlock load_mtx]))
  else (map, w).
Proof.
  intros rows. destruct (World.db_enabled w) eqn:Hen.
  - unfold db_load_damage. rewrite if_enabled_enabled by done.
    unfold bind, mtx_lock, mtx_unlock, emit, read_db, ret. simpl.
    rewrite while_step_eq. fold rows. simpl.
    by rewrite Hen, <- !app_assoc.
  - by apply if_enabled_disabled.
Qed.

(** C9. [db_load_damage] calls [map_set] for the rows of the chunk whose
    damage is not 0, and for no other: the map it leaves is the given one
    after these calls, none of which passes a damage of 0. On a working store
    with persistence enabled every such row is passed. For a map where writing
    one position leaves the others as they were, a position whose rows in the
    chunk all have damage 0 reads after the load as it did before. *)
Theorem db_load_damage_skips_zero {Map} (map_set : Map → Z → Z → Z → Z → Map)
        (map : Map) (p q : Z) (w : World) :
  ∃ calls : list (Z * Z * Z * Z),
    (db_load_damage map_set map p q w).1
    = foldl (λ m '(x, y, z, d), map_set m x y z d) map calls ∧
    (∀ x y z d, (x, y, z, d) ∈ calls →
       d ≠ 0 ∧ BlockRow.mk p q x y z d ∈ Sqlite.block_damage (World.db w)) ∧
    (World.db_enabled w = true → Sqlite.failing (World.db w) = false →
     ∀ x y z d, BlockRow.mk p q x y z d ∈ Sqlite.block_damage (World.db w) →
                d ≠ 0 → (x, y, z, d) ∈ calls) ∧
    (∀ map_get : Map → Z → Z → Z → Z,
       (∀ m x y z d x' y' z',
          (x, y, z) ≠ (x', y', z') →
          map_get (map_set m x y z d) x' y' z' = map_get m x' y' z') →
       ∀ x y z,
         (∀ d, BlockRow.mk p q x y z d ∈ Sqlite.block_damage (World.db w) → d = 0) →
         map_get (db_load_damage map_set map p q w).1 x y z = map_get map x y z).
Proof.
  set (rows := if World.db_enabled w
               then stepped_rows (World.db w)
                      (select_block_rows (Sqlite.block_damage (World.db w)) p q)
               else []).
  assert (Hload : (db_load_damage map_set map p q w).1
                  = foldl (λ m '(x, y, z, d), map_set m x y z d) map
                          (filter (λ row, row.2 ≠ 0) rows)).
  { rewrite db_load_damage_eq. unfold rows.
    destruct (World.db_enabled w); [|done]. simpl. apply foldl_load_damage_row. }
  assert (Hrows : ∀ x y z d, (x, y, z, d) ∈ rows →
                             BlockRow.mk p q x y z d ∈ Sqlite.block_damage (World.db w)).
  { intros x y z d. unfold rows, stepped_rows, select_block_rows.
    destruct (World.db_enabled w); [|by intros ?%elem_of_nil].
    destruct (Sqlite.failing (World.db w)); [by intros ?%elem_of_nil|].
    intros ([p' q' x' y' z' d'] & Heq & Hr)%list_elem_of_fmap.
    apply list_elem_of_filter in Hr as [Hpq Hr].
    unfold BlockRow.xyzw, BlockRow.pq in *. simpl in *. congruence. }
  exists (filter (λ row, row.2 ≠ 0) rows). split_and!.
  - done.
  - intros x y z d [Hd Hin]%list_elem_of_filter. split; [done|]. by apply Hrows.
  - intros Hen Hf x y z d Hin Hd. apply list_elem_of_filter. split; [done|].
    unfold rows, stepped_rows, select_block_rows. rewrite Hen, Hf.
    apply list_elem_of_fmap. exists (BlockRow.mk p q x y z d). split; [done|].
    by apply list_elem_of_filter.
  - intros map_get Hother x y z Hzero. rewrite Hload.
    assert (Hcalls : Forall (λ row, row.1 ≠ (x, y, z)) (filter (λ row, row.2 ≠ 0) rows)).
    { apply Forall_forall. intros [[[x' y'] z'] d] [Hd Hin]%list_elem_of_filter.
      simpl in *. intros [= -> -> ->]. apply Hd, Hzero. by apply Hrows. }
    clear Hload. revert map. induction Hcalls as [|[[[x' y'] z'] d] calls Hne _ IH];
      intros map; [done|].
    simpl. rewrite IH. by apply Hother.
Qed.

Example db_load_damage_run :
  (db_load_damage call_log_set [] 0 0 (started damaged_db)).1 = [(4, 5, 6, 7)].
Proof. vm_compute. done. Qed.

Lemma db_save_state_eq (x y z rx ry : float) (flying : Z) (w : World) :
  World.db_enabled w = true →
  db_save_state x y z rx ry flying w =
  ((), World.mk true
         (insert_state_stmt x y z rx ry flying
            (write_stmt (World.db w) delete_state_run).2).2
         (World.ring w) (World.thrd w)
         (World.log w ++
          [EvExec "delete from state;";
           EvLocalStmt
             "insert into state (x, y, z, rx, ry, flying) values (?, ?, ?, ?, ?, ?);"
             [Double x; Double y; Double z; Double rx; Double ry; Int flying]])).
Proof.
  intros Hen. unfold db_save_state. rewrite if_enabled_enabled by done.
  unfold sqlite3_exec, bind, emit, on_db, ret. simpl. rewrite Hen.
  destruct (write_stmt (World.db w) delete_state_run) as [rc db1]. simpl.
  destruct (insert_state_stmt x y z rx ry flying db1) as [rc' db2]. simpl.
  by rewrite <- app_assoc.
Qed.

Lemma db_load_state_eq (w : World) :
  World.db_enabled w = true →
  db_load_state w =
  (match first_step (World.db w) (Sqlite.state (World.db w)) with
   | StepRow row => (1, Some row)
   | _ => (0, None)
   end,
   World.mk true (World.db w) (World.ring w) (World.thrd w)
            (World.log w ++ [EvLocalStmt "select x, y, z, rx, ry, flying from state;" []])).
Proof.
  intros Hen. unfold db_load_state. rewrite if_enabled_enabled by done.
  unfold bind, emit, read_db, ret. cbn [World.db World.db_enabled World.ring
    World.thrd World.log]. rewrite Hen. by destruct (first_step _ _).
Qed.

(** C10. With persistence enabled and a working store, [db_save_state] makes
    two store calls, the deletion of all state rows and then the insertion of
    one, and leaves at most one row in the state table. When none of the five
    floats is a NaN the table holds exactly one row, made of the saved flag
    and of the saved floats as their columns give them back, and a following
    [db_load_state] returns 1 with these values: they are the saved ones,
    except that a negative zero comes back as positive zero. *)
Theorem db_save_state_then_load (x y z rx ry : float) (flying : Z) (w : World) :
  World.db_enabled w = true →
  Sqlite.failing (World.db w) = false →
  let w' := (db_save_state x y z rx ry flying w).2 in
  let row := StateRow.mk (real_column x) (real_column y) (real_column z)
                         (real_column rx) (real_column ry) flying in
  emitted (db_save_state x y z rx ry flying) w =
    [EvExec "delete from state;";
     EvLocalStmt "insert into state (x, y, z, rx, ry, flying) values (?, ?, ?, ?, ?, ?);"
                 [Double x; Double y; Double z; Double rx; Double ry; Int flying]] ∧
  (length (Sqlite.state (World.db w')) ≤ 1)%nat ∧
  (existsb float_is_nan [x; y; z; rx; ry] = false →
   Sqlite.state (World.db w') = [row] ∧
   (db_load_state w').1 = (1, Some row)) ∧
  (Forall (λ f, f ≠ negative_zero) [x; y; z; rx; ry] →
   row = StateRow.mk x y z rx ry flying).
Proof.
  intros Hen Hf w' row. subst w'. split.
  { apply emitted_app. by rewrite db_save_state_eq. }
  rewrite db_save_state_eq by done.
  assert (Hdel : (write_stmt (World.db w) delete_state_run).2
                 = Sqlite.set_changes (Z.of_nat (length (Sqlite.state (World.db w))))
                                      (Sqlite.set_state [] (World.db w))).
  { unfold write_stmt. by rewrite Hf. }
  rewrite Hdel. clear Hdel. unfold insert_state_stmt.
  cbn [Sqlite.failing Sqlite.set_changes Sqlite.set_state Sqlite.state]. rewrite Hf.
  assert (Hsame : Forall (λ f, f ≠ negative_zero) [x; y; z; rx; ry] →
                  row = StateRow.mk x y z rx ry flying).
  { intros Hnz. subst row.
    assert (Hcol : ∀ f, f ≠ negative_zero → real_column f = f).
    { intros f Hne. unfold real_column. by destruct (Z.eqb_spec f negative_zero). }
    rewrite !Forall_cons in Hnz. destruct Hnz as (? & ? & ? & ? & ? & _).
    by rewrite !Hcol. }
  destruct (existsb float_is_nan [x; y; z; rx; ry]).
  - cbn [snd World.db Sqlite.state Sqlite.set_changes Sqlite.set_state length].
    split_and!; [lia|done|done].
  - cbn [snd World.db Sqlite.state Sqlite.set_changes Sqlite.set_state length app].
    split_and!; [lia| |done]. intros _. split; [done|].
    rewrite db_load_state_eq by done. unfold first_step.
    cbn [fst snd World.db]. unfold Sqlite.set_changes, Sqlite.set_state.
    cbn [Sqlite.failing Sqlite.state]. by rewrite Hf.
Qed.

Lemma db_save_state_then_load_witness :
  World.db_enabled (started stocked_db) = true ∧
  Sqlite.failing (World.db (started stocked_db)) = false ∧
  let x := negative_zero in
  let w := started stocked_db in
  let w' := (db_save_state x 2 3 4 5 1 w).2 in
  let row := StateRow.mk (real_column x) (real_column 2) (real_column 3)
                         (real_column 4) (real_column 5) 1 in
  emitted (db_save_state x 2 3 4 5 1) w =
    [EvExec "delete from state;";
     EvLocalStmt "insert into state (x, y, z, rx, ry, flying) values (?, ?, ?, ?, ?, ?);"
                 [Double x; Double 2; Double 3; Double 4; Double 5; Int 1]] ∧
  (length (Sqlite.state (World.db w')) ≤ 1)%nat ∧
  (existsb float_is_nan [x; 2; 3; 4; 5] = false →
   Sqlite.state (World.db w') = [row] ∧
   (db_load_state w').1 = (1, Some row)) ∧
  (Forall (λ f, f ≠ negative_zero) [x; 2; 3; 4; 5] →
   row = StateRow.mk x 2 3 4 5 1).
Proof.
  split; [reflexivity|]. split; [reflexivity|].
  exact (db_save_state_then_load negative_zero 2 3 4 5 1 (started stocked_db)
           eq_refl eq_refl).
Defined.

Example db_save_state_run :
  let w' := (db_save_state 1065353216 2 3 4 5 1 (started stocked_db)).2 in
  existsb float_is_nan [1065353216; 2; 3; 4; 5] = false ∧
  (db_load_state w').1 = (1, Some (StateRow.mk 1065353216 2 3 4 5 1)).
Proof. vm_compute. done. Qed.

(** C10, as stated, fails in four ways. With persistence disabled the save is
    skipped and the load returns 0. On a store that does not execute the
    statements nothing is saved and the load returns 0. With a NaN among the
    floats, on a working store, the old row is deleted, the new one refused,
    and the load returns 0. And a saved negative zero, which is no NaN, is
    loaded as positive zero: the load returns 1, but not with the saved
    value. *)
Lemma db_save_state_not_always_loaded :
  (let w := World.mk false Sqlite.empty (ring_alloc 2) NOT_STARTED [] in
   let w' := (db_save_state 1 2 3 4 5 1 w).2 in
   Sqlite.state (World.db w') = [] ∧ (db_load_state w').1 = (0, None)) ∧
  (let w := started broken_db in
   let w' := (db_save_state 1 2 3 4 5 1 w).2 in
   World.db_enabled w = true ∧
   Sqlite.state (World.db w') = [] ∧ (db_load_state w').1 = (0, None)) ∧
  (let w := (db_save_state 1 2 3 4 5 1 (started stocked_db)).2 in
   let w' := (db_save_state 2143289344 2 3 4 5 1 w).2 in
   World.db_enabled w = true ∧ Sqlite.failing (World.db w) = false ∧
   Sqlite.state (World.db w) = [StateRow.mk 1 2 3 4 5 1] ∧
   Sqlite.state (World.db w') = [] ∧ (db_load_state w').1 = (0, None)) ∧
  (let w := started stocked_db in
   let w' := (db_save_state negative_zero 2 3 4 5 1 w).2 in
   World.db_enabled w = true ∧ Sqlite.failing (World.db w) = false ∧
   existsb float_is_nan [negative_zero; 2; 3; 4; 5] = false ∧
   (db_load_state w').1 = (1, Some (StateRow.mk 0 2 3 4 5 1)) ∧
   (db_load_state w').1 ≠ (1, Some (StateRow.mk negative_zero 2 3 4 5 1))).
Proof. vm_compute. split_and!; done. Qed.

Lemma db_load_blocks_eq {Map} (map_set : Map → Z → Z → Z → Z → Map) (map : Map)
      (p q : Z) (w : World) :
  World.db_enabled w = true →
  let rows := stepped_rows (World.db w)
                (select_block_rows (Sqlite.block (World.db w)) p q) in
  db_load_blocks map_set map p q w =
  (foldl (λ map '(x, y, z, v), map_set map x y z v) map rows,
   World.mk true (World.db w) (World.ring w) (World.thrd w)
            (World.log w ++
             EvLock load_mtx :: EvStmt load_blocks_stmt [Int p; Int q]
             :: replicate (S (length rows)) (EvStep load_blocks_stmt)
             ++ [EvUnlock load_mtx])).
Proof.
  intros Hen rows. unfold db_load_blocks. rewrite if_enabled_enabled by done.
  unfold bind, mtx_lock, mtx_unlock, emit, read_db, ret. simpl.
  rewrite while_step_eq. fold rows. simpl.
  by rewrite Hen, <- !app_assoc.
Qed.

Lemma db_load_lights_eq {Map} (map_set : Map → Z → Z → Z → Z → Map) (map : Map)
      (p q : Z) (w : World) :
  World.db_enabled w = true →
  let rows := stepped_rows (World.db w)
                (select_block_rows (Sqlite.light (World.db w)) p q) in
  db_load_lights map_set map p q w =
  (foldl (λ map '(x, y, z, v), map_set map x y z v) map rows,
   World.mk true (World.db w) (World.ring w) (World.thrd w)
            (World.log w ++
             EvLock load_mtx :: EvStmt load_lights_stmt [Int p; Int q]
             :: replicate (S (length rows)) (EvStep load_lights_stmt)
             ++ [EvUnlock load_mtx])).
Proof.
  intros Hen rows. unfold db_load_lights. rewrite if_enabled_enabled by done.
  unfold bind, mtx_lock, mtx_unlock, emit, read_db, ret. simpl.
  rewrite while_step_eq. fold rows. simpl.
  by rewrite Hen, <- !app_assoc.
Qed.

Lemma db_load_signs_eq {SignList}
      (sign_list_add : SignList → Z → Z → Z → Z → string → SignList)
      (list : SignList) (p q : Z) (w : World) :
  World.db_enabled w = true →
  let rows := stepped_rows (World.db w) (load_signs_rows p q (World.db w)) in
  db_load_signs sign_list_add list p q w =
  (foldl (λ list '(x, y, z, face, text), sign_list_add list x y z face text) list rows,
   World.mk true (World.db w) (World.ring w) (World.thrd w)
            (World.log w ++
             EvStmt load_signs_stmt [Int p; Int q]
             :: replicate (S (length rows)) (EvStep load_signs_stmt))).
Proof.
  intros Hen rows. unfold db_load_signs. rewrite if_enabled_enabled by done.
  unfold bind, emit, read_db, ret. simpl.
  rewrite while_step_eq. fold rows. simpl.
  by rewrite Hen, <- !app_assoc.
Qed.











Example float_is_nan_run :
  float_is_nan 2143289344 = true ∧     (* 0x7fc00000, a quiet NaN *)
  float_is_nan 2139095040 = false ∧    (* 0x7f800000, +infinity *)
  float_is_nan 1065353216 = false.     (* 0x3f800000, 1.0 *)
Proof. vm_compute. done. Qed.

Example db_save_state_nan_run :
  let w' := (db_save_state 2143289344 0 0 0 0 0 (started stocked_db)).2 in
  Sqlite.state (World.db w') = [] ∧ (db_load_state w').1 = (0, None).
Proof. vm_compute. done. Qed.

(** ** More on the store: round trips, frames and invariants *)

Lemma filter_fmap_comm {A B} (f : A → B) (P : B → Prop) `{!∀ b, Decision (P b)}
      (l : list A) :
  filter P (f <$> l) = f <$> filter (λ a, P (f a)) l.
Proof.
  induction l as [|a l IH]; [done|].
  rewrite fmap_cons, !filter_cons, IH. by destruct (decide (P (f a))).
Qed.

Lemma filter_comm {A} (P Q : A → Prop) `{!∀ a, Decision (P a)} `{!∀ a, Decision (Q a)}
      (l : list A) :
  filter P (filter Q l) = filter Q (filter P l).
Proof. rewrite !list_filter_filter. apply list_filter_iff. intros a. tauto. Qed.

Lemma filter_all {A} (P : A → Prop) `{!∀ a, Decision (P a)} (l : list A) :
  Forall P l → filter P l = l.
Proof.
  induction 1 as [|a l Ha _ IH]; [done|].
  by rewrite filter_cons, decide_True, IH.
Qed.

Lemma filter_none {A} (P : A → Prop) `{!∀ a, Decision (P a)} (l : list A) :
  Forall (λ a, ¬ P a) l → filter P l = [].
Proof.
  induction 1 as [|a l Ha _ IH]; [done|].
  by rewrite filter_cons, decide_False, IH.
Qed.

Lemma step_stmt_eq (stmt : Stmt) (args : list Value) (run : sqlite3 → sqlite3 * Z)
      (w : World) :
  step_stmt stmt args run w =
  ((write_stmt (World.db w) run).1,
   World.mk (World.db_enabled w) (write_stmt (World.db w) run).2 (World.ring w)
            (World.thrd w) (World.log w ++ [EvStmt stmt args; EvStep stmt])).
Proof.
  unfold step_stmt, bind, emit, on_db.
  cbn [World.db World.db_enabled World.ring World.thrd World.log].
  destruct (write_stmt (World.db w) run) as [rc db']. by rewrite <- app_assoc.
Qed.

Lemma sqlite3_exec_eq (sql : string) (run : sqlite3 → sqlite3 * Z) (w : World) :
  sqlite3_exec sql run w =
  ((write_stmt (World.db w) run).1,
   World.mk (World.db_enabled w) (write_stmt (World.db w) run).2 (World.ring w)
            (World.thrd w) (World.log w ++ [EvExec sql])).
Proof.
  unfold sqlite3_exec, bind, emit, on_db.
  cbn [World.db World.db_enabled World.ring World.thrd World.log].
  by destruct (write_stmt (World.db w) run) as [rc db'].
Qed.

Lemma write_stmt_working (db : sqlite3) (run : sqlite3 → sqlite3 * Z) :
  Sqlite.failing db = false →
  (write_stmt db run).2 = Sqlite.set_changes (run db).2 (run db).1.
Proof. intros Hf. unfold write_stmt. rewrite Hf. by destruct (run db). Qed.

Lemma write_stmt_failing (db : sqlite3) (run : sqlite3 → sqlite3 * Z) :
  Sqlite.failing db = true → write_stmt db run = (SQLITE_ERROR, db).
Proof. intros Hf. unfold write_stmt. by rewrite Hf. Qed.

Lemma db_insert_sign_db (p q x y z face : Z) (text : string) (w : World) :
  World.db_enabled w = true →
  (db_insert_sign p q x y z face text w).2 =
  World.mk true (write_stmt (World.db w) (insert_sign_run p q x y z face text)).2
           (World.ring w) (World.thrd w)
           (World.log w ++ [EvStmt insert_sign_stmt
                              [Int p; Int q; Int x; Int y; Int z; Int face; Text text];
                            EvStep insert_sign_stmt]).
Proof.
  intros Hen. unfold db_insert_sign. rewrite if_enabled_enabled by done.
  unfold bind. rewrite step_stmt_eq. unfold ret. simpl. by rewrite Hen.
Qed.

Lemma db_delete_sign_db (x y z face : Z) (w : World) :
  World.db_enabled w = true →
  (db_delete_sign x y z face w).2 =
  World.mk true (write_stmt (World.db w) (delete_sign_run x y z face)).2
           (World.ring w) (World.thrd w)
           (World.log w ++ [EvStmt delete_sign_stmt [Int x; Int y; Int z; Int face];
                            EvStep delete_sign_stmt]).
Proof.
  intros Hen. unfold db_delete_sign. rewrite if_enabled_enabled by done.
  unfold bind. rewrite step_stmt_eq. unfold ret. simpl. by rewrite Hen.
Qed.

Lemma db_delete_signs_db (x y z : Z) (w : World) :
  World.db_enabled w = true →
  (db_delete_signs x y z w).2 =
  World.mk true (write_stmt (World.db w) (delete_signs_run x y z)).2
           (World.ring w) (World.thrd w)
           (World.log w ++ [EvStmt delete_signs_stmt [Int x; Int y; Int z];
                            EvStep delete_signs_stmt]).
Proof.
  intros Hen. unfold db_delete_signs. rewrite if_enabled_enabled by done.
  unfold bind. rewrite step_stmt_eq. unfold ret. simpl. by rewrite Hen.
Qed.

Lemma db_delete_all_signs_db (w : World) :
  World.db_enabled w = true →
  (db_delete_all_signs w).2 =
  World.mk true (write_stmt (World.db w) delete_all_signs_run).2
           (World.ring w) (World.thrd w) (World.log w ++ [EvExec "delete from sign;"]).
Proof.
  intros Hen. unfold db_delete_all_signs. rewrite if_enabled_enabled by done.
  unfold bind. rewrite sqlite3_exec_eq. unfold ret. simpl. by rewrite Hen.
Qed.

Lemma db_load_signs_result {SignList}
      (sign_list_add : SignList → Z → Z → Z → Z → string → SignList)
      (list : SignList) (p q : Z) (w : World) :
  World.db_enabled w = true →
  Sqlite.failing (World.db w) = false →
  (db_load_signs sign_list_add list p q w).1
  = foldl (λ list '(x, y, z, face, text), sign_list_add list x y z face text) list
          (load_signs_rows p q (World.db w)).
Proof.
  intros Hen Hf. rewrite db_load_signs_eq by done. cbv zeta. unfold stepped_rows.
  by rewrite Hf.
Qed.

Lemma load_signs_rows_without (p q : Z) (k : Z * Z * Z * Z) (db : sqlite3) :
  load_signs_rows p q
    (Sqlite.set_sign (filter (λ r, SignRow.xyzface r ≠ k) (Sqlite.sign db)) db)
  = filter (λ s, s.1 ≠ k) (load_signs_rows p q db).
Proof.
  unfold load_signs_rows. cbn [Sqlite.sign Sqlite.set_sign].
  rewrite filter_fmap_comm. f_equal. apply filter_comm.
Qed.

Lemma load_signs_rows_insert (p q x y z face : Z) (text : string) (n : Z) (p' q' : Z)
      (db : sqlite3) :
  load_signs_rows p' q'
    (Sqlite.set_changes n
       (Sqlite.set_sign
          (filter (λ r, SignRow.xyzface r ≠ (x, y, z, face)) (Sqlite.sign db)
           ++ [SignRow.mk p q x y z face text]) db))
  = filter (λ s, s.1 ≠ (x, y, z, face)) (load_signs_rows p' q' db)
    ++ (if decide ((p, q) = (p', q')) then [(x, y, z, face, text)] else []).
Proof.
  rewrite <- load_signs_rows_without. unfold load_signs_rows.
  cbn [Sqlite.sign Sqlite.set_sign Sqlite.set_changes].
  rewrite filter_app, fmap_app. f_equal.
  rewrite filter_cons. unfold SignRow.pq at 1. cbn [SignRow.p SignRow.q].
  by destruct (decide ((p, q) = (p', q'))).
Qed.

(** X1. After [db_insert_sign], a [db_load_signs] of the sign's chunk adds,
    once each and in some order, the sign written and the chunk's signs on
    other faces. The sign replaces any sign recorded on the same face, also one
    recorded under another chunk, whose load then no longer has it. *)
Theorem db_insert_sign_then_load {SignList}
        (sign_list_add : SignList → Z → Z → Z → Z → string → SignList)
        (list : SignList) (p q x y z face : Z) (text : string) (w : World) :
  World.db_enabled w = true →
  Sqlite.failing (World.db w) = false →
  let w' := (db_insert_sign p q x y z face text w).2 in
  let add := λ list '(x, y, z, face, text), sign_list_add list x y z face text in
  (∃ rows,
     rows ≡ₚ (x, y, z, face, text)
             :: filter (λ s, s.1 ≠ (x, y, z, face)) (load_signs_rows p q (World.db w)) ∧
     (db_load_signs sign_list_add list p q w').1 = foldl add list rows) ∧
  (∀ p' q', (p, q) ≠ (p', q') →
     (db_load_signs sign_list_add list p' q' w').1
     = foldl add list (filter (λ s, s.1 ≠ (x, y, z, face))
                              (load_signs_rows p' q' (World.db w)))) ∧
  filter (λ r, SignRow.xyzface r = (x, y, z, face)) (Sqlite.sign (World.db w'))
  = [SignRow.mk p q x y z face text].
Proof.
  intros Hen Hf w' add. subst w'. rewrite db_insert_sign_db by done.
  rewrite write_stmt_working by done. unfold insert_sign_run. cbn [fst snd].
  split_and!.
  - eexists. split; [symmetry; apply Permutation_cons_append|].
    rewrite db_load_signs_result by done. cbn [World.db].
    by rewrite load_signs_rows_insert, decide_True by done.
  - intros p' q' Hne. rewrite db_load_signs_result by done. cbn [World.db].
    by rewrite load_signs_rows_insert, decide_False, app_nil_r by done.
  - cbn [World.db Sqlite.sign Sqlite.set_sign Sqlite.set_changes].
    rewrite filter_app, (filter_excluded (λ r, SignRow.xyzface r = (x, y, z, face))).
    by rewrite filter_cons, decide_True.
Qed.

Lemma db_insert_sign_then_load_witness :
  World.db_enabled (started stocked_db) = true ∧
  Sqlite.failing (World.db (started stocked_db)) = false ∧
  let sign_list_add := λ (signs : list string) (_ _ _ _ : Z) text, text :: signs in
  let w := started stocked_db in
  let w' := (db_insert_sign 5 5 1 2 3 4 "bye" w).2 in
  let add := λ list '(x, y, z, face, text), sign_list_add list x y z face text in
  (∃ rows,
     rows ≡ₚ (1, 2, 3, 4, "bye")
             :: filter (λ s, s.1 ≠ (1, 2, 3, 4)) (load_signs_rows 5 5 (World.db w)) ∧
     (db_load_signs sign_list_add [] 5 5 w').1 = foldl add [] rows) ∧
  (∀ p' q', (5, 5) ≠ (p', q') →
     (db_load_signs sign_list_add [] p' q' w').1
     = foldl add [] (filter (λ s, s.1 ≠ (1, 2, 3, 4))
                            (load_signs_rows p' q' (World.db w)))) ∧
  filter (λ r, SignRow.xyzface r = (1, 2, 3, 4)) (Sqlite.sign (World.db w'))
  = [SignRow.mk 5 5 1 2 3 4 "bye"].
Proof.
  split; [reflexivity|]. split; [reflexivity|].
  exact (db_insert_sign_then_load
           (λ (signs : list string) (_ _ _ _ : Z) text, text :: signs) []
           5 5 1 2 3 4 "bye" (started stocked_db) eq_refl eq_refl).
Defined.

Example db_insert_sign_moves_chunk :
  let w' := (db_insert_sign 5 5 1 2 3 4 "bye" (started stocked_db)).2 in
  load_signs_rows 0 0 (World.db (started stocked_db)) = [(1, 2, 3, 4, "hello")] ∧
  load_signs_rows 0 0 (World.db w') = [] ∧
  load_signs_rows 5 5 (World.db w') = [(1, 2, 3, 4, "bye")].
Proof. vm_compute. done. Qed.

(** X2. [db_delete_sign] removes the sign on the given face of the given
    block and no other: every chunk then loads its former signs without that
    one, and deleting a sign just inserted on that face leaves the table as
    deleting alone does. [db_delete_signs] removes the signs on all faces of
    the block, [db_delete_all_signs] all signs. *)
Theorem db_delete_sign_effects (x y z face : Z) (w : World) :
  World.db_enabled w = true →
  Sqlite.failing (World.db w) = false →
  (∀ p q, load_signs_rows p q (World.db (db_delete_sign x y z face w).2)
          = filter (λ s, s.1 ≠ (x, y, z, face)) (load_signs_rows p q (World.db w))) ∧
  (∀ p q text,
     Sqlite.sign (World.db (db_delete_sign x y z face
                              (db_insert_sign p q x y z face text w).2).2)
     = Sqlite.sign (World.db (db_delete_sign x y z face w).2)) ∧
  (∀ p q, load_signs_rows p q (World.db (db_delete_signs x y z w).2)
          = filter (λ s, s.1.1 ≠ (x, y, z)) (load_signs_rows p q (World.db w))) ∧
  (∀ p q, load_signs_rows p q (World.db (db_delete_all_signs w).2) = []).
Proof.
  intros Hen Hf. split_and!.
  - intros p q. rewrite db_delete_sign_db, write_stmt_working by done.
    unfold delete_sign_run. cbn [fst snd World.db].
    unfold Sqlite.set_changes at 1.
    rewrite <- load_signs_rows_without. unfold load_signs_rows. by cbn.
  - intros p q text. rewrite db_insert_sign_db by done.
    rewrite !db_delete_sign_db by done. cbn [World.db].
    rewrite (write_stmt_working (World.db w) (insert_sign_run _ _ _ _ _ _ _)) by done.
    rewrite !write_stmt_working by done.
    unfold delete_sign_run, insert_sign_run.
    cbn [fst snd Sqlite.sign Sqlite.set_sign Sqlite.set_changes].
    rewrite filter_app, filter_cons, decide_False by (intros Hne; by apply Hne).
    rewrite filter_nil, app_nil_r, list_filter_filter.
    apply list_filter_iff. intros r. tauto.
  - intros p q. rewrite db_delete_signs_db, write_stmt_working by done.
    unfold delete_signs_run, load_signs_rows.
    cbn [fst snd World.db Sqlite.sign Sqlite.set_sign Sqlite.set_changes].
    rewrite filter_fmap_comm. f_equal. apply filter_comm.
  - intros p q. rewrite db_delete_all_signs_db, write_stmt_working by done.
    unfold delete_all_signs_run, load_signs_rows. by cbn.
Qed.

Lemma db_delete_sign_effects_witness :
  World.db_enabled (started stocked_db) = true ∧
  Sqlite.failing (World.db (started stocked_db)) = false ∧
  let w := started stocked_db in
  (∀ p q, load_signs_rows p q (World.db (db_delete_sign 1 2 3 4 w).2)
          = filter (λ s, s.1 ≠ (1, 2, 3, 4)) (load_signs_rows p q (World.db w))) ∧
  (∀ p q text,
     Sqlite.sign (World.db (db_delete_sign 1 2 3 4
                              (db_insert_sign p q 1 2 3 4 text w).2).2)
     = Sqlite.sign (World.db (db_delete_sign 1 2 3 4 w).2)) ∧
  (∀ p q, load_signs_rows p q (World.db (db_delete_signs 1 2 3 w).2)
          = filter (λ s, s.1.1 ≠ (1, 2, 3)) (load_signs_rows p q (World.db w))) ∧
  (∀ p q, load_signs_rows p q (World.db (db_delete_all_signs w).2) = []).
Proof.
  split; [reflexivity|]. split; [reflexivity|].
  exact (db_delete_sign_effects 1 2 3 4 (started stocked_db) eq_refl eq_refl).
Defined.

(** A call on an idle system, followed by the two quanta the worker needs:
    the pushed entry is popped and processed, and the queue is empty again. *)
Lemma run_call_work_work (c : Call) (w : World) :
  World.db_enabled w = true →
  ring_wf (World.ring w) →
  World.thrd w = WAITING →
  ring_pending (World.ring w) = [] →
  ∃ ring',
    run [Produce c; Work; Work] w =
    ([call_entry c],
     World.mk true (switch_db (call_entry c) (World.db w)) ring'
              (if bool_decide (RingEntry.type (call_entry c) ≠ EXIT)
               then WAITING else STOPPED)
              (World.log w ++ [EvLock mtx; EvSignal; EvUnlock mtx]
               ++ [EvLock mtx; EvUnlock mtx] ++ switch_calls (call_entry c))) ∧
    ring_wf ring' ∧ ring_pending ring' = [].
Proof.
  intros Hen Hwf Ht Hpend.
  destruct (ring_put_pending (World.ring w) (call_entry c) Hwf) as [Hwf1 Hpend1].
  pose proof (ring_get_pending _ Hwf1) as Hget.
  rewrite Hpend, app_nil_l in Hpend1.
  destruct (ring_get (ring_put (World.ring w) (call_entry c))) as [[e ring']|] eqn:Hg;
    [|by rewrite Hpend1 in Hget].
  destruct Hget as [Hpend' Hwf']. rewrite Hpend1 in Hpend'.
  injection Hpend' as <- Hrest.
  exists ring'. split; [|done].
  unfold run, bind, ret. rewrite call_run_eq, Hen. cbn beta iota zeta.
  rewrite db_worker_run_step_eq.
  cbn [World.thrd World.ring World.db World.db_enabled World.log]. rewrite Ht, Hg.
  cbn beta iota zeta. rewrite db_worker_run_step_eq.
  cbn [World.thrd World.ring World.db World.db_enabled World.log option_list app].
  by rewrite <- !app_assoc.
Qed.

Lemma select_replace_block_row (rows : list BlockRow) (p q x y z v p' q' : Z) :
  select_block_rows (replace_block_row rows (BlockRow.mk p q x y z v)) p' q'
  = if decide ((p, q) = (p', q'))
    then filter (λ row, row.1 ≠ (x, y, z)) (select_block_rows rows p q) ++ [(x, y, z, v)]
    else select_block_rows rows p' q'.
Proof.
  unfold select_block_rows, replace_block_row. rewrite filter_app, fmap_app.
  rewrite (filter_cons _ (BlockRow.mk p q x y z v)), filter_nil.
  destruct (decide ((p, q) = (p', q'))) as [[= <- <-]|Hne].
  - rewrite decide_True by done. f_equal.
    rewrite filter_fmap_comm. f_equal.
    rewrite !list_filter_filter. apply list_filter_iff. intros [p' q' x' y' z' v'].
    unfold BlockRow.pq, BlockRow.pqxyz, BlockRow.xyzw. cbn. split.
    + intros [[= -> ->] Hk]. split; [|done]. intros [= -> -> ->]. by apply Hk.
    + intros [Hk [= -> ->]]. split; [done|]. intros [= -> -> ->]. by apply Hk.
  - rewrite decide_False by done. rewrite app_nil_r. f_equal.
    rewrite list_filter_filter. apply list_filter_iff.
    intros [p'' q'' x' y' z' v']. unfold BlockRow.pq, BlockRow.pqxyz. cbn. split.
    + tauto.
    + intros [= -> ->]. split; [done|]. intros [= -> -> -> -> ->]. by apply Hne.
Qed.

Lemma db_load_blocks_result {Map} (map_set : Map → Z → Z → Z → Z → Map) (map : Map)
      (p q : Z) (w : World) :
  (db_load_blocks map_set map p q w).1
  = if World.db_enabled w
    then foldl (λ map '(x, y, z, v), map_set map x y z v) map
               (stepped_rows (World.db w)
                             (select_block_rows (Sqlite.block (World.db w)) p q))
    else map.
Proof.
  destruct (World.db_enabled w) eqn:Hen.
  - by rewrite db_load_blocks_eq.
  - unfold db_load_blocks. by rewrite if_enabled_disabled.
Qed.

Lemma db_load_lights_result {Map} (map_set : Map → Z → Z → Z → Z → Map) (map : Map)
      (p q : Z) (w : World) :
  (db_load_lights map_set map p q w).1
  = if World.db_enabled w
    then foldl (λ map '(x, y, z, v), map_set map x y z v) map
               (stepped_rows (World.db w)
                             (select_block_rows (Sqlite.light (World.db w)) p q))
    else map.
Proof.
  destruct (World.db_enabled w) eqn:Hen.
  - by rewrite db_load_lights_eq.
  - unfold db_load_lights. by rewrite if_enabled_disabled.
Qed.

Lemma db_load_damage_result {Map} (map_set : Map → Z → Z → Z → Z → Map) (map : Map)
      (p q : Z) (w : World) :
  (db_load_damage map_set map p q w).1
  = if World.db_enabled w
    then foldl (λ map '(x, y, z, d), map_set map x y z d) map
               (filter (λ row, row.2 ≠ 0)
                  (stepped_rows (World.db w)
                     (select_block_rows (Sqlite.block_damage (World.db w)) p q)))
    else map.
Proof.
  pose proof (db_load_damage_eq map_set map p q w) as Heq. cbv zeta in Heq.
  rewrite Heq. destruct (World.db_enabled w); [|done].
  cbn [fst]. apply foldl_load_damage_row.
Qed.

Lemma db_get_key_result (p q : Z) (w : World) :
  World.db_enabled w = true →
  Sqlite.failing (World.db w) = false →
  (db_get_key p q w).1 = default 0 (head (get_key_rows p q (World.db w))).
Proof.
  intros Hen Hf. rewrite db_get_key_eq, Hen. unfold first_step. rewrite Hf.
  by destruct (get_key_rows p q (World.db w)).
Qed.

Lemma get_key_rows_set (p q key p' q' : Z) (n : Z) (db : sqlite3) :
  get_key_rows p' q'
    (Sqlite.set_changes n
       (Sqlite.set_key (filter (λ r, KeyRow.pq r ≠ (p, q)) (Sqlite.key db)
                        ++ [KeyRow.mk p q key]) db))
  = if decide ((p, q) = (p', q')) then [key] else get_key_rows p' q' db.
Proof.
  unfold get_key_rows. cbn [Sqlite.key Sqlite.set_key Sqlite.set_changes].
  rewrite filter_app, fmap_app, (filter_cons _ (KeyRow.mk p q key)), filter_nil.
  destruct (decide ((p, q) = (p', q'))) as [[= <- <-]|Hne].
  - rewrite decide_True by done.
    by rewrite (filter_excluded (λ r, KeyRow.pq r = (p, q))).
  - rewrite decide_False by done. rewrite app_nil_r. f_equal.
    rewrite list_filter_filter. apply list_filter_iff.
    intros r. split; [tauto|]. intros Hr. split; [done|]. congruence.
Qed.

(** X3. On an idle system with a working store, [db_set_key] only queues the
    key: a [db_get_key] before the worker has run still gives the former
    answer. Once the worker has popped and processed the entry,
    [db_get_key] of that chunk gives the new key and every other chunk gives
    what it gave before. *)
Theorem db_set_key_then_get (p q key : Z) (w : World) :
  World.db_enabled w = true →
  Sqlite.failing (World.db w) = false →
  ring_wf (World.ring w) →
  World.thrd w = WAITING →
  ring_pending (World.ring w) = [] →
  let queued := (db_set_key p q key w).2 in
  let processed := (run [Produce (SetKey p q key); Work; Work] w).2 in
  (∀ p' q', (db_get_key p' q' queued).1 = (db_get_key p' q' w).1) ∧
  (db_get_key p q processed).1 = key ∧
  (∀ p' q', (p, q) ≠ (p', q') →
            (db_get_key p' q' processed).1 = (db_get_key p' q' w).1).
Proof.
  intros Hen Hf Hwf Ht Hpend queued processed.
  destruct (run_call_work_work (SetKey p q key) w Hen Hwf Ht Hpend)
    as (ring' & Hrun & _ & _).
  subst queued processed. rewrite Hrun. clear Hrun. cbn [snd].
  assert (Hq : (db_set_key p q key w).2 = (call_run (SetKey p q key) w).2) by done.
  rewrite Hq, call_run_eq, Hen. cbn [snd].
  unfold switch_db. cbn [call_entry RingEntry.type RingEntry.p RingEntry.q RingEntry.key].
  rewrite write_stmt_working by done. unfold set_key_run. cbn [fst snd].
  split_and!.
  - intros p' q'. by rewrite !db_get_key_eq, Hen.
  - rewrite db_get_key_result by done. cbn [World.db].
    by rewrite get_key_rows_set, decide_True.
  - intros p' q' Hne. rewrite !db_get_key_result by done. cbn [World.db].
    by rewrite get_key_rows_set, decide_False.
Qed.

Lemma db_set_key_then_get_witness :
  World.db_enabled (started stocked_db) = true ∧
  Sqlite.failing (World.db (started stocked_db)) = false ∧
  ring_wf (World.ring (started stocked_db)) ∧
  World.thrd (started stocked_db) = WAITING ∧
  ring_pending (World.ring (started stocked_db)) = [] ∧
  let w := started stocked_db in
  let queued := (db_set_key 0 0 8 w).2 in
  let processed := (run [Produce (SetKey 0 0 8); Work; Work] w).2 in
  (∀ p' q', (db_get_key p' q' queued).1 = (db_get_key p' q' w).1) ∧
  (db_get_key 0 0 processed).1 = 8 ∧
  (∀ p' q', (0, 0) ≠ (p', q') →
            (db_get_key p' q' processed).1 = (db_get_key p' q' w).1).
Proof.
  assert (Hwf : ring_wf (World.ring (started stocked_db))).
  { apply ring_alloc_wf. lia. }
  refine (conj eq_refl (conj eq_refl (conj Hwf (conj eq_refl (conj eq_refl _))))).
  exact (db_set_key_then_get 0 0 8 (started stocked_db) eq_refl eq_refl Hwf
           eq_refl eq_refl).
Defined.

Lemma switch_db_broken (e : RingEntry) (db : sqlite3) :
  Sqlite.failing db = true → switch_db e db = db.
Proof.
  intros Hf. unfold switch_db.
  destruct (RingEntry.type e);
    repeat (rewrite (write_stmt_failing db) by done; cbn [snd]); done.
Qed.

(** The tables after the [switch] on a working store. *)
Lemma switch_db_tables (e : RingEntry) (db : sqlite3) :
  Sqlite.failing db = false →
  let row := BlockRow.mk (RingEntry.p e) (RingEntry.q e) (RingEntry.x e)
                         (RingEntry.y e) (RingEntry.z e) in
  Sqlite.failing (switch_db e db) = false ∧
  Sqlite.block (switch_db e db)
  = (if decide (RingEntry.type e = BLOCK)
     then replace_block_row (Sqlite.block db) (row (RingEntry.w e))
     else Sqlite.block db) ∧
  Sqlite.light (switch_db e db)
  = (if decide (RingEntry.type e = LIGHT)
     then replace_block_row (Sqlite.light db) (row (RingEntry.w e))
     else Sqlite.light db) ∧
  Sqlite.block_damage (switch_db e db)
  = match RingEntry.type e with
    | BLOCK => replace_block_row (Sqlite.block_damage db) (row 0)
    | BLOCK_DAMAGE => replace_block_row (Sqlite.block_damage db) (row (RingEntry.w e))
    | BLOCK_DAMAGE_TRIM =>
        filter (λ r, ¬ (BlockRow.w r = 0 ∧ BlockRow.p r = RingEntry.p e
                        ∧ BlockRow.q r = RingEntry.q e))
               (Sqlite.block_damage db)
    | _ => Sqlite.block_damage db
    end ∧
  Sqlite.key (switch_db e db)
  = (if decide (RingEntry.type e = KEY)
     then filter (λ r, KeyRow.pq r ≠ (RingEntry.p e, RingEntry.q e)) (Sqlite.key db)
          ++ [KeyRow.mk (RingEntry.p e) (RingEntry.q e) (RingEntry.key e)]
     else Sqlite.key db) ∧
  Sqlite.sign (switch_db e db) = Sqlite.sign db ∧
  Sqlite.state (switch_db e db) = Sqlite.state db ∧
  Sqlite.identity_token (switch_db e db) = Sqlite.identity_token db.
Proof.
  intros Hf row. unfold switch_db.
  destruct (RingEntry.type e); cbn [decide];
    rewrite ?(write_stmt_working db) by done;
    rewrite ?write_stmt_working by done; done.
Qed.

(** X4. Whatever the entry and whether the store works or not, the [switch]
    of the worker leaves the ring, the enable flag, and the sign, state and
    credential tables as they are, and touches a table only for the kinds
    that write it: [block] for BLOCK, [light] for LIGHT, [key] for KEY,
    [block_damage] for BLOCK, BLOCK_DAMAGE and BLOCK_DAMAGE_TRIM. COMMIT and
    EXIT change no table. *)
Theorem worker_switch_frame (e : RingEntry) (w : World) :
  let w' := (db_worker_switch e w).2 in
  World.ring w' = World.ring w ∧
  World.db_enabled w' = World.db_enabled w ∧
  Sqlite.sign (World.db w') = Sqlite.sign (World.db w) ∧
  Sqlite.state (World.db w') = Sqlite.state (World.db w) ∧
  Sqlite.identity_token (World.db w') = Sqlite.identity_token (World.db w) ∧
  (RingEntry.type e ≠ BLOCK → Sqlite.block (World.db w') = Sqlite.block (World.db w)) ∧
  (RingEntry.type e ≠ LIGHT → Sqlite.light (World.db w') = Sqlite.light (World.db w)) ∧
  (RingEntry.type e ≠ KEY → Sqlite.key (World.db w') = Sqlite.key (World.db w)) ∧
  (RingEntry.type e ≠ BLOCK → RingEntry.type e ≠ BLOCK_DAMAGE →
   RingEntry.type e ≠ BLOCK_DAMAGE_TRIM →
   Sqlite.block_damage (World.db w') = Sqlite.block_damage (World.db w)) ∧
  (RingEntry.type e = COMMIT ∨ RingEntry.type e = EXIT → World.db w' = World.db w).
Proof.
  intros w'. subst w'. rewrite db_worker_switch_eq. cbn [snd World.ring World.db
    World.db_enabled].
  destruct (Sqlite.failing (World.db w)) eqn:Hf.
  { rewrite switch_db_broken by done. by split_and!. }
  destruct (switch_db_tables e (World.db w) Hf)
    as (_ & Hblock & Hlight & Hdamage & Hkey & Hsign & Hstate & Htoken).
  split_and!; try done.
  - intros Hty. by rewrite Hblock, decide_False.
  - intros Hty. by rewrite Hlight, decide_False.
  - intros Hty. by rewrite Hkey, decide_False.
  - intros H1 H2 H3. rewrite Hdamage. by destruct (RingEntry.type e).
  - unfold switch_db. by intros [-> | ->].
Qed.

Lemma select_trimmed_nonzero (rows : list BlockRow) (p q p' q' : Z) :
  filter (λ row, row.2 ≠ 0)
    (select_block_rows
       (filter (λ r, ¬ (BlockRow.w r = 0 ∧ BlockRow.p r = p ∧ BlockRow.q r = q)) rows)
       p' q')
  = filter (λ row, row.2 ≠ 0) (select_block_rows rows p' q').
Proof.
  unfold select_block_rows. rewrite !filter_fmap_comm. f_equal.
  rewrite !list_filter_filter. apply list_filter_iff.
  intros [p'' q'' x y z v]. unfold BlockRow.xyzw, BlockRow.pq. cbn. tauto.
Qed.

(** X5. Processing a BLOCK_DAMAGE_TRIM entry is invisible to every load: a
    [db_load_damage] of any chunk leaves the same map after the trim as before
    it, and so do [db_load_blocks] and [db_load_lights], whether the store
    works or not. *)
Theorem trim_invisible_to_loads {Map} (map_set : Map → Z → Z → Z → Z → Map)
        (map : Map) (e : RingEntry) (w : World) (p q : Z) :
  RingEntry.type e = BLOCK_DAMAGE_TRIM →
  let w' := (db_worker_switch e w).2 in
  (db_load_damage map_set map p q w').1 = (db_load_damage map_set map p q w).1 ∧
  (db_load_blocks map_set map p q w').1 = (db_load_blocks map_set map p q w).1 ∧
  (db_load_lights map_set map p q w').1 = (db_load_lights map_set map p q w).1.
Proof.
  intros Hty w'. subst w'. rewrite db_worker_switch_eq. cbn [snd].
  rewrite !db_load_damage_result, !db_load_blocks_result, !db_load_lights_result.
  cbn [World.db World.db_enabled].
  destruct (World.db_enabled w); [|done].
  destruct (Sqlite.failing (World.db w)) eqn:Hf.
  { by rewrite switch_db_broken. }
  destruct (switch_db_tables e (World.db w) Hf)
    as (Hf' & Hblock & Hlight & Hdamage & _).
  rewrite Hty in Hblock, Hlight, Hdamage.
  rewrite decide_False in Hblock by done. rewrite decide_False in Hlight by done.
  unfold stepped_rows. rewrite Hf', Hf, Hblock, Hlight, Hdamage.
  by rewrite select_trimmed_nonzero.
Qed.

Lemma trim_invisible_to_loads_witness :
  RingEntry.type trim_entry = BLOCK_DAMAGE_TRIM ∧
  let w := draining trim_entry damaged_db in
  let w' := (db_worker_switch trim_entry w).2 in
  (db_load_damage call_log_set [] 0 0 w').1 = (db_load_damage call_log_set [] 0 0 w).1 ∧
  (db_load_blocks call_log_set [] 0 0 w').1 = (db_load_blocks call_log_set [] 0 0 w).1 ∧
  (db_load_lights call_log_set [] 0 0 w').1 = (db_load_lights call_log_set [] 0 0 w).1.
Proof.
  split; [reflexivity|].
  exact (trim_invisible_to_loads call_log_set [] trim_entry
           (draining trim_entry damaged_db) 0 0 eq_refl).
Defined.

(** X6. On a working store, a BLOCK entry followed by a BLOCK_DAMAGE_TRIM
    entry of the same chunk leaves no damage row at the block's coordinates:
    the zero row the block write puts there is the kind of row the trim
    deletes. *)
Theorem block_then_trim_removes_damage (block trim : RingEntry) (w : World) :
  RingEntry.type block = BLOCK →
  RingEntry.type trim = BLOCK_DAMAGE_TRIM →
  RingEntry.p trim = RingEntry.p block →
  RingEntry.q trim = RingEntry.q block →
  Sqlite.failing (World.db w) = false →
  let w' := (db_worker_switch trim (db_worker_switch block w).2).2 in
  filter (λ r, BlockRow.pqxyz r = (RingEntry.p block, RingEntry.q block, RingEntry.x block,
                                   RingEntry.y block, RingEntry.z block))
         (Sqlite.block_damage (World.db w')) = [].
Proof.
  intros Hblock Htrim Hp Hq Hf w'. subst w'. rewrite !db_worker_switch_eq.
  cbn [snd World.db].
  destruct (switch_db_tables block (World.db w) Hf) as (Hf1 & _ & _ & Hd1 & _).
  destruct (switch_db_tables trim _ Hf1) as (_ & _ & _ & Hd2 & _).
  rewrite Hd2, Htrim, Hd1, Hblock, Hp, Hq. unfold replace_block_row.
  apply filter_none, Forall_forall. intros r [Hkeep Hr]%list_elem_of_filter.
  apply elem_of_app in Hr as [[Hne _]%list_elem_of_filter| ->%list_elem_of_singleton].
  - done.
  - intros _. by apply Hkeep.
Qed.

Lemma block_then_trim_removes_damage_witness :
  RingEntry.type block_entry = BLOCK ∧
  RingEntry.type trim_entry = BLOCK_DAMAGE_TRIM ∧
  RingEntry.p trim_entry = RingEntry.p block_entry ∧
  RingEntry.q trim_entry = RingEntry.q block_entry ∧
  Sqlite.failing (World.db (draining block_entry damaged_db)) = false ∧
  let block := block_entry in
  let w' := (db_worker_switch trim_entry
               (db_worker_switch block_entry (draining block_entry damaged_db)).2).2 in
  filter (λ r, BlockRow.pqxyz r = (RingEntry.p block, RingEntry.q block, RingEntry.x block,
                                   RingEntry.y block, RingEntry.z block))
         (Sqlite.block_damage (World.db w')) = [].
Proof.
  refine (conj eq_refl (conj eq_refl (conj eq_refl (conj eq_refl (conj eq_refl _))))).
  exact (block_then_trim_removes_damage block_entry trim_entry
           (draining block_entry damaged_db) eq_refl eq_refl eq_refl eq_refl eq_refl).
Defined.

(** X7. On an idle system with a working store, once the worker has processed
    a [db_insert_block], [db_load_blocks] of the chunk sets, once each and in
    some order, the chunk's other blocks and this block with the value written
    (also when it is 0), and [db_load_damage] of the chunk sets, once each and
    in some order, the non-zero damage of the other blocks and nothing at this
    one. The loads of other chunks and all light
    loads leave what they left before. *)
Theorem db_insert_block_then_load {Map} (map_set : Map → Z → Z → Z → Z → Map)
        (map : Map) (p q x y z v : Z) (w : World) :
  World.db_enabled w = true →
  Sqlite.failing (World.db w) = false →
  ring_wf (World.ring w) →
  World.thrd w = WAITING →
  ring_pending (World.ring w) = [] →
  let w' := (run [Produce (InsertBlock p q x y z v); Work; Work] w).2 in
  let set := λ map '(x, y, z, v), map_set map x y z v in
  (∃ rows,
     rows ≡ₚ (x, y, z, v)
             :: filter (λ row, row.1 ≠ (x, y, z))
                       (select_block_rows (Sqlite.block (World.db w)) p q) ∧
     (db_load_blocks map_set map p q w').1 = foldl set map rows) ∧
  (∃ rows,
     rows ≡ₚ filter (λ row, row.2 ≠ 0)
               (filter (λ row, row.1 ≠ (x, y, z))
                       (select_block_rows (Sqlite.block_damage (World.db w)) p q)) ∧
     (db_load_damage map_set map p q w').1 = foldl set map rows) ∧
  (∀ p' q', (p, q) ≠ (p', q') →
     (db_load_blocks map_set map p' q' w').1 = (db_load_blocks map_set map p' q' w).1 ∧
     (db_load_damage map_set map p' q' w').1 = (db_load_damage map_set map p' q' w).1) ∧
  (∀ p' q',
     (db_load_lights map_set map p' q' w').1 = (db_load_lights map_set map p' q' w).1).
Proof.
  intros Hen Hf Hwf Ht Hpend w' set.
  destruct (run_call_work_work (InsertBlock p q x y z v) w Hen Hwf Ht Hpend)
    as (ring' & Hrun & _ & _).
  subst w'. rewrite Hrun. clear Hrun. cbn [snd].
  destruct (switch_db_tables (call_entry (InsertBlock p q x y z v)) (World.db w) Hf)
    as (Hf' & Hblock & Hlight & Hdamage & _).
  change (Sqlite.block (switch_db (call_entry (InsertBlock p q x y z v)) (World.db w))
          = replace_block_row (Sqlite.block (World.db w)) (BlockRow.mk p q x y z v))
    in Hblock.
  change (Sqlite.light (switch_db (call_entry (InsertBlock p q x y z v)) (World.db w))
          = Sqlite.light (World.db w)) in Hlight.
  change (Sqlite.block_damage
            (switch_db (call_entry (InsertBlock p q x y z v)) (World.db w))
          = replace_block_row (Sqlite.block_damage (World.db w))
                              (BlockRow.mk p q x y z 0)) in Hdamage.
  rewrite !db_load_blocks_result, !db_load_damage_result.
  cbn [World.db World.db_enabled]. unfold stepped_rows.
  rewrite Hf', Hblock, Hdamage.
  split_and!.
  - eexists. split; [symmetry; apply Permutation_cons_append|].
    by rewrite select_replace_block_row, decide_True by done.
  - eexists. split; [reflexivity|].
    rewrite select_replace_block_row, decide_True by done.
    by rewrite filter_app, filter_cons, decide_False, filter_nil, app_nil_r
      by (intros Hne; by apply Hne).
  - intros p' q' Hne.
    rewrite !db_load_blocks_result, !db_load_damage_result.
    cbn [World.db World.db_enabled]. unfold stepped_rows.
    rewrite Hen, Hf', Hf, Hblock, Hdamage.
    by rewrite !select_replace_block_row, !decide_False.
  - intros p' q'. rewrite !db_load_lights_result.
    cbn [World.db World.db_enabled]. unfold stepped_rows.
    by rewrite Hen, Hf', Hf, Hlight.
Qed.

Lemma db_insert_block_then_load_witness :
  World.db_enabled (started stocked_db) = true ∧
  Sqlite.failing (World.db (started stocked_db)) = false ∧
  ring_wf (World.ring (started stocked_db)) ∧
  World.thrd (started stocked_db) = WAITING ∧
  ring_pending (World.ring (started stocked_db)) = [] ∧
  let map_set := call_log_set in
  let map := [] in
  let w := started stocked_db in
  let w' := (run [Produce (InsertBlock 0 0 4 5 6 0); Work; Work] w).2 in
  let set := λ map '(x, y, z, v), map_set map x y z v in
  (∃ rows,
     rows ≡ₚ (4, 5, 6, 0)
             :: filter (λ row, row.1 ≠ (4, 5, 6))
                       (select_block_rows (Sqlite.block (World.db w)) 0 0) ∧
     (db_load_blocks map_set map 0 0 w').1 = foldl set map rows) ∧
  (∃ rows,
     rows ≡ₚ filter (λ row, row.2 ≠ 0)
               (filter (λ row, row.1 ≠ (4, 5, 6))
                       (select_block_rows (Sqlite.block_damage (World.db w)) 0 0)) ∧
     (db_load_damage map_set map 0 0 w').1 = foldl set map rows) ∧
  (∀ p' q', (0, 0) ≠ (p', q') →
     (db_load_blocks map_set map p' q' w').1 = (db_load_blocks map_set map p' q' w).1 ∧
     (db_load_damage map_set map p' q' w').1 = (db_load_damage map_set map p' q' w).1) ∧
  (∀ p' q',
     (db_load_lights map_set map p' q' w').1 = (db_load_lights map_set map p' q' w).1).
Proof.
  assert (Hwf : ring_wf (World.ring (started stocked_db))).
  { apply ring_alloc_wf. lia. }
  refine (conj eq_refl (conj eq_refl (conj Hwf (conj eq_refl (conj eq_refl _))))).
  exact (db_insert_block_then_load call_log_set [] 0 0 4 5 6 0 (started stocked_db)
           eq_refl eq_refl Hwf eq_refl eq_refl).
Defined.

Example db_insert_block_clears_loaded_damage :
  let w := started stocked_db in
  let w' := (run [Produce (InsertBlock 0 0 4 5 6 0); Work; Work] w).2 in
  (db_load_damage call_log_set [] 0 0 w).1 = [(4, 5, 6, 7)] ∧
  (db_load_damage call_log_set [] 0 0 w').1 = [] ∧
  (db_load_blocks call_log_set [] 0 0 w').1 = [(4, 5, 6, 0)].
Proof. vm_compute. done. Qed.

(** X8. On an idle system with a working store, once the worker has processed
    a [db_insert_light], [db_load_lights] of the chunk sets, once each and in
    some order, the chunk's other lights and this one. Unlike a block write, a light write clears no
    damage: the block and damage loads of every chunk, and the light loads of
    other chunks, leave what they left before. *)
Theorem db_insert_light_then_load {Map} (map_set : Map → Z → Z → Z → Z → Map)
        (map : Map) (p q x y z v : Z) (w : World) :
  World.db_enabled w = true →
  Sqlite.failing (World.db w) = false →
  ring_wf (World.ring w) →
  World.thrd w = WAITING →
  ring_pending (World.ring w) = [] →
  let w' := (run [Produce (InsertLight p q x y z v); Work; Work] w).2 in
  let set := λ map '(x, y, z, v), map_set map x y z v in
  (∃ rows,
     rows ≡ₚ (x, y, z, v)
             :: filter (λ row, row.1 ≠ (x, y, z))
                       (select_block_rows (Sqlite.light (World.db w)) p q) ∧
     (db_load_lights map_set map p q w').1 = foldl set map rows) ∧
  (∀ p' q', (p, q) ≠ (p', q') →
     (db_load_lights map_set map p' q' w').1 = (db_load_lights map_set map p' q' w).1) ∧
  (∀ p' q',
     (db_load_blocks map_set map p' q' w').1 = (db_load_blocks map_set map p' q' w).1 ∧
     (db_load_damage map_set map p' q' w').1 = (db_load_damage map_set map p' q' w).1).
Proof.
  intros Hen Hf Hwf Ht Hpend w' set.
  destruct (run_call_work_work (InsertLight p q x y z v) w Hen Hwf Ht Hpend)
    as (ring' & Hrun & _ & _).
  subst w'. rewrite Hrun. clear Hrun. cbn [snd].
  destruct (switch_db_tables (call_entry (InsertLight p q x y z v)) (World.db w) Hf)
    as (Hf' & Hblock & Hlight & Hdamage & _).
  change (Sqlite.block (switch_db (call_entry (InsertLight p q x y z v)) (World.db w))
          = Sqlite.block (World.db w)) in Hblock.
  change (Sqlite.light (switch_db (call_entry (InsertLight p q x y z v)) (World.db w))
          = replace_block_row (Sqlite.light (World.db w)) (BlockRow.mk p q x y z v))
    in Hlight.
  change (Sqlite.block_damage
            (switch_db (call_entry (InsertLight p q x y z v)) (World.db w))
          = Sqlite.block_damage (World.db w)) in Hdamage.
  split_and!.
  - eexists. split; [symmetry; apply Permutation_cons_append|].
    rewrite db_load_lights_result. cbn [World.db World.db_enabled].
    unfold stepped_rows. rewrite Hf', Hlight.
    by rewrite select_replace_block_row, decide_True by done.
  - intros p' q' Hne. rewrite !db_load_lights_result.
    cbn [World.db World.db_enabled]. unfold stepped_rows.
    rewrite Hen, Hf', Hf, Hlight. by rewrite select_replace_block_row, decide_False.
  - intros p' q'. rewrite !db_load_blocks_result, !db_load_damage_result.
    cbn [World.db World.db_enabled]. unfold stepped_rows.
    by rewrite Hen, Hf', Hf, Hblock, Hdamage.
Qed.

Lemma db_insert_light_then_load_witness :
  World.db_enabled (started stocked_db) = true ∧
  Sqlite.failing (World.db (started stocked_db)) = false ∧
  ring_wf (World.ring (started stocked_db)) ∧
  World.thrd (started stocked_db) = WAITING ∧
  ring_pending (World.ring (started stocked_db)) = [] ∧
  let map_set := call_log_set in
  let map := [] in
  let w := started stocked_db in
  let w' := (run [Produce (InsertLight 0 0 4 5 6 9); Work; Work] w).2 in
  let set := λ map '(x, y, z, v), map_set map x y z v in
  (∃ rows,
     rows ≡ₚ (4, 5, 6, 9)
             :: filter (λ row, row.1 ≠ (4, 5, 6))
                       (select_block_rows (Sqlite.light (World.db w)) 0 0) ∧
     (db_load_lights map_set map 0 0 w').1 = foldl set map rows) ∧
  (∀ p' q', (0, 0) ≠ (p', q') →
     (db_load_lights map_set map p' q' w').1 = (db_load_lights map_set map p' q' w).1) ∧
  (∀ p' q',
     (db_load_blocks map_set map p' q' w').1 = (db_load_blocks map_set map p' q' w).1 ∧
     (db_load_damage map_set map p' q' w').1 = (db_load_damage map_set map p' q' w).1).
Proof.
  assert (Hwf : ring_wf (World.ring (started stocked_db))).
  { apply ring_alloc_wf. lia. }
  refine (conj eq_refl (conj eq_refl (conj Hwf (conj eq_refl (conj eq_refl _))))).
  exact (db_insert_light_then_load call_log_set [] 0 0 4 5 6 9 (started stocked_db)
           eq_refl eq_refl Hwf eq_refl eq_refl).
Defined.

(** X9. On an idle system with a working store, once the worker has processed
    a [db_insert_block_damage], [db_load_damage] of the chunk sets, once each
    and in some order, the non-zero damage of the chunk's other blocks and,
    when the damage written is not 0, this one; a damage of 0 is stored but
    sets nothing. The
    damage loads of other chunks and all block loads leave what they left
    before. *)
Theorem db_insert_block_damage_then_load {Map} (map_set : Map → Z → Z → Z → Z → Map)
        (map : Map) (p q x y z damage : Z) (w : World) :
  World.db_enabled w = true →
  Sqlite.failing (World.db w) = false →
  ring_wf (World.ring w) →
  World.thrd w = WAITING →
  ring_pending (World.ring w) = [] →
  let w' := (run [Produce (InsertBlockDamage p q x y z damage); Work; Work] w).2 in
  let set := λ map '(x, y, z, d), map_set map x y z d in
  let others := filter (λ row, row.2 ≠ 0)
                  (filter (λ row, row.1 ≠ (x, y, z))
                     (select_block_rows (Sqlite.block_damage (World.db w)) p q)) in
  (∃ rows,
     rows ≡ₚ (if decide (damage = 0) then others else (x, y, z, damage) :: others) ∧
     (db_load_damage map_set map p q w').1 = foldl set map rows) ∧
  filter (λ r, BlockRow.pqxyz r = (p, q, x, y, z)) (Sqlite.block_damage (World.db w'))
  = [BlockRow.mk p q x y z damage] ∧
  (∀ p' q', (p, q) ≠ (p', q') →
     (db_load_damage map_set map p' q' w').1 = (db_load_damage map_set map p' q' w).1) ∧
  (∀ p' q',
     (db_load_blocks map_set map p' q' w').1 = (db_load_blocks map_set map p' q' w).1).
Proof.
  intros Hen Hf Hwf Ht Hpend w' set others.
  destruct (run_call_work_work (InsertBlockDamage p q x y z damage) w Hen Hwf Ht Hpend)
    as (ring' & Hrun & _ & _).
  subst w'. rewrite Hrun. clear Hrun. cbn [snd].
  destruct (switch_db_tables (call_entry (InsertBlockDamage p q x y z damage))
                             (World.db w) Hf)
    as (Hf' & Hblock & _ & Hdamage & _).
  change (Sqlite.block
            (switch_db (call_entry (InsertBlockDamage p q x y z damage)) (World.db w))
          = Sqlite.block (World.db w)) in Hblock.
  change (Sqlite.block_damage
            (switch_db (call_entry (InsertBlockDamage p q x y z damage)) (World.db w))
          = replace_block_row (Sqlite.block_damage (World.db w))
                              (BlockRow.mk p q x y z damage)) in Hdamage.
  split_and!.
  - subst others. destruct (decide (damage = 0)) as [->|Hd].
    + eexists. split; [reflexivity|].
      rewrite db_load_damage_result. cbn [World.db World.db_enabled].
      unfold stepped_rows. rewrite Hf', Hdamage.
      rewrite select_replace_block_row, decide_True by done.
      rewrite filter_app, filter_cons, filter_nil. cbn [snd].
      by rewrite decide_False, app_nil_r by (intros Hne; by apply Hne).
    + eexists. split; [symmetry; apply Permutation_cons_append|].
      rewrite db_load_damage_result. cbn [World.db World.db_enabled].
      unfold stepped_rows. rewrite Hf', Hdamage.
      rewrite select_replace_block_row, decide_True by done.
      rewrite filter_app, filter_cons, filter_nil. cbn [snd].
      by rewrite decide_True by done.
  - cbn [World.db]. rewrite Hdamage.
    apply (replace_block_row_same _ (BlockRow.mk p q x y z damage)).
  - intros p' q' Hne. rewrite !db_load_damage_result.
    cbn [World.db World.db_enabled]. unfold stepped_rows.
    rewrite Hen, Hf', Hf, Hdamage. by rewrite select_replace_block_row, decide_False.
  - intros p' q'. rewrite !db_load_blocks_result.
    cbn [World.db World.db_enabled]. unfold stepped_rows.
    by rewrite Hen, Hf', Hf, Hblock.
Qed.

Lemma db_insert_block_damage_then_load_witness :
  World.db_enabled (started stocked_db) = true ∧
  Sqlite.failing (World.db (started stocked_db)) = false ∧
  ring_wf (World.ring (started stocked_db)) ∧
  World.thrd (started stocked_db) = WAITING ∧
  ring_pending (World.ring (started stocked_db)) = [] ∧
  let map_set := call_log_set in
  let map := [] in
  let w := started stocked_db in
  let w' := (run [Produce (InsertBlockDamage 0 0 1 2 3 5); Work; Work] w).2 in
  let set := λ map '(x, y, z, d), map_set map x y z d in
  let others := filter (λ row, row.2 ≠ 0)
                  (filter (λ row, row.1 ≠ (1, 2, 3))
                     (select_block_rows (Sqlite.block_damage (World.db w)) 0 0)) in
  (∃ rows,
     rows ≡ₚ (if decide (5 = 0) then others else (1, 2, 3, 5) :: others) ∧
     (db_load_damage map_set map 0 0 w').1 = foldl set map rows) ∧
  filter (λ r, BlockRow.pqxyz r = (0, 0, 1, 2, 3)) (Sqlite.block_damage (World.db w'))
  = [BlockRow.mk 0 0 1 2 3 5] ∧
  (∀ p' q', (0, 0) ≠ (p', q') →
     (db_load_damage map_set map p' q' w').1 = (db_load_damage map_set map p' q' w).1) ∧
  (∀ p' q',
     (db_load_blocks map_set map p' q' w').1 = (db_load_blocks map_set map p' q' w).1).
Proof.
  assert (Hwf : ring_wf (World.ring (started stocked_db))).
  { apply ring_alloc_wf. lia. }
  refine (conj eq_refl (conj eq_refl (conj Hwf (conj eq_refl (conj eq_refl _))))).
  exact (db_insert_block_damage_then_load call_log_set [] 0 0 1 2 3 5
           (started stocked_db) eq_refl eq_refl Hwf eq_refl eq_refl).
Defined.

(** *** Credentials *)

Lemma db_auth_select_eq (username : string) (w : World) :
  World.db_enabled w = true →
  db_auth_select username w =
  (Sqlite.changes
     (write_stmt (write_stmt (World.db w) auth_select_none_run).2
                 (auth_select_run username)).2,
   World.mk true
     (write_stmt (write_stmt (World.db w) auth_select_none_run).2
                 (auth_select_run username)).2
     (World.ring w) (World.thrd w)
     (World.log w ++
      [EvExec "update auth.identity_token set selected = 0;";
       EvLocalStmt "update auth.identity_token set selected = 1 where username = ?;"
                   [Text username]])).
Proof.
  intros Hen. unfold db_auth_select, db_auth_select_none.
  rewrite if_enabled_enabled by done.
  unfold bind at 1. rewrite if_enabled_enabled by done.
  unfold bind at 1. rewrite sqlite3_exec_eq.
  unfold bind, emit, on_db, read_db, ret.
  cbn [World.db World.db_enabled World.ring World.thrd World.log fst snd].
  rewrite Hen.
  destruct (write_stmt (write_stmt (World.db w) auth_select_none_run).2
                       (auth_select_run username)) as [rc db2].
  cbn [World.db World.db_enabled World.ring World.thrd World.log fst snd].
  by rewrite <- app_assoc.
Qed.

Lemma db_auth_set_eq (username identity_token : string) (w : World) :
  World.db_enabled w = true →
  (db_auth_set username identity_token w).2 =
  World.mk true
    (write_stmt
       (write_stmt (write_stmt (World.db w) (auth_set_run username identity_token 1)).2
                   auth_select_none_run).2
       (auth_select_run username)).2
    (World.ring w) (World.thrd w)
    (World.log w ++
     [EvLocalStmt
        "insert or replace into auth.identity_token (username, token, selected) values (?, ?, ?);"
        [Text username; Text identity_token; Int 1];
      EvExec "update auth.identity_token set selected = 0;";
      EvLocalStmt "update auth.identity_token set selected = 1 where username = ?;"
                  [Text username]]).
Proof.
  intros Hen. unfold db_auth_set. rewrite if_enabled_enabled by done.
  unfold bind at 1. unfold emit at 1. unfold bind at 1. unfold on_db at 1.
  cbn [World.db World.db_enabled World.ring World.thrd World.log fst snd].
  destruct (write_stmt (World.db w) (auth_set_run username identity_token 1))
    as [rc db1].
  cbn [fst snd]. unfold bind at 1. rewrite db_auth_select_eq by done.
  unfold ret. cbn [World.db World.db_enabled World.ring World.thrd World.log fst snd].
  by rewrite <- app_assoc.
Qed.

Lemma db_auth_get_eq (username : string) (n : Z) (w : World) :
  World.db_enabled w = true →
  (db_auth_get username n w).1 =
  match first_step (World.db w) (auth_get_rows username (World.db w)) with
  | StepRow a => (1, strncpy_terminated a n)
  | _ => (0, None)
  end.
Proof.
  intros Hen. unfold db_auth_get. rewrite if_enabled_enabled by done.
  unfold bind, emit, read_db, ret.
  cbn [World.db World.db_enabled World.ring World.thrd World.log fst snd].
  by destruct (first_step _ _).
Qed.

Lemma db_auth_get_selected_eq (n m : Z) (w : World) :
  World.db_enabled w = true →
  (db_auth_get_selected n m w).1 =
  match first_step (World.db w) (auth_get_selected_rows (World.db w)) with
  | StepRow (a, b) =>
      (1, match strncpy_terminated a n, strncpy_terminated b m with
          | Some a, Some b => Some (a, b)
          | _, _ => None
          end)
  | _ => (0, None)
  end.
Proof.
  intros Hen. unfold db_auth_get_selected. rewrite if_enabled_enabled by done.
  unfold bind, emit, read_db, ret.
  cbn [World.db World.db_enabled World.ring World.thrd World.log fst snd].
  by destruct (first_step _ _) as [[a b]| |].
Qed.

Lemma write_auth_set (username token : string) (selected : Z) (db : sqlite3) :
  Sqlite.failing db = false →
  Sqlite.failing (write_stmt db (auth_set_run username token selected)).2 = false ∧
  Sqlite.identity_token (write_stmt db (auth_set_run username token selected)).2
  = filter (λ r, TokenRow.username r ≠ username) (Sqlite.identity_token db)
    ++ [TokenRow.mk username token selected].
Proof. intros Hf. rewrite write_stmt_working by done. by unfold auth_set_run. Qed.

Lemma write_auth_select_none (db : sqlite3) :
  Sqlite.failing db = false →
  Sqlite.failing (write_stmt db auth_select_none_run).2 = false ∧
  Sqlite.identity_token (write_stmt db auth_select_none_run).2
  = (λ r, TokenRow.mk (TokenRow.username r) (TokenRow.token r) 0)
      <$> Sqlite.identity_token db.
Proof. intros Hf. rewrite write_stmt_working by done. by unfold auth_select_none_run. Qed.

Lemma write_auth_select (username : string) (db : sqlite3) :
  Sqlite.failing db = false →
  Sqlite.failing (write_stmt db (auth_select_run username)).2 = false ∧
  Sqlite.identity_token (write_stmt db (auth_select_run username)).2
  = (λ r, if decide (TokenRow.username r = username)
          then TokenRow.mk (TokenRow.username r) (TokenRow.token r) 1
          else r) <$> Sqlite.identity_token db ∧
  Sqlite.changes (write_stmt db (auth_select_run username)).2
  = Z.of_nat (length (filter (λ r, TokenRow.username r = username)
                             (Sqlite.identity_token db))).
Proof. intros Hf. rewrite write_stmt_working by done. by unfold auth_select_run. Qed.

(** The table after "set selected = 0" on all rows and "set selected = 1" on
    those of [username]. *)
Lemma select_only_rows (username : string) (rows : list TokenRow) :
  TokenRow.username <$>
    ((λ r, if decide (TokenRow.username r = username)
           then TokenRow.mk (TokenRow.username r) (TokenRow.token r) 1
           else r) <$>
       ((λ r, TokenRow.mk (TokenRow.username r) (TokenRow.token r) 0) <$> rows))
  = TokenRow.username <$> rows ∧
  (∀ u, TokenRow.token <$> filter (λ r, TokenRow.username r = u)
          ((λ r, if decide (TokenRow.username r = username)
                 then TokenRow.mk (TokenRow.username r) (TokenRow.token r) 1
                 else r) <$>
             ((λ r, TokenRow.mk (TokenRow.username r) (TokenRow.token r) 0) <$> rows))
        = TokenRow.token <$> filter (λ r, TokenRow.username r = u) rows) ∧
  (λ r, (TokenRow.username r, TokenRow.token r)) <$>
    filter (λ r, TokenRow.selected r = 1)
      ((λ r, if decide (TokenRow.username r = username)
             then TokenRow.mk (TokenRow.username r) (TokenRow.token r) 1
             else r) <$>
         ((λ r, TokenRow.mk (TokenRow.username r) (TokenRow.token r) 0) <$> rows))
  = (λ t, (username, t)) <$>
      (TokenRow.token <$> filter (λ r, TokenRow.username r = username) rows).
Proof.
  induction rows as [|[u t s] rows (IH1 & IH2 & IH3)]; [done|].
  rewrite !fmap_cons. cbn [TokenRow.username TokenRow.token].
  split_and!.
  - rewrite IH1. by destruct (decide (u = username)).
  - intros u'. rewrite !filter_cons. cbn [TokenRow.username].
    destruct (decide (u = username)) as [->|Hne]; cbn [TokenRow.username];
      destruct (decide (_ = u')); by rewrite ?fmap_cons, IH2.
  - rewrite !filter_cons. cbn [TokenRow.username].
    destruct (decide (u = username)) as [->|Hne]; cbn [TokenRow.selected].
    + rewrite decide_True by done. by rewrite !fmap_cons, IH3.
    + rewrite decide_False by done. by rewrite IH3.
Qed.


Lemma substring_all (s : string) (n : nat) :
  (String.length s ≤ n)%nat → String.substring 0 n s = s.
Proof.
  revert n. induction s as [|c s IH]; intros n Hn.
  - by destruct n.
  - destruct n as [|n]; simpl in *; [lia|]. rewrite IH; [done|lia].
Qed.

Lemma substring_length (s : string) (n : nat) :
  String.length (String.substring 0 n s) = Nat.min n (String.length s).
Proof.
  revert n. induction s as [|c s IH]; intros n.
  - by destruct n.
  - destruct n as [|n]; simpl; [done|]. by rewrite IH.
Qed.

(** X10. With persistence enabled and a working store, [db_auth_set] records
    the token and selects its user: a following [db_auth_get] of the user,
    into a buffer of at least one byte, returns 1 with the token,
    [db_auth_get_selected], into buffers of at least one byte, returns 1 with
    this user and token, and [db_auth_get] of any other user answers as
    before. A string comes back cut to the buffer length minus one, and whole
    when the buffer has room for it. *)
Theorem db_auth_set_then_get (username identity_token : string) (w : World) :
  World.db_enabled w = true →
  Sqlite.failing (World.db w) = false →
  let w' := (db_auth_set username identity_token w).2 in
  (∀ n, 1 ≤ n →
     (db_auth_get username n w').1
     = (1, Some (String.substring 0 (Z.to_nat (n - 1)) identity_token))) ∧
  (∀ n m, 1 ≤ n → 1 ≤ m →
     (db_auth_get_selected n m w').1
     = (1, Some (String.substring 0 (Z.to_nat (n - 1)) username,
                 String.substring 0 (Z.to_nat (m - 1)) identity_token))) ∧
  (∀ u n, 1 ≤ n → u ≠ username → (db_auth_get u n w').1 = (db_auth_get u n w).1) ∧
  (∀ s n, 1 ≤ n →
     ∃ copy, strncpy_terminated s n = Some copy ∧
             Z.of_nat (String.length copy) = Z.min (n - 1) (Z.of_nat (String.length s)) ∧
             (Z.of_nat (String.length s) < n → copy = s)).
Proof.
  intros Hen Hf w'.
  assert (Hdb : World.db_enabled w' = true ∧
                Sqlite.failing (World.db w') = false ∧
                Sqlite.identity_token (World.db w')
                = (λ r, if decide (TokenRow.username r = username)
                        then TokenRow.mk (TokenRow.username r) (TokenRow.token r) 1
                        else r) <$>
                    ((λ r, TokenRow.mk (TokenRow.username r) (TokenRow.token r) 0) <$>
                       (filter (λ r, TokenRow.username r ≠ username)
                               (Sqlite.identity_token (World.db w))
                        ++ [TokenRow.mk username identity_token 1]))).
  { subst w'. rewrite db_auth_set_eq by done. cbn [World.db World.db_enabled].
    destruct (write_auth_set username identity_token 1 _ Hf) as (Hf1 & H1).
    destruct (write_auth_select_none _ Hf1) as (Hf2 & H2).
    destruct (write_auth_select username _ Hf2) as (Hf3 & H3 & _).
    by rewrite H3, H2, H1. }
  destruct Hdb as (Hen' & Hf' & Hdb).
  assert (Hw' : (∀ u, auth_get_rows u (World.db w')
                      = if decide (username = u) then [identity_token]
                        else auth_get_rows u (World.db w)) ∧
                auth_get_selected_rows (World.db w') = [(username, identity_token)]).
  { unfold auth_get_rows, auth_get_selected_rows. rewrite Hdb.
    destruct (select_only_rows username
                (filter (λ r, TokenRow.username r ≠ username)
                        (Sqlite.identity_token (World.db w))
                 ++ [TokenRow.mk username identity_token 1])) as (_ & Hget & Hsel).
    split.
    - intros u. rewrite Hget, filter_app, fmap_app, filter_cons, filter_nil.
      cbn [TokenRow.username].
      destruct (decide (username = u)) as [<-|Hne].
      + by rewrite (filter_excluded (λ r, TokenRow.username r = username)).
      + rewrite fmap_nil, app_nil_r, list_filter_filter. f_equal.
        apply list_filter_iff. intros r. split; [tauto|].
        intros ->. split; [done|]. intros Heq. by apply Hne.
    - rewrite Hsel, filter_app, fmap_app, filter_cons, filter_nil.
      cbn [TokenRow.username]. rewrite decide_True by done.
      by rewrite (filter_excluded (λ r, TokenRow.username r = username)). }
  destruct Hw' as (Hget & Hsel).
  split_and!.
  - intros n Hn. rewrite db_auth_get_eq by done. unfold first_step.
    rewrite Hf', Hget, decide_True by done.
    unfold strncpy_terminated. by rewrite decide_True.
  - intros n m Hn Hm. rewrite db_auth_get_selected_eq by done. unfold first_step.
    rewrite Hf', Hsel. unfold strncpy_terminated. by rewrite !decide_True.
  - intros u n Hn Hne. rewrite !db_auth_get_eq by done. unfold first_step.
    by rewrite Hf', Hf, Hget, decide_False.
  - intros s n Hn. unfold strncpy_terminated. rewrite decide_True by done.
    eexists. split_and!; [done| |].
    + rewrite substring_length. lia.
    + intros Hlen. apply substring_all. lia.
Qed.

Lemma db_auth_set_then_get_witness :
  World.db_enabled (started token_db) = true ∧
  Sqlite.failing (World.db (started token_db)) = false ∧
  let username := "ann" in
  let identity_token := "t-new" in
  let w := started token_db in
  let w' := (db_auth_set username identity_token w).2 in
  (∀ n, 1 ≤ n →
     (db_auth_get username n w').1
     = (1, Some (String.substring 0 (Z.to_nat (n - 1)) identity_token))) ∧
  (∀ n m, 1 ≤ n → 1 ≤ m →
     (db_auth_get_selected n m w').1
     = (1, Some (String.substring 0 (Z.to_nat (n - 1)) username,
                 String.substring 0 (Z.to_nat (m - 1)) identity_token))) ∧
  (∀ u n, 1 ≤ n → u ≠ username → (db_auth_get u n w').1 = (db_auth_get u n w).1) ∧
  (∀ s n, 1 ≤ n →
     ∃ copy, strncpy_terminated s n = Some copy ∧
             Z.of_nat (String.length copy) = Z.min (n - 1) (Z.of_nat (String.length s)) ∧
             (Z.of_nat (String.length s) < n → copy = s)).
Proof.
  split; [reflexivity|]. split; [reflexivity|].
  exact (db_auth_set_then_get "ann" "t-new" (started token_db) eq_refl eq_refl).
Defined.

Example db_auth_set_run :
  let w' := (db_auth_set "ann" "t-new" (started token_db)).2 in
  Sqlite.identity_token (World.db w')
  = [TokenRow.mk "bob" "t-bob" 0; TokenRow.mk "ann" "t-new" 1] ∧
  (db_auth_get "ann" 4 w').1 = (1, Some "t-n") ∧
  (db_auth_get "ann" 1 w').1 = (1, Some EmptyString) ∧
  (db_auth_get_selected 64 64 w').1 = (1, Some ("ann", "t-new")) ∧
  strncpy_terminated "t-new" 0 = None.
Proof. vm_compute. done. Qed.



Example db_auth_select_unknown_run :
  let w := started token_db in
  (db_auth_get_selected 64 64 w).1 = (1, Some ("bob", "t-bob")) ∧
  (db_auth_select "zoe" w).1 = 0 ∧
  (db_auth_get_selected 64 64 (db_auth_select "zoe" w).2).1 = (0, None) ∧
  (db_auth_select "ann" w).1 = 1 ∧
  (db_auth_get_selected 64 64 (db_auth_select "ann" w).2).1 = (1, Some ("ann", "t-ann")).
Proof. vm_compute. done. Qed.

(** *** The unique indexes are kept *)

Lemma unique_on_filter {A K} (key : A → K) (P : A → Prop) `{!∀ a, Decision (P a)}
      (rows : list A) :
  unique_on key rows → unique_on key (filter P rows).
Proof.
  unfold unique_on. induction rows as [|r rows IH]; [done|].
  rewrite fmap_cons, NoDup_cons. intros [Hnotin Hnodup].
  rewrite filter_cons. destruct (decide (P r)); [|by apply IH].
  rewrite fmap_cons, NoDup_cons. split; [|by apply IH].
  intros Hin. apply Hnotin.
  apply list_elem_of_fmap in Hin as (r' & -> & Hin).
  apply list_elem_of_fmap_2. by apply list_elem_of_filter in Hin as [_ ?].
Qed.

Lemma unique_on_replace {A K} `{EqDecision K} (key : A → K) (row : A)
      (rows : list A) :
  unique_on key rows →
  unique_on key (filter (λ r, key r ≠ key row) rows ++ [row]).
Proof.
  intros Huniq. unfold unique_on. rewrite fmap_app. apply NoDup_app. split_and!.
  - by apply unique_on_filter.
  - intros k Hin Hin'. apply list_elem_of_fmap in Hin as (r & -> & Hin).
    apply list_elem_of_filter in Hin as [Hne _].
    apply list_elem_of_singleton in Hin'. by apply Hne.
  - apply NoDup_singleton.
Qed.

Lemma indexes_unique_set_changes (n : Z) (db : sqlite3) :
  indexes_unique (Sqlite.set_changes n db) ↔ indexes_unique db.
Proof. done. Qed.

Lemma write_stmt_unique (db : sqlite3) (run : sqlite3 → sqlite3 * Z) :
  indexes_unique db →
  indexes_unique (run db).1 →
  indexes_unique (write_stmt db run).2.
Proof.
  intros Hdb Hrun. unfold write_stmt. destruct (Sqlite.failing db); [done|].
  by destruct (run db).
Qed.

Lemma write_replace_unique (db : sqlite3) :
  indexes_unique db →
  (∀ p q x y z w, indexes_unique (write_stmt db (insert_block_run p q x y z w)).2) ∧
  (∀ p q x y z w, indexes_unique (write_stmt db (insert_light_run p q x y z w)).2) ∧
  (∀ p q x y z w,
     indexes_unique (write_stmt db (insert_block_damage_run p q x y z w)).2) ∧
  (∀ p q key, indexes_unique (write_stmt db (set_key_run p q key)).2) ∧
  (∀ p q, indexes_unique (write_stmt db (trim_block_damage_run p q)).2).
Proof.
  intros Hdb. pose proof Hdb as (? & ? & ? & ? & ? & ?).
  split_and!; intros; (apply write_stmt_unique; [done|]); split_and!; try done.
  - apply (unique_on_replace BlockRow.pqxyz (BlockRow.mk p q x y z w)); done.
  - apply (unique_on_replace BlockRow.pqxyz (BlockRow.mk p q x y z w)); done.
  - apply (unique_on_replace BlockRow.pqxyz (BlockRow.mk p q x y z w)); done.
  - apply (unique_on_replace KeyRow.pq (KeyRow.mk p q key)); done.
  - by apply unique_on_filter.
Qed.

Lemma switch_db_unique (e : RingEntry) (db : sqlite3) :
  indexes_unique db → indexes_unique (switch_db e db).
Proof.
  intros Hdb. unfold switch_db.
  destruct (write_replace_unique db Hdb) as (Hblock & Hlight & Hdamage & Hkey & Htrim).
  destruct (RingEntry.type e); try done.
  by apply write_replace_unique.
Qed.

(** What holds of the connection and is kept by every [switch] of the worker
    holds after every schedule, and after the worker has run on its own. *)
Lemma run_db_invariant (P : sqlite3 → Prop) :
  (∀ e db, P db → P (switch_db e db)) →
  ∀ sched w, P (World.db w) → P (World.db (run sched w).2).
Proof.
  intros Hswitch sched. induction sched as [|[c|] sched IH]; intros w HP.
  - done.
  - simpl. unfold bind. rewrite call_run_eq. apply IH.
    by destruct (World.db_enabled w).
  - simpl. unfold bind.
    destruct (db_worker_run_step w) as [o w1] eqn:Hstep.
    specialize (IH w1). destruct (run sched w1) as [rest w']. simpl in *.
    apply IH. rewrite db_worker_run_step_eq in Hstep.
    destruct (World.thrd w); [| |by injection Hstep as <- <-; apply Hswitch|];
      try (by injection Hstep as <- <-).
    destruct (ring_get (World.ring w)) as [[e ring']|]; by injection Hstep as <- <-.
Qed.

Lemma db_worker_run_db_invariant (P : sqlite3 → Prop) :
  (∀ e db, P db → P (switch_db e db)) →
  ∀ fuel w, P (World.db w) → P (World.db (db_worker_run fuel w).2).
Proof.
  intros Hswitch fuel. induction fuel as [|fuel IH]; intros w HP; [done|].
  simpl. unfold bind at 1. unfold get_thrd.
  assert (Hstep : P (World.db (db_worker_run_step w).2)).
  { rewrite db_worker_run_step_eq.
    destruct (World.thrd w); [done| |by apply Hswitch|done].
    by destruct (ring_get (World.ring w)) as [[e ring']|]. }
  assert (Hrun : P (World.db
            ((e ← db_worker_run_step; rest ← db_worker_run fuel;
              ret (option_list e ++ rest)) w).2)).
  { unfold bind. destruct (db_worker_run_step w) as [o w1]. simpl in Hstep.
    specialize (IH w1 Hstep). by destruct (db_worker_run fuel w1). }
  by destruct (World.thrd w).
Qed.

(** X12. The unique indexes of [create_query] are kept by every write of the
    module: after any schedule of enqueue calls and worker quanta, after the
    worker has run on its own, and after each of the immediate writes, no two
    rows of [block], [light] or [block_damage] share (p, q, x, y, z), no two
    keys share (p, q), no two signs share (x, y, z, face) and no two
    credentials share a username, whether the store works or not. *)
Theorem indexes_unique_kept (w : World) :
  indexes_unique (World.db w) →
  (∀ sched, indexes_unique (World.db (run sched w).2)) ∧
  (∀ fuel, indexes_unique (World.db (db_worker_run fuel w).2)) ∧
  (∀ p q x y z face text,
     indexes_unique (World.db (db_insert_sign p q x y z face text w).2)) ∧
  (∀ x y z face, indexes_unique (World.db (db_delete_sign x y z face w).2)) ∧
  (∀ x y z, indexes_unique (World.db (db_delete_signs x y z w).2)) ∧
  indexes_unique (World.db (db_delete_all_signs w).2) ∧
  (∀ username token, indexes_unique (World.db (db_auth_set username token w).2)) ∧
  (∀ username, indexes_unique (World.db (db_auth_select username w).2)) ∧
  (∀ x y z rx ry flying,
     indexes_unique (World.db (db_save_state x y z rx ry flying w).2)).
Proof.
  intros Hdb.
  assert (Hsel : ∀ username db,
            indexes_unique db →
            indexes_unique
              (write_stmt (write_stmt db auth_select_none_run).2
                          (auth_select_run username)).2).
  { intros username db Hu. apply write_stmt_unique.
    - apply write_stmt_unique; [done|].
      destruct Hu as (? & ? & ? & ? & ? & Htok). split_and!; try done.
      unfold unique_on, auth_select_none_run.
      cbn [fst Sqlite.identity_token Sqlite.set_identity_token].
      by rewrite <- list_fmap_compose.
    - set (db1 := (write_stmt db auth_select_none_run).2).
      assert (Hu1 : indexes_unique db1).
      { apply write_stmt_unique; [done|].
        destruct Hu as (? & ? & ? & ? & ? & Htok). split_and!; try done.
        unfold unique_on, auth_select_none_run.
        cbn [fst Sqlite.identity_token Sqlite.set_identity_token].
        by rewrite <- list_fmap_compose. }
      destruct Hu1 as (? & ? & ? & ? & ? & Htok). split_and!; try done.
      unfold unique_on, auth_select_run.
      cbn [fst Sqlite.identity_token Sqlite.set_identity_token].
      rewrite <- list_fmap_compose.
      erewrite list_fmap_ext; [exact Htok|].
      intros i r _. cbn. by destruct (decide (TokenRow.username r = username)). }
  split_and!.
  - intros sched. by apply run_db_invariant; [apply switch_db_unique|].
  - intros fuel. by apply db_worker_run_db_invariant; [apply switch_db_unique|].
  - intros p q x y z face text. destruct (World.db_enabled w) eqn:Hen.
    2:{ unfold db_insert_sign. by rewrite if_enabled_disabled. }
    rewrite db_insert_sign_db by done. cbn [World.db].
    apply write_stmt_unique; [done|].
    destruct Hdb as (? & ? & ? & ? & Hsign & ?). split_and!; try done.
    apply (unique_on_replace SignRow.xyzface (SignRow.mk p q x y z face text)); done.
  - intros x y z face. destruct (World.db_enabled w) eqn:Hen.
    2:{ unfold db_delete_sign. by rewrite if_enabled_disabled. }
    rewrite db_delete_sign_db by done. cbn [World.db].
    apply write_stmt_unique; [done|].
    destruct Hdb as (? & ? & ? & ? & Hsign & ?). split_and!; try done.
    by apply unique_on_filter.
  - intros x y z. destruct (World.db_enabled w) eqn:Hen.
    2:{ unfold db_delete_signs. by rewrite if_enabled_disabled. }
    rewrite db_delete_signs_db by done. cbn [World.db].
    apply write_stmt_unique; [done|].
    destruct Hdb as (? & ? & ? & ? & Hsign & ?). split_and!; try done.
    by apply unique_on_filter.
  - destruct (World.db_enabled w) eqn:Hen.
    2:{ unfold db_delete_all_signs. by rewrite if_enabled_disabled. }
    rewrite db_delete_all_signs_db by done. cbn [World.db].
    apply write_stmt_unique; [done|].
    destruct Hdb as (? & ? & ? & ? & Hsign & ?). split_and!; try done.
    apply NoDup_nil_2.
  - intros username token. destruct (World.db_enabled w) eqn:Hen.
    2:{ unfold db_auth_set. by rewrite if_enabled_disabled. }
    rewrite db_auth_set_eq by done. cbn [World.db]. apply Hsel.
    apply write_stmt_unique; [done|].
    destruct Hdb as (? & ? & ? & ? & ? & Htok). split_and!; try done.
    apply (unique_on_replace TokenRow.username (TokenRow.mk username token 1)); done.
  - intros username. destruct (World.db_enabled w) eqn:Hen.
    2:{ unfold db_auth_select. by rewrite if_enabled_disabled. }
    rewrite db_auth_select_eq by done. cbn [snd World.db]. by apply Hsel.
  - intros x y z rx ry flying. destruct (World.db_enabled w) eqn:Hen.
    2:{ unfold db_save_state. by rewrite if_enabled_disabled. }
    rewrite db_save_state_eq by done. cbn [snd World.db].
    assert (Hdel : indexes_unique (write_stmt (World.db w) delete_state_run).2).
    { by apply write_stmt_unique. }
    unfold insert_state_stmt.
    destruct (Sqlite.failing _); [done|].
    by destruct (existsb float_is_nan [x; y; z; rx; ry]).
Qed.

Lemma indexes_unique_kept_witness :
  indexes_unique (World.db (started stocked_db)) ∧
  let w := started stocked_db in
  (∀ sched, indexes_unique (World.db (run sched w).2)) ∧
  (∀ fuel, indexes_unique (World.db (db_worker_run fuel w).2)) ∧
  (∀ p q x y z face text,
     indexes_unique (World.db (db_insert_sign p q x y z face text w).2)) ∧
  (∀ x y z face, indexes_unique (World.db (db_delete_sign x y z face w).2)) ∧
  (∀ x y z, indexes_unique (World.db (db_delete_signs x y z w).2)) ∧
  indexes_unique (World.db (db_delete_all_signs w).2) ∧
  (∀ username token, indexes_unique (World.db (db_auth_set username token w).2)) ∧
  (∀ username, indexes_unique (World.db (db_auth_select username w).2)) ∧
  (∀ x y z rx ry flying,
     indexes_unique (World.db (db_save_state x y z rx ry flying w).2)).
Proof.
  assert (Hdb : indexes_unique (World.db (started stocked_db))).
  { unfold indexes_unique, unique_on.
    split_and!; apply (bool_decide_unpack _); by vm_compute. }
  exact (conj Hdb (indexes_unique_kept (started stocked_db) Hdb)).
Defined.

(** *** The worker catches up *)

(** Left alone for two quanta per queued entry, a live worker whose queue
    holds no EXIT processes the whole queue and is back waiting. *)
Lemma run_work_drains (n : nat) (w : World) :
  ring_wf (World.ring w) →
  alive (World.thrd w) = true →
  Forall (λ e, RingEntry.type e ≠ EXIT) (queue w) →
  (2 * length (queue w) ≤ n + length (held (World.thrd w)))%nat →
  (run (replicate n Work) w).1 = queue w ∧
  queue (run (replicate n Work) w).2 = [] ∧
  World.thrd (run (replicate n Work) w).2 = WAITING.
Proof.
  revert w. induction n as [|n IH]; intros w Hwf Halive Hq Hn.
  - unfold queue in *. rewrite length_app in Hn.
    destruct (World.thrd w) eqn:Ht; try done; simpl in *; [|lia].
    destruct (ring_pending (World.ring w)); simpl in *; [|lia].
    by rewrite Ht.
  - simpl. unfold bind. pose proof (db_worker_run_step_eq w) as Hstep.
    unfold queue in Hq, Hn |- *.
    destruct (World.thrd w) as [| |e|] eqn:Ht; try done; simpl in Hq, Hn |- *.
    + pose proof (ring_get_pending _ Hwf) as Hget.
      destruct (ring_get (World.ring w)) as [[e ring']|].
      * destruct Hget as [Hpend Hwf']. rewrite Hstep.
        set (w1 := World.mk _ _ ring' (DRAINING e) _).
        destruct (IH w1) as (Happlied & Hqueue & Hthrd); try done.
        { unfold queue, w1. simpl. by rewrite <- Hpend. }
        { unfold queue, w1. simpl. rewrite Hpend in Hn. simpl in Hn. lia. }
        destruct (run (replicate n Work) w1) as [applied w']. unfold ret. simpl in *.
        split_and!; try done. rewrite Happlied. unfold queue, w1. simpl.
        by rewrite Hpend.
      * rewrite Hstep. set (w1 := World.mk _ _ _ WAITING _).
        destruct (IH w1) as (Happlied & Hqueue & Hthrd); try done.
        { unfold queue, w1. simpl. rewrite Hget. simpl. lia. }
        destruct (run (replicate n Work) w1) as [applied w']. unfold ret. simpl in *.
        split_and!; try done.
    + apply Forall_cons in Hq as [He Hq]. rewrite Hstep.
      rewrite bool_decide_eq_true_2 by done.
      set (w1 := World.mk _ _ _ WAITING _).
      destruct (IH w1) as (Happlied & Hqueue & Hthrd); try done.
      { unfold queue, w1. simpl. lia. }
      destruct (run (replicate n Work) w1) as [applied w']. unfold ret. simpl in *.
      split_and!; try done. by rewrite Happlied.
Qed.

(** X13. With persistence enabled, a live worker and no EXIT queued or
    pushed, whatever the schedule of enqueue calls and worker quanta, two
    further quanta per entry are enough for the worker to catch up: the queue
    is empty, the worker is waiting, and the connection and the store calls
    are those of applying the queued entries and then the calls in the order
    they completed. The outcome does not depend on when the worker ran. *)
Theorem worker_catches_up (sched : list Action) (n : nat) (w : World) :
  World.db_enabled w = true →
  ring_wf (World.ring w) →
  alive (World.thrd w) = true →
  Forall (λ e, RingEntry.type e ≠ EXIT) (queue w) →
  Forall (λ c, c ≠ WorkerStop) (calls sched) →
  (2 * (length (queue w) + length (calls sched)) ≤ n)%nat →
  let entries := queue w ++ (call_entry <$> calls sched) in
  let '(applied, w') := run (sched ++ replicate n Work) w in
  applied = entries ∧
  queue w' = [] ∧
  World.thrd w' = WAITING ∧
  World.db w' = foldl (λ db e, switch_db e db) (World.db w) entries ∧
  store_calls w' = store_calls w ++ concat (switch_calls <$> entries).
Proof.
  intros Hen Hwf Halive Hq Hcalls Hn entries.
  pose proof (run_queue (sched ++ replicate n Work) w Hwf) as Hall.
  rewrite run_app in Hall |- *.
  pose proof (run_queue sched w Hwf) as Hsched.
  pose proof (run_alive sched w Hwf Halive Hq Hcalls) as Halive1.
  destruct (run sched w) as [applied1 w1]. cbn [fst snd] in *.
  destruct Hsched as (Hwf1 & Hq1 & _). rewrite Hen in Hq1.
  assert (Hnoexit : Forall (λ e, RingEntry.type e ≠ EXIT) (queue w1)).
  { assert (Hall' : Forall (λ e, RingEntry.type e ≠ EXIT) (applied1 ++ queue w1)).
    { rewrite <- Hq1. apply Forall_app. split; [done|].
      apply Forall_fmap. eapply Forall_impl; [exact Hcalls|].
      intros c Hc. by destruct c. }
    by apply Forall_app in Hall' as [_ ?]. }
  assert (Hlen : (length (queue w1) ≤ length (queue w) + length (calls sched))%nat).
  { apply (f_equal length) in Hq1. rewrite !length_app, length_fmap in Hq1. lia. }
  destruct (run_work_drains n w1 Hwf1 Halive1 Hnoexit) as (Happlied & Hqueue & Hthrd).
  { lia. }
  destruct (run (replicate n Work) w1) as [applied2 w']. cbn [fst snd] in *.
  destruct Hall as (_ & _ & Hdb & Hlog & _).
  subst applied2 entries. by rewrite <- Hq1 in Hdb, Hlog |- *.
Qed.

Lemma worker_catches_up_witness :
  World.db_enabled (small_world stocked_db) = true ∧
  ring_wf (World.ring (small_world stocked_db)) ∧
  alive (World.thrd (small_world stocked_db)) = true ∧
  Forall (λ e, RingEntry.type e ≠ EXIT) (queue (small_world stocked_db)) ∧
  Forall (λ c, c ≠ WorkerStop) (calls scenario) ∧
  (2 * (length (queue (small_world stocked_db)) + length (calls scenario)) ≤ 12)%nat ∧
  let sched := scenario in
  let n := 12%nat in
  let w := small_world stocked_db in
  let entries := queue w ++ (call_entry <$> calls sched) in
  let '(applied, w') := run (sched ++ replicate n Work) w in
  applied = entries ∧
  queue w' = [] ∧
  World.thrd w' = WAITING ∧
  World.db w' = foldl (λ db e, switch_db e db) (World.db w) entries ∧
  store_calls w' = store_calls w ++ concat (switch_calls <$> entries).
Proof.
  assert (Hwf : ring_wf (World.ring (small_world stocked_db))).
  { apply ring_alloc_wf. lia. }
  assert (Hq : Forall (λ e, RingEntry.type e ≠ EXIT) (queue (small_world stocked_db))).
  { apply Forall_nil_2. }
  assert (Hcalls : Forall (λ c, c ≠ WorkerStop) (calls scenario)).
  { repeat constructor; discriminate. }
  assert (Hn : (2 * (length (queue (small_world stocked_db))
                     + length (calls scenario)) ≤ 12)%nat).
  { vm_compute. lia. }
  refine (conj eq_refl (conj Hwf (conj eq_refl (conj Hq (conj Hcalls (conj Hn _)))))).
  exact (worker_catches_up scenario 12 (small_world stocked_db)
           eq_refl Hwf eq_refl Hq Hcalls Hn).
Defined.

(** *** Store calls and the mutexes *)

Lemma mutex_after_app (m : Mutex) (locked : bool) (a b : list Event) :
  mutex_after m locked (a ++ b) = mutex_after m (mutex_after m locked a) b.
Proof.
  revert locked. induction a as [|e a IH]; intros locked; [done|].
  destruct e; simpl; by rewrite IH.
Qed.

Lemma outside_mutex_app (m : Mutex) (locked : bool) (a b : list Event) :
  outside_mutex m locked (a ++ b)
  = outside_mutex m locked a && outside_mutex m (mutex_after m locked a) b.
Proof.
  revert locked. induction a as [|e a IH]; intros locked; [done|].
  destruct e; simpl; rewrite IH; try done; by rewrite andb_assoc.
Qed.

Lemma switch_calls_outside (m : Mutex) (e : RingEntry) :
  mutex_after m false (switch_calls e) = false ∧
  outside_mutex m false (switch_calls e) = true.
Proof. unfold switch_calls. by destruct (RingEntry.type e). Qed.

(** A trace that leaves [m] free and has its store calls outside [m], added
    to a log that does, gives a log that does. *)
Lemma outside_mutex_extend (m : Mutex) (log trace : list Event) :
  mutex_after m false log = false ∧ outside_mutex m false log = true →
  mutex_after m false trace = false ∧ outside_mutex m false trace = true →
  mutex_after m false (log ++ trace) = false ∧
  outside_mutex m false (log ++ trace) = true.
Proof.
  intros [Hafter Houtside] [Hafter' Houtside'].
  by rewrite mutex_after_app, outside_mutex_app, Hafter, Houtside, Hafter', Houtside'.
Qed.

(** X14. The enqueue calls and the worker hold [mtx] only around the push and
    the pop: after any schedule of calls and worker quanta [mtx] is free, and
    every store call logged was made while it was free, so no producer waits
    for the store behind the queue lock. The same holds of [load_mtx], which
    neither the enqueue calls nor the worker ever take: the writes of the
    worker are not ordered against the loads by it. *)
Theorem store_calls_outside_mutex (m : Mutex) (sched : list Action) (w : World) :
  mutex_after m false (World.log w) = false →
  outside_mutex m false (World.log w) = true →
  mutex_after m false (World.log (run sched w).2) = false ∧
  outside_mutex m false (World.log (run sched w).2) = true.
Proof.
  intros Hafter Houtside. pose proof (conj Hafter Houtside) as Hlog.
  clear Hafter Houtside. revert w Hlog.
  induction sched as [|[c|] sched IH]; intros w Hlog.
  - done.
  - simpl. unfold bind. rewrite call_run_eq. apply IH.
    destruct (World.db_enabled w); [|done]. cbn [World.log].
    apply outside_mutex_extend; [done|]. by destruct m.
  - simpl. unfold bind.
    assert (Hstep : mutex_after m false (World.log (db_worker_run_step w).2) = false ∧
                    outside_mutex m false (World.log (db_worker_run_step w).2) = true).
    { rewrite db_worker_run_step_eq.
      destruct (World.thrd w) as [| |e|]; [done| | |done].
      - destruct (ring_get (World.ring w)) as [[e ring']|]; cbn [snd World.log];
          (apply outside_mutex_extend; [done|]); by destruct m.
      - cbn [snd World.log]. apply outside_mutex_extend; [done|].
        apply switch_calls_outside. }
    destruct (db_worker_run_step w) as [o w1]. cbn [snd] in Hstep.
    specialize (IH w1 Hstep). by destruct (run sched w1).
Qed.

Lemma store_calls_outside_mutex_witness :
  mutex_after mtx false (World.log (small_world stocked_db)) = false ∧
  outside_mutex mtx false (World.log (small_world stocked_db)) = true ∧
  let m := mtx in
  let sched := scenario in
  let w := small_world stocked_db in
  mutex_after m false (World.log (run sched w).2) = false ∧
  outside_mutex m false (World.log (run sched w).2) = true.
Proof.
  split; [reflexivity|]. split; [reflexivity|].
  exact (store_calls_outside_mutex mtx scenario (small_world stocked_db)
           eq_refl eq_refl).
Defined.

Example outside_mutex_run :
  outside_mutex mtx false [EvLock mtx; EvExec "commit; begin;"; EvUnlock mtx] = false ∧
  outside_mutex mtx false [EvLock mtx; EvUnlock mtx; EvExec "commit; begin;"] = true ∧
  store_calls (run scenario (small_world stocked_db)).2 ≠ [].
Proof. vm_compute. done. Qed.

(** *** Closing *)

Lemma emit_bind {A} (e : Event) (k : unit → M A) (w : World) :
  bind (emit e) k w =
  k () (World.mk (World.db_enabled w) (World.db w) (World.ring w) (World.thrd w)
                 (World.log w ++ [e])).
Proof. done. Qed.

Lemma sqlite3_exec_txn_bind {A} (sql : string) (k : Z → M A) (w : World) :
  bind (sqlite3_exec_txn sql) k w =
  k (if Sqlite.failing (World.db w) then SQLITE_ERROR else SQLITE_OK)
    (World.mk (World.db_enabled w) (World.db w) (World.ring w) (World.thrd w)
              (World.log w ++ [EvExec sql])).
Proof. done. Qed.

Lemma db_close_eq (fuel : nat) (w : World) :
  World.db_enabled w = true →
  (db_close fuel w).2 =
  World.mk (World.db_enabled (thrd_join fuel (call_run WorkerStop w).2).2)
           (World.db (thrd_join fuel (call_run WorkerStop w).2).2)
           (ring_free (World.ring (thrd_join fuel (call_run WorkerStop w).2).2))
           (World.thrd (thrd_join fuel (call_run WorkerStop w).2).2)
           (World.log (thrd_join fuel (call_run WorkerStop w).2).2 ++
            [EvExec "commit;";
             EvFinalize insert_block_stmt; EvFinalize insert_light_stmt;
             EvFinalize insert_sign_stmt; EvFinalize delete_sign_stmt;
             EvFinalize delete_signs_stmt; EvFinalize load_blocks_stmt;
             EvFinalize load_lights_stmt; EvFinalize load_signs_stmt;
             EvFinalize get_key_stmt; EvFinalize set_key_stmt;
             EvFinalize insert_block_damage_stmt; EvFinalize load_block_damage_stmt;
             EvFinalize trim_block_damage_stmt; EvClose]).
Proof.
  intros Hen. unfold db_close. rewrite if_enabled_enabled by done.
  unfold bind at 1. unfold db_worker_stop. rewrite if_enabled_enabled by done.
  unfold bind at 1. unfold call_run. rewrite if_enabled_enabled by done.
  destruct (db_worker_stop_enqueue w) as [[] w1]. cbn [snd].
  unfold bind at 1. destruct (thrd_join fuel w1) as [applied w2]. cbn [snd].
  destruct w2 as [enabled db ring t log]. unfold on_ring at 1.
  cbn [World.db World.db_enabled World.ring World.thrd World.log].
  rewrite sqlite3_exec_txn_bind. cbv beta.
  cbn [World.db World.db_enabled World.ring World.thrd World.log].
  unfold sqlite3_finalize.
  do 13 (rewrite emit_bind; cbv beta;
         cbn [World.db World.db_enabled World.ring World.thrd World.log]).
  unfold sqlite3_close, emit.
  cbn [World.db World.db_enabled World.ring World.thrd World.log snd].
  by rewrite <- !app_assoc.
Qed.

(** X15. With persistence enabled, a live worker and no EXIT queued,
    [db_close] loses no queued write: the worker processes every entry that
    is still queued, in order, before it returns; only then come the final
    "commit;", the finalisation of the thirteen prepared statements and the
    closing of the connection. Two quanta per queued entry, and two more for
    the EXIT, are fuel enough for the join. *)
Theorem db_close_drains (fuel : nat) (w : World) :
  World.db_enabled w = true →
  ring_wf (World.ring w) →
  alive (World.thrd w) = true →
  Forall (λ e, RingEntry.type e ≠ EXIT) (queue w) →
  (2 * length (queue w) + 2 ≤ fuel + length (held (World.thrd w)))%nat →
  let w' := (db_close fuel w).2 in
  World.db w' = foldl (λ db e, switch_db e db) (World.db w) (queue w) ∧
  World.thrd w' = STOPPED ∧
  store_calls w'
  = store_calls w ++ concat (switch_calls <$> queue w) ++
    [EvExec "commit;";
     EvFinalize insert_block_stmt; EvFinalize insert_light_stmt;
     EvFinalize insert_sign_stmt; EvFinalize delete_sign_stmt;
     EvFinalize delete_signs_stmt; EvFinalize load_blocks_stmt;
     EvFinalize load_lights_stmt; EvFinalize load_signs_stmt;
     EvFinalize get_key_stmt; EvFinalize set_key_stmt;
     EvFinalize insert_block_damage_stmt; EvFinalize load_block_damage_stmt;
     EvFinalize trim_block_damage_stmt; EvClose].
Proof.
  intros Hen Hwf Halive Hq Hfuel w'. subst w'. rewrite db_close_eq by done.
  destruct (call_run_queue WorkerStop w Hwf) as (Hwf1 & Hq1 & Hdb1 & Hlog1 & _).
  assert (Ht1 : World.thrd (call_run WorkerStop w).2 = World.thrd w).
  { rewrite call_run_eq. cbn [snd]. by rewrite Hen. }
  rewrite Hen in Hq1. cbn [call_entry] in Hq1.
  pose proof (thrd_join_exit fuel (call_run WorkerStop w).2 (queue w) []
                (RingEntry.mk EXIT 0 0 0 0 0 0 0) Hwf1) as Hjoin.
  rewrite Ht1 in Hjoin. specialize (Hjoin Halive Hq1 Hq eq_refl Hfuel).
  destruct (thrd_join fuel (call_run WorkerStop w).2) as [applied w2].
  destruct Hjoin as (_ & Hthrd & _ & _ & Hdb & Hlog & _).
  cbn [snd World.db World.thrd]. split_and!.
  - by rewrite Hdb, Hdb1, foldl_app.
  - done.
  - unfold store_calls at 1. cbn [World.log]. rewrite List.filter_app.
    fold (store_calls w2). rewrite Hlog, Hlog1, fmap_app, concat_app.
    cbn. by rewrite !app_nil_r, <- app_assoc.
Qed.

Lemma db_close_drains_witness :
  World.db_enabled backlog = true ∧
  ring_wf (World.ring backlog) ∧
  alive (World.thrd backlog) = true ∧
  Forall (λ e, RingEntry.type e ≠ EXIT) (queue backlog) ∧
  (2 * length (queue backlog) + 2 ≤ 6 + length (held (World.thrd backlog)))%nat ∧
  let fuel := 6%nat in
  let w := backlog in
  let w' := (db_close fuel w).2 in
  World.db w' = foldl (λ db e, switch_db e db) (World.db w) (queue w) ∧
  World.thrd w' = STOPPED ∧
  store_calls w'
  = store_calls w ++ concat (switch_calls <$> queue w) ++
    [EvExec "commit;";
     EvFinalize insert_block_stmt; EvFinalize insert_light_stmt;
     EvFinalize insert_sign_stmt; EvFinalize delete_sign_stmt;
     EvFinalize delete_signs_stmt; EvFinalize load_blocks_stmt;
     EvFinalize load_lights_stmt; EvFinalize load_signs_stmt;
     EvFinalize get_key_stmt; EvFinalize set_key_stmt;
     EvFinalize insert_block_damage_stmt; EvFinalize load_block_damage_stmt;
     EvFinalize trim_block_damage_stmt; EvClose].
Proof.
  assert (Hwf : ring_wf (World.ring backlog)).
  { pose proof (run_queue [Produce (InsertBlock 0 0 1 2 3 55); Produce (SetKey 0 0 99)]
                  (small_world stocked_db)) as Hrun.
    unfold backlog. destruct (run _ _) as [applied w1]. apply Hrun.
    apply ring_alloc_wf. lia. }
  assert (Hq : Forall (λ e, RingEntry.type e ≠ EXIT) (queue backlog)).
  { vm_compute. repeat constructor; discriminate. }
  assert (Hfuel : (2 * length (queue backlog) + 2
                   ≤ 6 + length (held (World.thrd backlog)))%nat).
  { vm_compute. lia. }
  refine (conj eq_refl (conj Hwf (conj eq_refl (conj Hq (conj Hfuel _))))).
  exact (db_close_drains 6 backlog eq_refl Hwf eq_refl Hq Hfuel).
Defined.

Example db_close_run :
  queue backlog
  = [RingEntry.mk BLOCK 0 0 1 2 3 55 0; RingEntry.mk KEY 0 0 0 0 0 0 99] ∧
  get_key_rows 0 0 (World.db backlog) = [7] ∧
  get_key_rows 0 0 (World.db (db_close 6 backlog).2) = [99] ∧
  select_block_rows (Sqlite.block (World.db (db_close 6 backlog).2)) 0 0
  = [(1, 2, 3, 55)].
Proof. vm_compute. done. Qed.

(** *** Opening *)

Lemma or_bail_store (e : Event) (rest : M Z) (enabled : bool)
      (tokens : list TokenRow) (state : list StateRow) (block light : list BlockRow)
      (key : list KeyRow) (sign : list SignRow) (block_damage : list BlockRow)
      (changes : Z) (failing : bool) (codes : list Z) (ring : Ring) (t : Worker)
      (log : list Event) :
  or_bail (emit e;; store_rc) rest
    (World.mk enabled
       (Sqlite.mk tokens state block light key sign block_damage changes failing codes)
       ring t log)
  = match codes with
    | [] =>
        rest (World.mk enabled
                (Sqlite.mk tokens state block light key sign block_damage changes
                           failing [])
                ring t (log ++ [e]))
    | rc :: codes =>
        if rc =? 0
        then rest (World.mk enabled
                     (Sqlite.mk tokens state block light key sign block_damage changes
                                failing codes)
                     ring t (log ++ [e]))
        else (rc, World.mk enabled
                    (Sqlite.mk tokens state block light key sign block_damage changes
                               failing codes)
                    ring t (log ++ [e]))
    end.
Proof.
  unfold or_bail, bail, bind, ret, emit, store_rc, on_db.
  cbn [World.db World.db_enabled World.ring World.thrd World.log Sqlite.init_rc].
  destruct codes as [|rc codes]; [done|].
  unfold Sqlite.set_init_rc. cbn. by destruct (rc =? 0).
Qed.

(** X16. With persistence enabled, [db_init] makes the opening, the schema
    script and the thirteen preparations in this order and gives up at the
    first of them that the library refuses, whichever it is: it returns the
    code of that call, makes no further call and does not start the worker.
    When none is refused it executes "begin;", leaves the worker waiting on an
    empty ring of 1024 slots and returns 0. It changes no table. *)
Theorem db_init_outcome (path : string) (w : World) :
  World.db_enabled w = true →
  let w' := (db_init path w).2 in
  let codes := Sqlite.init_rc (World.db w) in
  Sqlite.set_init_rc codes (World.db w') = World.db w ∧
  World.db_enabled w' = true ∧
  match list_find (λ rc, rc ≠ 0) (take 15 codes) with
  | Some (k, rc) =>
      (db_init path w).1 = rc ∧
      rc ≠ 0 ∧
      World.thrd w' = World.thrd w ∧
      World.ring w' = World.ring w ∧
      World.log w' = World.log w ++ take (S k) (init_calls path)
  | None =>
      (db_init path w).1 = 0 ∧
      World.thrd w' = WAITING ∧
      World.ring w' = ring_alloc 1024 ∧
      ring_wf (World.ring w') ∧
      queue w' = [] ∧
      World.log w' = World.log w ++ init_calls path ++ [EvExec "begin;"]
  end.
Proof.
  intros Hen w' codes. subst w' codes. unfold db_init.
  rewrite if_enabled_enabled by done.
  destruct w as [enabled db ring t log]. cbn [World.db_enabled] in Hen. subst enabled.
  destruct db as [tokens state block light key sign block_damage changes failing codes].
  cbn [World.db World.ring World.thrd World.log Sqlite.init_rc].
  unfold sqlite3_open, sqlite3_exec_script, sqlite3_prepare_v2.
  assert (Hwf : ring_wf (ring_alloc 1024)) by (apply ring_alloc_wf; lia).
  assert (Hqueue : ring_pending (ring_alloc 1024) = []) by apply ring_alloc_pending.
  do 15 (rewrite or_bail_store;
         destruct codes as [|c codes];
         [ repeat (rewrite or_bail_store; cbv beta iota);
           rewrite sqlite3_exec_txn_bind;
           unfold db_worker_start, if_enabled, get_db_enabled, on_ring, set_thrd,
             bind, ret;
           cbn [fst snd World.db World.db_enabled World.ring World.thrd World.log];
           split_and!; try done; by rewrite <- !app_assoc
         | destruct (Z.eqb_spec c 0) as [->|Hc];
           [ | lazymatch goal with
               | |- context [list_find ?P ?l] =>
                   let found := eval cbn in (list_find P l) in
                   change (list_find P l) with found
               end;
               rewrite (decide_True (P := c ≠ 0) _ _ Hc);
               cbn [fst snd World.db World.db_enabled World.ring World.thrd World.log
                    fmap option_fmap option_map prod_map];
               split_and!; try done; by rewrite <- !app_assoc ] ]).
  rewrite sqlite3_exec_txn_bind.
  unfold db_worker_start, if_enabled, get_db_enabled, on_ring, set_thrd, bind, ret.
  cbn [fst snd World.db World.db_enabled World.ring World.thrd World.log].
  split_and!; try done. by rewrite <- !app_assoc.
Qed.

Lemma db_init_outcome_witness :
  World.db_enabled (World.mk true refusing_db (ring_free (ring_alloc 2)) NOT_STARTED [])
  = true ∧
  let path := "craft.db" in
  let w := World.mk true refusing_db (ring_free (ring_alloc 2)) NOT_STARTED [] in
  let w' := (db_init path w).2 in
  let codes := Sqlite.init_rc (World.db w) in
  Sqlite.set_init_rc codes (World.db w') = World.db w ∧
  World.db_enabled w' = true ∧
  match list_find (λ rc, rc ≠ 0) (take 15 codes) with
  | Some (k, rc) =>
      (db_init path w).1 = rc ∧
      rc ≠ 0 ∧
      World.thrd w' = World.thrd w ∧
      World.ring w' = World.ring w ∧
      World.log w' = World.log w ++ take (S k) (init_calls path)
  | None =>
      (db_init path w).1 = 0 ∧
      World.thrd w' = WAITING ∧
      World.ring w' = ring_alloc 1024 ∧
      ring_wf (World.ring w') ∧
      queue w' = [] ∧
      World.log w' = World.log w ++ init_calls path ++ [EvExec "begin;"]
  end.
Proof.
  split; [reflexivity|].
  exact (db_init_outcome "craft.db"
           (World.mk true refusing_db (ring_free (ring_alloc 2)) NOT_STARTED []) eq_refl).
Defined.

Example db_init_run :
  let idle db := World.mk true db (ring_free (ring_alloc 2)) NOT_STARTED [] in
  (db_init "craft.db" (idle refusing_db)).1 = 14 ∧
  World.thrd (db_init "craft.db" (idle refusing_db)).2 = NOT_STARTED ∧
  World.log (db_init "craft.db" (idle refusing_db)).2
  = [EvOpen "craft.db"; EvExec "create_query";
     EvPrepare insert_block_stmt; EvPrepare insert_light_stmt] ∧
  (db_init "craft.db" (idle (Sqlite.set_init_rc [14] stocked_db))).1 = 14 ∧
  World.log (db_init "craft.db" (idle (Sqlite.set_init_rc [14] stocked_db))).2
  = [EvOpen "craft.db"] ∧
  (db_init "craft.db" (idle stocked_db)).1 = 0 ∧
  World.thrd (db_init "craft.db" (idle stocked_db)).2 = WAITING.
Proof. vm_compute. done. Qed.

(** *** Errors of the store *)

(** X17. [db_save_state] deletes the saved state before it inserts the new
    one and checks neither step: with a NaN among the five floats, on a
    working store, the insertion is refused and the state table is left empty,
    so a following [db_load_state] returns 0 whatever was saved before. On a
    failing store nothing changes. In every case the other tables stay as
    they are. *)
Theorem db_save_state_edge (x y z rx ry : float) (flying : Z) (w : World) :
  World.db_enabled w = true →
  let w' := (db_save_state x y z rx ry flying w).2 in
  (Sqlite.failing (World.db w) = false →
   existsb float_is_nan [x; y; z; rx; ry] = true →
   Sqlite.state (World.db w') = [] ∧ (db_load_state w').1 = (0, None)) ∧
  (Sqlite.failing (World.db w) = true →
   World.db w' = World.db w ∧ (db_load_state w').1 = (0, None)) ∧
  Sqlite.block (World.db w') = Sqlite.block (World.db w) ∧
  Sqlite.light (World.db w') = Sqlite.light (World.db w) ∧
  Sqlite.block_damage (World.db w') = Sqlite.block_damage (World.db w) ∧
  Sqlite.key (World.db w') = Sqlite.key (World.db w) ∧
  Sqlite.sign (World.db w') = Sqlite.sign (World.db w) ∧
  Sqlite.identity_token (World.db w') = Sqlite.identity_token (World.db w).
Proof.
  intros Hen w'. subst w'. rewrite db_save_state_eq by done. cbn [snd World.db].
  destruct (Sqlite.failing (World.db w)) eqn:Hf.
  - rewrite write_stmt_failing by done. cbn [snd]. unfold insert_state_stmt.
    rewrite Hf. cbn [snd]. split_and!; try done. intros _. split; [done|].
    rewrite db_load_state_eq by done. unfold first_step. cbn [fst World.db].
    by rewrite Hf.
  - rewrite write_stmt_working by done. unfold delete_state_run, insert_state_stmt.
    cbn [fst snd Sqlite.failing Sqlite.set_changes Sqlite.set_state Sqlite.state].
    rewrite Hf. destruct (existsb float_is_nan [x; y; z; rx; ry]).
    + cbn [snd]. split_and!; try done. intros _ _. split; [done|].
      rewrite db_load_state_eq by done. unfold first_step. cbn [fst World.db].
      unfold Sqlite.set_changes, Sqlite.set_state. cbn [Sqlite.failing Sqlite.state].
      by rewrite Hf.
    + cbn [snd]. by split_and!.
Qed.

Lemma db_save_state_edge_witness :
  World.db_enabled (started stocked_db) = true ∧
  let x := 2143289344 in
  let w := started stocked_db in
  let w' := (db_save_state x 0 0 0 0 1 w).2 in
  (Sqlite.failing (World.db w) = false →
   existsb float_is_nan [x; 0; 0; 0; 0] = true →
   Sqlite.state (World.db w') = [] ∧ (db_load_state w').1 = (0, None)) ∧
  (Sqlite.failing (World.db w) = true →
   World.db w' = World.db w ∧ (db_load_state w').1 = (0, None)) ∧
  Sqlite.block (World.db w') = Sqlite.block (World.db w) ∧
  Sqlite.light (World.db w') = Sqlite.light (World.db w) ∧
  Sqlite.block_damage (World.db w') = Sqlite.block_damage (World.db w) ∧
  Sqlite.key (World.db w') = Sqlite.key (World.db w) ∧
  Sqlite.sign (World.db w') = Sqlite.sign (World.db w) ∧
  Sqlite.identity_token (World.db w') = Sqlite.identity_token (World.db w).
Proof.
  split; [reflexivity|].
  exact (db_save_state_edge 2143289344 0 0 0 0 1 (started stocked_db) eq_refl).
Defined.

Example db_save_state_nan_after_save :
  let w1 := (db_save_state 1 2 3 4 5 1 (started stocked_db)).2 in
  let w2 := (db_save_state 2143289344 2 3 4 5 1 w1).2 in
  (db_load_state w1).1 = (1, Some (StateRow.mk 1 2 3 4 5 1)) ∧
  (db_load_state w2).1 = (0, None).
Proof. vm_compute. done. Qed.


